(** * Temporal predictive coding: the three solvers of [src/models.py]

    A shallow embedding of the classes [KalmanFilter], [NeuralKalmanFilter]
    and [TemporalPC], and the properties of their inference and learning
    passes.

    Scalars are real numbers; a tensor is a two-dimensional array given by
    its rows.  A Python method becomes a state-and-exception action on the
    object it belongs to: the state is what the method mutates, and an
    exception leaves the state as it was when it was raised.  Tensors that
    the code mutates in place ([self.z -= ...], [self.Wr += ...], [x -= ...])
    live in a store and are named by their location, so that two names of
    one tensor see each other's writes and [clone()] makes a new tensor. *)

From Stdlib Require Import Reals Lra Lia ClassicalEpsilon.
From stdpp Require Import base option list gmap strings.

#[local] Open Scope R_scope.

(* ================================================================== *)
(** * Part I: definitions *)
(* ================================================================== *)

(** ** Exceptions and actions *)

(** The exceptions the solvers can raise.  [LinAlgError] is what
    [torch.linalg.inv] raises when it finds no inverse,
    [RuntimeError] what torch raises on operands whose shapes do not fit,
    [TypeError] what an operation on [None] raises.  [InvalidRef] is the
    read of a location that holds no tensor; no run that starts from a
    constructed object reaches it. *)
Inductive exn : Type :=
  | ValueError (msg : string)
  | RuntimeError
  | LinAlgError
  | TypeError
  | InvalidRef.

Inductive outcome (A : Type) : Type :=
  | Ok (a : A)
  | Raise (e : exn).
Arguments Ok {A} a.
Arguments Raise {A} e.

#[global] Instance outcome_ret : MRet outcome := fun A a => Ok a.
#[global] Instance outcome_bind : MBind outcome := fun A B k o =>
  match o with
  | Ok a => k a
  | Raise e => Raise e
  end.

(** A method body: it runs on a state and leaves a state, with a result or
    an exception. *)
Definition action (S A : Type) : Type := S -> S * outcome A.

#[global] Instance action_ret {S} : MRet (action S) := fun A a s => (s, Ok a).
#[global] Instance action_bind {S} : MBind (action S) := fun A B k c s =>
  match c s with
  | (s', Ok a) => k a s'
  | (s', Raise e) => (s', Raise e)
  end.

Definition lift {S A} (o : outcome A) : action S A := fun s => (s, o).
Definition get {S} : action S S := fun s => (s, Ok s).
Definition modify {S} (f : S -> S) : action S unit := fun s => (f s, Ok tt).

(** Reading an attribute that may still be [None]. *)
Definition read {S A} (o : option A) : action S A :=
  match o with
  | Some a => mret a
  | None => lift (Raise TypeError)
  end.

(** [for x in xs: body(x)] *)
Fixpoint for_each {S A} (body : A -> action S unit) (xs : list A) : action S unit :=
  match xs with
  | [] => mret tt
  | x :: xs' => body x ;; for_each body xs'
  end.

(** A loop that carries local variables from one round to the next. *)
Fixpoint fold_each {S A B} (body : B -> A -> action S B) (acc : B) (xs : list A)
  : action S B :=
  match xs with
  | [] => mret acc
  | x :: xs' => acc' ← body acc x; fold_each body acc' xs'
  end.

(** [for _ in range(n): body] *)
Fixpoint repeat_n {S} (n : nat) (body : action S unit) : action S unit :=
  match n with
  | O => mret tt
  | S n' => body ;; repeat_n n' body
  end.

(** ** Tensors *)

Definition tensor : Type := list (list R).

Definition nrows (M : tensor) : nat := length M.
Definition ncols (M : tensor) : nat := length (hd [] M).

(** [M] has [r] rows of [c] entries each. *)
Definition is_shape (r c : nat) (M : tensor) : bool :=
  (length M =? r)%nat && forallb (fun row => (length row =? c)%nat) M.

Definition sumR (v : list R) : R := foldr Rplus 0 v.
Definition dot (a b : list R) : R := sumR (zip_with Rmult a b).
Definition col (j : nat) (M : tensor) : list R := map (fun row => nth j row 0) M.

(** [M.t()] *)
Definition transpose (M : tensor) : tensor :=
  map (fun j => col j M) (seq 0 (ncols M)).

Definition tmap (f : R -> R) (M : tensor) : tensor := map (map f) M.

(** [c * M] for a Python float [c] *)
Definition scale (c : R) (M : tensor) : tensor := tmap (Rmult c) M.

(** [torch.zeros((r, c))] and [torch.eye(n)] *)
Definition zeros (r c : nat) : tensor := replicate r (replicate c 0).
Definition eye (n : nat) : tensor :=
  map (fun i => map (fun j => if (i =? j)%nat then 1 else 0) (seq 0 n)) (seq 0 n).

(** The matrix product of the rows of [A] with the columns of [B]. *)
Definition mmul (A B : tensor) : tensor :=
  map (fun a => map (fun j => dot a (col j B)) (seq 0 (ncols B))) A.

(** [torch.matmul(A, B)] on two-dimensional operands: every row of [A] must
    be as long as [B] has rows. *)
Definition matmul (A B : tensor) : outcome tensor :=
  if forallb (fun a => (length a =? nrows B)%nat) A
  then Ok (mmul A B) else Raise RuntimeError.

(** Broadcasting of one dimension: equal sizes, or one of them is 1. *)
Definition bdim (a b : nat) : option nat :=
  if (a =? b)%nat then Some a
  else if (a =? 1)%nat then Some b
  else if (b =? 1)%nat then Some a
  else None.

Definition expand_row (c : nat) (row : list R) : list R :=
  if (length row =? c)%nat then row else replicate c (hd 0 row).

Definition expand (r c : nat) (M : tensor) : tensor :=
  let M' := map (expand_row c) M in
  if (length M' =? r)%nat then M' else replicate r (hd [] M').

Definition zipT (f : R -> R -> R) (A B : tensor) : tensor :=
  zip_with (zip_with f) A B.

(** An elementwise operation of two tensors, with torch's broadcasting. *)
Definition elementwise (f : R -> R -> R) (A B : tensor) : outcome tensor :=
  match bdim (nrows A) (nrows B), bdim (ncols A) (ncols B) with
  | Some r, Some c => Ok (zipT f (expand r c A) (expand r c B))
  | _, _ => Raise RuntimeError
  end.

Definition tadd := elementwise Rplus.
Definition tsub := elementwise Rminus.
Definition tmul := elementwise Rmult.

(** An in-place operation [A op= B]: the result must have the shape of [A]. *)
Definition inplace (f : R -> R -> R) (A B : tensor) : outcome tensor :=
  M ← elementwise f A B;
  if (nrows M =? nrows A)%nat && (ncols M =? ncols A)%nat
  then Ok M else Raise RuntimeError.

(** [torch.sum(M)] and [M ** 2] *)
Definition tsum (M : tensor) : R := sumR (map sumR M).
Definition tsquare (M : tensor) : tensor := tmap (fun v => v ^ 2) M.

(** [torch.sign] *)
Definition sgn (v : R) : R :=
  if Rlt_dec 0 v then 1 else if Rlt_dec v 0 then -1 else 0.

(** [M[:, l:l+1]]: a slice never fails; out of range it is empty. *)
Definition column (l : nat) (M : tensor) : tensor :=
  map (fun row => take 1 (drop l row)) M.

(** [torch.cat(Ms, dim=1)]: the list must not be empty and the tensors must
    have the same number of rows. *)
Definition hcat (A B : tensor) : outcome tensor :=
  if (nrows A =? nrows B)%nat then Ok (zip_with app A B) else Raise RuntimeError.

Definition cat_cols (Ms : list tensor) : outcome tensor :=
  match Ms with
  | [] => Raise RuntimeError
  | M :: Ms' => foldl (fun acc N => A ← acc; hcat A N) (Ok M) Ms'
  end.

(** [torch.linalg.inv(M)], by its contract over the real numbers: the
    two-sided inverse of a square matrix, and [LinAlgError] when the matrix
    has none.  In exact arithmetic the factorisation that torch runs meets
    a zero pivot on the singular matrices and on no other.  On
    floating-point numbers the pivots of a singular matrix can round to
    values that are not zero, and torch then returns a matrix: the model
    has no rounding and does not show that case. *)
Definition is_inverse (n : nat) (M N : tensor) : Prop :=
  is_shape n n M = true /\ is_shape n n N = true /\
  mmul M N = eye n /\ mmul N M = eye n.


Definition inv (M : tensor) : outcome tensor :=
  if is_shape (nrows M) (nrows M) M then
    match excluded_middle_informative (exists N, is_inverse (nrows M) M N) with
    | left H => Ok (proj1_sig (constructive_indefinite_description _ H))
    | right _ => Raise LinAlgError
    end
  else Raise RuntimeError.

(** ** The nonlinearities of [src/utils.py] *)

(** Modelled from the spec: the classes [Linear] and [Tanh] of [src/utils.py],
    which is not among the sources.  The spec (4.1) gives their contract: a
    value and a derivative taken at the input; the identity has derivative 1
    everywhere, the saturating one has derivative [1 - value^2]. *)
Inductive nonlinearity : Type := Linear | Tanh.

Definition act (nl : nonlinearity) (v : R) : R :=
  match nl with
  | Linear => v
  | Tanh => tanh v
  end.

Definition act' (nl : nonlinearity) (v : R) : R :=
  match nl with
  | Linear => 1
  | Tanh => 1 - tanh v ^ 2
  end.

(** [self.nonlin(M)] and [self.nonlin.deriv(M)] *)
Definition activate (nl : nonlinearity) (M : tensor) : tensor := tmap (act nl) M.
Definition deriv (nl : nonlinearity) (M : tensor) : tensor := tmap (act' nl) M.

(** The dispatch on the name that both constructors share. *)
Definition select_nonlin (name : string) : outcome nonlinearity :=
  if String.eqb name "linear" then Ok Linear
  else if String.eqb name "tanh" then Ok Tanh
  else Raise (ValueError "no such nonlinearity!").

(** ** The store of tensors that are mutated in place *)

(** A location stands for a tensor with a storage of its own, and the
    store holds the value of each.  Two names of one tensor are one
    location.  A view, which shares a part of the storage of another
    tensor, has no counterpart in the store: where the code writes in
    place to a tensor of the caller ([x] in [TemporalPC.update_nodes]),
    the model takes that tensor to own its storage. *)
Definition loc : Type := positive.
Abbreviation heap := (gmap loc tensor).

(** An object together with the store its tensors live in. *)
Record world (O : Type) : Type := World { mem : heap; self : O }.
Arguments World {O} mem self.
Arguments mem {O} w.
Arguments self {O} w.

(** A new tensor, at a location that names no other tensor. *)
Definition new_tensor (t : tensor) : action heap loc := fun h =>
  let l := fresh (dom h) in (<[l := t]> h, Ok l).

Definition alloc {O} (t : tensor) : action (world O) loc := fun w =>
  let l := fresh (dom (mem w)) in
  (World (<[l := t]> (mem w)) (self w), Ok l).

Definition load {O} (l : loc) : action (world O) tensor := fun w =>
  match mem w !! l with
  | Some t => (w, Ok t)
  | None => (w, Raise InvalidRef)
  end.

(** The write of an in-place operation. *)
Definition store {O} (l : loc) (t : tensor) : action (world O) unit := fun w =>
  (World (<[l := t]> (mem w)) (self w), Ok tt).

Definition get_self {O} : action (world O) O := fun w => (w, Ok (self w)).
Definition set_self {O} (f : O -> O) : action (world O) unit := fun w =>
  (World (mem w) (f (self w)), Ok tt).

(** The tensor a name stands for, when there is one. *)
Definition deref (h : heap) (ol : option loc) : option tensor :=
  l ← ol; h !! l.

(* ------------------------------------------------------------------ *)
(** ** [class KalmanFilter] *)
(* ------------------------------------------------------------------ *)

Module KalmanFilter.

(** The attributes of the object.  The source's [R] is [R'] here, where
    [R] names the real numbers.  No tensor of this class is mutated in
    place, so every attribute holds its tensor's value. *)
Record t : Type := Build {
  A : tensor;
  B : tensor;
  C : tensor;
  latent_size : nat;
  Q : tensor;
  R' : tensor;
  z : option tensor;
  P : option tensor;
  x : option tensor;
  u : option tensor;
  exs : option tensor
}.

Definition init (A B C Q R' : tensor) (latent_size : nat) : t :=
  Build A B C latent_size Q R' None None None None None.

Definition set_z (v : option tensor) (s : t) : t :=
  Build (A s) (B s) (C s) (latent_size s) (Q s) (R' s) v (P s) (x s) (u s) (exs s).
Definition set_P (v : option tensor) (s : t) : t :=
  Build (A s) (B s) (C s) (latent_size s) (Q s) (R' s) (z s) v (x s) (u s) (exs s).
Definition set_x (v : option tensor) (s : t) : t :=
  Build (A s) (B s) (C s) (latent_size s) (Q s) (R' s) (z s) (P s) v (u s) (exs s).
Definition set_u (v : option tensor) (s : t) : t :=
  Build (A s) (B s) (C s) (latent_size s) (Q s) (R' s) (z s) (P s) (x s) v (exs s).
Definition set_exs (v : option tensor) (s : t) : t :=
  Build (A s) (B s) (C s) (latent_size s) (Q s) (R' s) (z s) (P s) (x s) (u s) v.

Definition projection : action t (tensor * tensor) :=
  s ← get;
  zv ← read (z s);
  Az ← lift (matmul (A s) zv);
  uv ← read (u s);
  Bu ← lift (matmul (B s) uv);
  z_proj ← lift (tadd Az Bu);
  Pv ← read (P s);
  PAt ← lift (matmul Pv (transpose (A s)));
  APAt ← lift (matmul (A s) PAt);
  P_proj ← lift (tadd APAt (Q s));
  mret (z_proj, P_proj).

Definition correction (z_proj P_proj : tensor) : action t unit :=
  s ← get;
  PCt ← lift (matmul P_proj (transpose (C s)));
  CP ← lift (matmul (C s) P_proj);
  CPCt ← lift (matmul CP (transpose (C s)));
  S ← lift (tadd CPCt (R' s));
  Si ← lift (inv S);
  K ← lift (matmul PCt Si);
  xv ← read (x s);
  Cz ← lift (matmul (C s) z_proj);
  e ← lift (tsub xv Cz);
  Ke ← lift (matmul K e);
  z' ← lift (tadd z_proj Ke);
  modify (set_z (Some z'));;
  CP' ← lift (matmul (C s) P_proj);
  KCP ← lift (matmul K CP');
  P' ← lift (tsub P_proj KCP);
  modify (set_P (Some P')).

(** The local lists [zs], [pred_xs] and [exs] of [inference]. *)
Definition locals : Type := list tensor * list tensor * list tensor.

(** The first two statements of [inference] after the empty lists. *)
Definition reset : action t unit :=
  s ← get;
  modify (set_z (Some (zeros (latent_size s) 1)));;
  modify (set_P (Some (eye (latent_size s)))).

(** The body of the loop over the timesteps. *)
Definition step (inputs controls : tensor) (acc : locals) (l : nat)
  : action t locals :=
  let '(zs, pred_xs, exs) := acc in
  modify (set_x (Some (column l inputs)));;
  modify (set_u (Some (column l controls)));;
  '(z_proj, P_proj) ← projection;
  correction z_proj P_proj;;
  s ← get;
  zv ← read (z s);
  pred_x ← lift (matmul (C s) z_proj);
  xv ← read (x s);
  e ← lift (tsub xv pred_x);
  mret (zs ++ [zv], pred_xs ++ [pred_x], exs ++ [e]).

(** What follows the loop. *)
Definition collect (acc : locals) : action t (tensor * tensor) :=
  let '(zs, pred_xs, exs) := acc in
  pred_xs' ← lift (cat_cols pred_xs);
  exs' ← lift (cat_cols exs);
  modify (set_exs (Some exs'));;
  zs' ← lift (cat_cols zs);
  mret (zs', pred_xs').

(** The state and the local lists after the first [l] timesteps. *)
Definition run_upto (inputs controls : tensor) (l : nat) : action t locals :=
  reset;;
  fold_each (step inputs controls) ([], [], []) (seq 0 l).

Definition inference (inputs controls : tensor) : action t (tensor * tensor) :=
  acc ← run_upto inputs controls (ncols inputs);
  collect acc.

(** The parameters of the filter, which no method assigns. *)
Definition same_params (s s' : t) : Prop :=
  A s' = A s /\ B s' = B s /\ C s' = C s /\ Q s' = Q s /\ R' s' = R' s /\
  latent_size s' = latent_size s.

(** The number of rows of a corrected mean, from the shapes of the
    parameters alone. *)
Definition rows_z (s : t) : option nat :=
  a ← bdim (nrows (A s)) (nrows (B s));
  b ← bdim (nrows (A s)) (nrows (Q s));
  bdim a b.

End KalmanFilter.

(* ------------------------------------------------------------------ *)
(** ** [class NeuralKalmanFilter] *)
(* ------------------------------------------------------------------ *)

Module NeuralKalmanFilter.

(** The attributes of the object.  [Wr], [Wout] and [z] are mutated in
    place and [prev_z] is a clone of [z]: these, and [Win] with them, are
    locations of the store.  [x] and [u] are slices that are only read,
    and [ez], [pred_x] and [ex] are assigned whole: these hold values. *)
Record t : Type := Build {
  Wr : loc;
  Win : loc;
  Wout : loc;
  latent_size : nat;
  dynamic_inf : bool;
  ez : option tensor;
  pred_x : option tensor;
  ex : option tensor;
  x : option tensor;
  u : option tensor;
  prev_z : option loc;
  z : option loc;
  nonlin : nonlinearity
}.

Definition set_ez (v : option tensor) (o : t) : t :=
  Build (Wr o) (Win o) (Wout o) (latent_size o) (dynamic_inf o)
    v (pred_x o) (ex o) (x o) (u o) (prev_z o) (z o) (nonlin o).
Definition set_pred_x (v : option tensor) (o : t) : t :=
  Build (Wr o) (Win o) (Wout o) (latent_size o) (dynamic_inf o)
    (ez o) v (ex o) (x o) (u o) (prev_z o) (z o) (nonlin o).
Definition set_ex (v : option tensor) (o : t) : t :=
  Build (Wr o) (Win o) (Wout o) (latent_size o) (dynamic_inf o)
    (ez o) (pred_x o) v (x o) (u o) (prev_z o) (z o) (nonlin o).
Definition set_x (v : option tensor) (o : t) : t :=
  Build (Wr o) (Win o) (Wout o) (latent_size o) (dynamic_inf o)
    (ez o) (pred_x o) (ex o) v (u o) (prev_z o) (z o) (nonlin o).
Definition set_u (v : option tensor) (o : t) : t :=
  Build (Wr o) (Win o) (Wout o) (latent_size o) (dynamic_inf o)
    (ez o) (pred_x o) (ex o) (x o) v (prev_z o) (z o) (nonlin o).
Definition set_prev_z (v : option loc) (o : t) : t :=
  Build (Wr o) (Win o) (Wout o) (latent_size o) (dynamic_inf o)
    (ez o) (pred_x o) (ex o) (x o) (u o) v (z o) (nonlin o).
Definition set_z (v : option loc) (o : t) : t :=
  Build (Wr o) (Win o) (Wout o) (latent_size o) (dynamic_inf o)
    (ez o) (pred_x o) (ex o) (x o) (u o) (prev_z o) v (nonlin o).

(** [__init__]: the three weights are clones of the arguments, and the
    name of the nonlinearity is looked up last. *)
Definition init (A B C : tensor) (latent_size : nat) (dynamic_inf : bool)
    (nonlin : string) : action heap t :=
  Wr ← new_tensor A;
  Win ← new_tensor B;
  Wout ← new_tensor C;
  nl ← lift (select_nonlin nonlin);
  mret (Build Wr Win Wout latent_size dynamic_inf
          None None None None None None None nl).

Definition update_nodes (inf_lr : R) : action (world t) unit :=
  o ← get_self;
  zl ← read (z o);
  zv ← load zl;
  Wrv ← load (Wr o);
  basis ← (if dynamic_inf o then mret zv
           else pl ← read (prev_z o); load pl);
  a ← lift (matmul Wrv (activate (nonlin o) basis));
  d ← lift (tsub zv a);
  Winv ← load (Win o);
  uv ← read (u o);
  b ← lift (matmul Winv (activate (nonlin o) uv));
  ezv ← lift (tsub d b);
  set_self (set_ez (Some ezv));;
  Woutv ← load (Wout o);
  p ← lift (matmul Woutv (activate (nonlin o) zv));
  set_self (set_pred_x (Some p));;
  xv ← read (x o);
  exv ← lift (tsub xv p);
  set_self (set_ex (Some exv));;
  back ← lift (matmul (transpose Woutv) exv);
  g ← lift (tmul (deriv (nonlin o) zv) back);
  d1 ← lift (tsub ezv g);
  delta_z ← lift (tadd d1 (scale 0 (tmap sgn zv)));
  z' ← lift (inplace Rminus zv (scale inf_lr delta_z));
  store zl z'.

Definition update_transition (learn_lr : R) : action (world t) unit :=
  o ← get_self;
  ezv ← read (ez o);
  pl ← read (prev_z o);
  pv ← load pl;
  delta_Wr ← lift (matmul ezv (transpose (activate (nonlin o) pv)));
  Wrv ← load (Wr o);
  Wr' ← lift (inplace Rplus Wrv (scale learn_lr delta_Wr));
  store (Wr o) Wr'.

Definition update_emission (learn_lr : R) : action (world t) unit :=
  o ← get_self;
  exv ← read (ex o);
  zl ← read (z o);
  zv ← load zl;
  delta_Wout ← lift (matmul exv (transpose (activate (nonlin o) zv)));
  Woutv ← load (Wout o);
  Wout' ← lift (inplace Rplus Woutv (scale learn_lr delta_Wout));
  store (Wout o) Wout'.

(** [self.z = torch.zeros((self.latent_size, 1))] *)
Definition init_z : action (world t) unit :=
  o ← get_self;
  zl ← alloc (zeros (latent_size o) 1);
  set_self (set_z (Some zl)).

(** The first three statements of a timestep, in [predict] and in [train]:
    the slices [x] and [u], and [prev_z] as a clone of [z]. *)
Definition begin_step (inputs controls : tensor) (l : nat) : action (world t) unit :=
  set_self (set_x (Some (column l inputs)));;
  set_self (set_u (Some (column l controls)));;
  o ← get_self;
  zl ← read (z o);
  zv ← load zl;
  pl ← alloc zv;
  set_self (set_prev_z (Some pl)).

(** The projected latent state that [predict] appends to [z_projs]. *)
Definition project_latent : action (world t) tensor :=
  o ← get_self;
  Wrv ← load (Wr o);
  zl ← read (z o);
  zv ← load zl;
  a ← lift (matmul Wrv (activate (nonlin o) zv));
  Winv ← load (Win o);
  uv ← read (u o);
  b ← lift (matmul Winv (activate (nonlin o) uv));
  lift (tadd a b).

(** The branch [inf_iters == 0] of [predict]. *)
Definition equilibrium : action (world t) unit :=
  o ← get_self;
  Woutv ← load (Wout o);
  WtW ← lift (matmul (transpose Woutv) Woutv);
  G ← lift (tadd (eye (latent_size o)) WtW);
  temp1 ← lift (inv G);
  xv ← read (x o);
  Wtx ← lift (matmul (transpose Woutv) xv);
  Wrv ← load (Wr o);
  pl ← read (prev_z o);
  pv ← load pl;
  Wrp ← lift (matmul Wrv pv);
  t1 ← lift (tadd Wtx Wrp);
  Winv ← load (Win o);
  uv ← read (u o);
  Wiu ← lift (matmul Winv uv);
  temp2 ← lift (tadd t1 Wiu);
  z' ← lift (matmul temp1 temp2);
  zl ← alloc z';
  set_self (set_z (Some zl)).

(** The inference of a timestep of [predict]. *)
Definition infer (inf_iters : nat) (inf_lr : R) : action (world t) unit :=
  if (inf_iters =? 0)%nat then equilibrium
  else repeat_n inf_iters (update_nodes inf_lr).

(** The body of the loop of [predict], on the local lists [zs] and
    [z_projs]. *)
Definition predict_step (inputs controls : tensor) (inf_iters : nat) (inf_lr : R)
    (acc : list tensor * list tensor) (l : nat)
  : action (world t) (list tensor * list tensor) :=
  begin_step inputs controls l;;
  z_proj ← project_latent;
  infer inf_iters inf_lr;;
  o ← get_self;
  zl ← read (z o);
  zv ← load zl;
  mret (acc.1 ++ [zv], acc.2 ++ [z_proj]).

(** [predict] up to the end of timestep [l - 1]. *)
Definition predict_upto (inputs controls : tensor) (inf_iters : nat) (inf_lr : R)
    (l : nat) : action (world t) (list tensor * list tensor) :=
  init_z;;
  fold_each (predict_step inputs controls inf_iters inf_lr) ([], []) (seq 0 l).

Definition predict (inputs controls : tensor) (inf_iters : nat) (inf_lr : R)
  : action (world t) (tensor * tensor) :=
  acc ← predict_upto inputs controls inf_iters inf_lr (ncols inputs);
  zs ← lift (cat_cols acc.1);
  z_projs ← lift (cat_cols acc.2);
  o ← get_self;
  Woutv ← load (Wout o);
  pred_xs ← lift (matmul Woutv (activate (nonlin o) z_projs));
  mret (zs, pred_xs).

(** The two learning updates of a timestep of [train]. *)
Definition learn (learn_lr : R) : action (world t) unit :=
  update_transition learn_lr;;
  update_emission learn_lr.

(** The body of the inner loop of [train]. *)
Definition train_step (inputs controls : tensor) (inf_iters : nat)
    (inf_lr learn_lr : R) (l : nat) : action (world t) unit :=
  begin_step inputs controls l;;
  repeat_n inf_iters (update_nodes inf_lr);;
  learn learn_lr.

(** One pass of [train] over the timesteps [ls]. *)
Definition train_pass (inputs controls : tensor) (inf_iters : nat)
    (inf_lr learn_lr : R) (ls : list nat) : action (world t) unit :=
  init_z;;
  for_each (train_step inputs controls inf_iters inf_lr learn_lr) ls.

Definition train (inputs controls : tensor) (inf_iters : nat) (inf_lr : R)
    (learn_iters : nat) (learn_lr : R) : action (world t) unit :=
  repeat_n learn_iters
    (train_pass inputs controls inf_iters inf_lr learn_lr (seq 0 (ncols inputs))).

(** [train] up to the end of timestep [l - 1] of its pass [i]. *)
Definition train_upto (inputs controls : tensor) (inf_iters : nat)
    (inf_lr learn_lr : R) (i l : nat) : action (world t) unit :=
  repeat_n i
    (train_pass inputs controls inf_iters inf_lr learn_lr (seq 0 (ncols inputs)));;
  train_pass inputs controls inf_iters inf_lr learn_lr (seq 0 l).

(** A timestep of [predict] cut after [k] rounds of its inner loop, and
    the same for [train]. *)
Definition predict_step_upto (inputs controls : tensor) (inf_lr : R) (l k : nat)
  : action (world t) unit :=
  begin_step inputs controls l;;
  project_latent;;
  repeat_n k (update_nodes inf_lr).

Definition train_step_upto (inputs controls : tensor) (inf_lr : R) (l k : nat)
  : action (world t) unit :=
  begin_step inputs controls l;;
  repeat_n k (update_nodes inf_lr).

(** The values of the tensors that the object names. *)
Definition z_val (w : world t) : option tensor := deref (mem w) (z (self w)).
Definition prev_z_val (w : world t) : option tensor :=
  deref (mem w) (prev_z (self w)).
Definition Wr_val (w : world t) : option tensor := mem w !! Wr (self w).
Definition Win_val (w : world t) : option tensor := mem w !! Win (self w).
Definition Wout_val (w : world t) : option tensor := mem w !! Wout (self w).

(** A well-formed object: the three weights are allocated tensors of
    their own, as [__init__] clones them, and [z] and [prev_z], once
    assigned, are allocated tensors apart from the weights and from each
    other. *)
Definition wf (w : world t) : Prop :=
  let o := self w in
  is_Some (mem w !! Wr o) /\ is_Some (mem w !! Win o) /\
  is_Some (mem w !! Wout o) /\
  Wr o <> Win o /\ Wr o <> Wout o /\ Win o <> Wout o /\
  (forall l, z o = Some l ->
     is_Some (mem w !! l) /\ l <> Wr o /\ l <> Win o /\ l <> Wout o) /\
  (forall l, prev_z o = Some l ->
     is_Some (mem w !! l) /\ l <> Wr o /\ l <> Win o /\ l <> Wout o /\
     z o <> Some l).

(** Two objects that name the same tensors and have the same
    configuration: they differ in [ez], [pred_x], [ex], [x], [u] at most. *)
Definition same_names (o o' : t) : Prop :=
  Wr o' = Wr o /\ Win o' = Win o /\ Wout o' = Wout o /\
  latent_size o' = latent_size o /\ dynamic_inf o' = dynamic_inf o /\
  nonlin o' = nonlin o /\ z o' = z o /\ prev_z o' = prev_z o.

(** What no method assigns after construction. *)
Definition same_config (w w' : world t) : Prop :=
  Wr (self w') = Wr (self w) /\ Win (self w') = Win (self w) /\
  Wout (self w') = Wout (self w) /\
  latent_size (self w') = latent_size (self w) /\
  dynamic_inf (self w') = dynamic_inf (self w) /\
  nonlin (self w') = nonlin (self w).

(** The three weight matrices are the same tensors with the same values. *)
Definition same_weights (w w' : world t) : Prop :=
  same_config w w' /\
  Wr_val w' = Wr_val w /\ Win_val w' = Win_val w /\ Wout_val w' = Wout_val w.

(** [prev_z] names the same tensor with the same value. *)
Definition same_prev_z (w w' : world t) : Prop :=
  same_config w w' /\
  prev_z (self w') = prev_z (self w) /\ prev_z_val w' = prev_z_val w.

(** [z] names the same tensor with the same value. *)
Definition same_z (w w' : world t) : Prop :=
  same_config w w' /\
  z (self w') = z (self w) /\ z_val w' = z_val w.

(** An action that keeps a well-formed object well-formed, its latent
    estimate assigned once it is, and [P] between the states before and
    after, whether it returns or raises. *)
Definition keeps {A} (P : world t -> world t -> Prop) (c : action (world t) A)
  : Prop :=
  forall w, wf w ->
    wf (c w).1 /\ (is_Some (z (self w)) -> is_Some (z (self (c w).1))) /\
    P w (c w).1.

End NeuralKalmanFilter.

(* ------------------------------------------------------------------ *)
(** ** [class TemporalPC] *)
(* ------------------------------------------------------------------ *)

Module TemporalPC.

(** The attributes of the object.  [Win], [Wr] and [Wout] are the weight
    matrices of the three [nn.Linear] layers, one row per output feature;
    no method of the class assigns them.  [z] is mutated in place and is
    a location of the store, as are the tensors [x], [u] and [prev_z]
    that the caller passes to the methods. *)
Record t : Type := Build {
  hidden_size : nat;
  Win : tensor;
  Wr : tensor;
  Wout : tensor;
  hidden_loss : option R;
  obs_loss : option R;
  z : option loc;
  nonlin : nonlinearity
}.

Definition set_hidden_loss (v : option R) (o : t) : t :=
  Build (hidden_size o) (Win o) (Wr o) (Wout o) v (obs_loss o) (z o) (nonlin o).
Definition set_obs_loss (v : option R) (o : t) : t :=
  Build (hidden_size o) (Win o) (Wr o) (Wout o) (hidden_loss o) v (z o) (nonlin o).
Definition set_z (v : option loc) (o : t) : t :=
  Build (hidden_size o) (Win o) (Wr o) (Wout o) (hidden_loss o) (obs_loss o) v
    (nonlin o).

(** [__init__]: [nn.Linear] draws the initial weights at random; the
    draws are the arguments [Win], [Wr] and [Wout] here.  The name of the
    nonlinearity is looked up last. *)
Definition init (control_size hidden_size output_size : nat) (nonlin : string)
    (Win Wr Wout : tensor) : outcome t :=
  nl ← select_nonlin nonlin;
  Ok (Build hidden_size Win Wr Wout None None None nl).

(** A layer [nn.Linear(.., bias=False)] with weight [W], applied to the
    rows of [v]. *)
Definition linear (W v : tensor) : outcome tensor := matmul v (transpose W).

Definition forward (o : t) (u prev_z : tensor) : outcome (tensor * tensor) :=
  a ← linear (Win o) (activate (nonlin o) u);
  b ← linear (Wr o) (activate (nonlin o) prev_z);
  pred_z ← tadd a b;
  pred_x ← linear (Wout o) (activate (nonlin o) pred_z);
  Ok (pred_z, pred_x).

Definition update_errs (x u prev_z : loc) : action (world t) (tensor * tensor) :=
  o ← get_self;
  uv ← load u;
  pv ← load prev_z;
  '(pred_z, _) ← lift (forward o uv pv);
  zl ← read (z o);
  zv ← load zl;
  pred_x ← lift (linear (Wout o) (activate (nonlin o) zv));
  err_z ← lift (tsub zv pred_z);
  xv ← load x;
  err_x ← lift (tsub xv pred_x);
  mret (err_z, err_x).

Definition update_nodes (x u prev_z : loc) (inf_lr : R) (update_x : bool)
  : action (world t) unit :=
  '(err_z, err_x) ← update_errs x u prev_z;
  o ← get_self;
  zl ← read (z o);
  zv ← load zl;
  back ← lift (matmul err_x (Wout o));
  g ← lift (tmul (deriv (nonlin o) zv) back);
  delta_z ← lift (tsub err_z g);
  z' ← lift (inplace Rminus zv (scale inf_lr delta_z));
  store zl z';;
  if update_x then
    xv ← load x;
    x' ← lift (inplace Rminus xv (scale inf_lr err_x));
    store x x'
  else mret tt.

(** [self.z, _ = self.forward(u, prev_z)] *)
Definition init_z (u prev_z : loc) : action (world t) unit :=
  o ← get_self;
  uv ← load u;
  pv ← load prev_z;
  '(pred_z, _) ← lift (forward o uv pv);
  zl ← alloc pred_z;
  set_self (set_z (Some zl)).

Definition inference (inf_iters : nat) (inf_lr : R) (x u prev_z : loc)
    (update_x : bool) : action (world t) unit :=
  init_z u prev_z;;
  repeat_n inf_iters (update_nodes x u prev_z inf_lr update_x).

Definition update_grads (x u prev_z : loc) : action (world t) R :=
  '(err_z, err_x) ← update_errs x u prev_z;
  set_self (set_hidden_loss (Some (tsum (tsquare err_z))));;
  set_self (set_obs_loss (Some (tsum (tsquare err_x))));;
  mret (tsum (tsquare err_z) + tsum (tsquare err_x)).

(** The bodies of [update_errs] and of [update_grads] on the values of the
    tensors that they read from the store. *)
Definition errs_of (o : t) (zv xv uv pv : tensor) : outcome (tensor * tensor) :=
  '(pred_z, _) ← forward o uv pv;
  pred_x ← linear (Wout o) (activate (nonlin o) zv);
  err_z ← tsub zv pred_z;
  err_x ← tsub xv pred_x;
  Ok (err_z, err_x).

Definition energy_of (o : t) (zv xv uv pv : tensor) : outcome R :=
  '(err_z, err_x) ← errs_of o zv xv uv pv;
  Ok (tsum (tsquare err_z) + tsum (tsquare err_x)).

(** The value of the latent estimate. *)
Definition z_val (w : world t) : option tensor := deref (mem w) (z (self w)).

(** The tensor [x] is allocated and is not the tensor of [z]. *)
Definition apart (x : loc) (w : world t) : Prop :=
  is_Some (mem w !! x) /\ z (self w) <> Some x.

End TemporalPC.

(** *** The closed form as the spec words it (4.3) *)

Module CodingSpec.

(** The equilibrium of the linear case:
    [z = (I + Wout^T Wout)^-1 (Wout^T x + Wr prev_z + Win u)]. *)
Definition closed_form (Wr Win Wout : tensor) (n : nat) (x u prev_z : tensor)
  : outcome tensor :=
  WtW ← matmul (transpose Wout) Wout;
  G ← tadd (eye n) WtW;
  Gi ← inv G;
  Wtx ← matmul (transpose Wout) x;
  Wrp ← matmul Wr prev_z;
  t1 ← tadd Wtx Wrp;
  Wiu ← matmul Win u;
  rhs ← tadd t1 Wiu;
  matmul Gi rhs.

(** The prediction of the latent state from the previous estimate,
    [Wr nonlin(z) + Win nonlin(u)]. *)
Definition projected (nl : nonlinearity) (Wr Win z u : tensor) : outcome tensor :=
  a ← matmul Wr (activate nl z);
  b ← matmul Win (activate nl u);
  tadd a b.

End CodingSpec.

(** *** The recursion of the filter as the spec words it (4.2) *)

Module FilterSpec.

(** Projection: [z_proj = A z + B u] and [P_proj = A P A^T + Q]. *)
Definition project (A B Q z P u : tensor) : outcome (tensor * tensor) :=
  Az ← matmul A z;
  Bu ← matmul B u;
  z_proj ← tadd Az Bu;
  PAt ← matmul P (transpose A);
  APAt ← matmul A PAt;
  P_proj ← tadd APAt Q;
  Ok (z_proj, P_proj).

(** The innovation covariance [C P_proj C^T + R]. *)
Definition innovation (C R' P_proj : tensor) : outcome tensor :=
  CP ← matmul C P_proj;
  CPCt ← matmul CP (transpose C);
  tadd CPCt R'.

(** The gain [K = P_proj C^T (C P_proj C^T + R)^-1]. *)
Definition gain (C R' P_proj : tensor) : outcome tensor :=
  PCt ← matmul P_proj (transpose C);
  S ← innovation C R' P_proj;
  Si ← inv S;
  matmul PCt Si.

(** Correction: [z = z_proj + K (x - C z_proj)] and
    [P = P_proj - K C P_proj]. *)
Definition correct (C R' z_proj P_proj x : tensor) : outcome (tensor * tensor) :=
  K ← gain C R' P_proj;
  Cz ← matmul C z_proj;
  e ← tsub x Cz;
  Ke ← matmul K e;
  z' ← tadd z_proj Ke;
  CP ← matmul C P_proj;
  KCP ← matmul K CP;
  P' ← tsub P_proj KCP;
  Ok (z', P').

(** One timestep: the corrected mean and covariance, the predicted
    observation [C z_proj] made before the correction, and the prediction
    error [x - C z_proj]. *)
Definition timestep (A B C Q R' : tensor) (zP : tensor * tensor) (x u : tensor)
  : outcome (tensor * tensor * tensor * tensor) :=
  '(z_proj, P_proj) ← project A B Q zP.1 zP.2 u;
  '(z', P') ← correct C R' z_proj P_proj x;
  pred_x ← matmul C z_proj;
  e ← tsub x pred_x;
  Ok (z', P', pred_x, e).

(** The timesteps in order, from the mean and covariance [zP]: the
    corrected means, the predicted observations and the prediction
    errors, one per timestep, and the last mean and covariance. *)
Fixpoint run (A B C Q R' : tensor) (zP : tensor * tensor)
    (obs : list (tensor * tensor))
  : outcome (list tensor * list tensor * list tensor * (tensor * tensor)) :=
  match obs with
  | [] => Ok ([], [], [], zP)
  | (x, u) :: obs' =>
      '(z', P', pred_x, e) ← timestep A B C Q R' zP x u;
      '(zs, pred_xs, es, zP') ← run A B C Q R' (z', P') obs';
      Ok (z' :: zs, pred_x :: pred_xs, e :: es, zP')
  end.

(** The pairs of observation and control of the timesteps in [ls]. *)
Definition timesteps (inputs controls : tensor) (ls : list nat)
  : list (tensor * tensor) :=
  map (fun l => (column l inputs, column l controls)) ls.

End FilterSpec.

(** ** Curves of tensors, for the descent property *)

(** A tensor whose entries depend on a step size [t]. *)
Definition curves : Type := list (list (R -> R)).

Definition evalv (fs : list (R -> R)) (t : R) : list R := map (fun f => f t) fs.
Definition evalT (F : curves) (t : R) : tensor := map (fun fs => evalv fs t) F.

(** [f] has the derivative [d] at 0; entry by entry for lists and tensors. *)
Definition d0 (f : R -> R) (d : R) : Prop := derivable_pt_lim f 0 d.
Definition dv (fs : list (R -> R)) (ds : list R) : Prop := Forall2 d0 fs ds.
Definition dT (F : curves) (D : tensor) : Prop := Forall2 dv F D.

(** The constant curve, the line [M - t * G], and the operations of the
    solver entry by entry. *)
Definition cconst (M : tensor) : curves := map (map (fun v _ => v)) M.
Definition cline (M G : tensor) : curves :=
  zip_with (zip_with (fun v g t => v - t * g)) M G.
Definition cminus (F G : curves) : curves :=
  zip_with (zip_with (fun f g t => f t - g t)) F G.
Definition cmap (phi : R -> R) (F : curves) : curves :=
  map (map (fun f t => phi (f t))) F.

(** [v W^T]: the rows of [v] against the rows of [W]. *)
Definition rowsdot (v W : tensor) : tensor := map (fun vr => map (dot vr) W) v.
Definition crowsdot (F : curves) (W : tensor) : curves :=
  map (fun fs => map (fun w t => dot (evalv fs t) w) W) F.

(** The sum of the products of corresponding entries. *)
Definition frob (A B : tensor) : R := tsum (zipT Rmult A B).

(** [M] has [r] rows of [c] entries each. *)
Definition shape (r c : nat) (M : tensor) : Prop :=
  length M = r /\ Forall (fun row => length row = c) M.

(** The errors, the energy and the direction of [update_nodes] on tensors
    of fitting shapes, where no operation can raise: [P] is the predicted
    latent state [Win nonlin(u) + Wr nonlin(prev_z)]. *)
Definition err_x_at (o : TemporalPC.t) (z x : tensor) : tensor :=
  zipT Rminus x (rowsdot (activate (TemporalPC.nonlin o) z) (TemporalPC.Wout o)).

Definition energy_at (o : TemporalPC.t) (P z x : tensor) : R :=
  tsum (tsquare (zipT Rminus z P)) + tsum (tsquare (err_x_at o z x)).

Definition direction (o : TemporalPC.t) (P z x : tensor) : tensor :=
  zipT Rminus (zipT Rminus z P)
    (zipT Rmult (deriv (TemporalPC.nonlin o) z) (mmul (err_x_at o z x) (TemporalPC.Wout o))).

(** The latent state and the observation after a step of size [t]. *)
Definition z_after (o : TemporalPC.t) (P z x : tensor) (t : R) : tensor :=
  zipT Rminus z (scale t (direction o P z x)).

Definition x_after (o : TemporalPC.t) (z x : tensor) (update_x : bool) (t : R) : tensor :=
  if update_x then zipT Rminus x (scale t (err_x_at o z x)) else x.

(** The latent state, the observation and the two errors along the step, as
    curves in the step size, and the slope of the energy at step size 0. *)
Definition latent_curve (o : TemporalPC.t) (P z x : tensor) : curves :=
  cline z (direction o P z x).
Definition ez_curve (o : TemporalPC.t) (P z x : tensor) : curves :=
  cminus (latent_curve o P z x) (cconst P).
Definition obs_curve (o : TemporalPC.t) (z x : tensor) (update_x : bool) : curves :=
  if update_x then cline x (err_x_at o z x) else cconst x.
Definition ex_curve (o : TemporalPC.t) (P z x : tensor) (update_x : bool) : curves :=
  cminus (obs_curve o z x update_x)
    (crowsdot (cmap (act (TemporalPC.nonlin o)) (latent_curve o P z x))
       (TemporalPC.Wout o)).
Definition slope (o : TemporalPC.t) (P z x : tensor) (update_x : bool) : R :=
  - 2 * frob (direction o P z x) (direction o P z x)
  - (if update_x then 2 * frob (err_x_at o z x) (err_x_at o z x) else 0).

(** The predicted latent state [Win nonlin(u) + Wr nonlin(prev_z)]. *)
Definition pred_latent (o : TemporalPC.t) (u prev_z : tensor) : tensor :=
  zipT Rplus (rowsdot (activate (TemporalPC.nonlin o) u) (TemporalPC.Win o))
    (rowsdot (activate (TemporalPC.nonlin o) prev_z) (TemporalPC.Wr o)).

(** *** The errors and the energy as the spec words them (4.4) *)

Module EnergySpec.

(** The tensors of [TemporalPC] hold one sample per row, so that the
    product [W v] of a weight with every sample [v] is [rowsdot V W]: its
    entry at row [i] and column [j] is the row [j] of [W] against the
    sample [i] of [V]. *)

(** [ez = z - (Win nonlin(u) + Wr nonlin(prev_z))] *)
Definition latent_error (nl : nonlinearity) (Win Wr z u prev_z : tensor) : tensor :=
  zipT Rminus z
    (zipT Rplus (rowsdot (activate nl u) Win) (rowsdot (activate nl prev_z) Wr)).

(** [ex = x - Wout nonlin(z)] *)
Definition obs_error (nl : nonlinearity) (Wout z x : tensor) : tensor :=
  zipT Rminus x (rowsdot (activate nl z) Wout).

(** The sum of the squared entries of [ez] plus that of [ex]. *)
Definition energy (nl : nonlinearity) (Win Wr Wout z x u prev_z : tensor) : R :=
  tsum (tsquare (latent_error nl Win Wr z u prev_z))
  + tsum (tsquare (obs_error nl Wout z x)).

End EnergySpec.

(** ** Concrete objects *)

(** A filter on a one-dimensional state, and one whose emission and
    observation noise are both zero. *)
Definition kf_demo : KalmanFilter.t :=
  KalmanFilter.init [[1]] [[0]] [[1]] [[0]] [[1]] 1.

(** Two timesteps of a scalar observation, and of a scalar control. *)
Definition two_steps : tensor := [[1; 2]].
Definition two_controls : tensor := [[0; 0]].

(** The iterative solver that [__init__] makes from [A = B = C = [[1]]] in
    an empty store. *)
Definition nkf_demo : world NeuralKalmanFilter.t :=
  World (<[3%positive := [[1]]]> (<[2%positive := [[1]]]> (<[1%positive := [[1]]]> ∅)))
    (NeuralKalmanFilter.Build 1%positive 2%positive 3%positive 1 false
       None None None None None None None Linear).

(** A differentiable solver, with the caller's [x], [u] and [prev_z] and
    its own [z] at four locations of the store. *)
Definition at_x : loc := 1%positive.
Definition at_u : loc := 2%positive.
Definition at_prev_z : loc := 3%positive.
Definition at_z : loc := 4%positive.

Definition pc_demo : world TemporalPC.t :=
  World (<[at_z := [[0]]]> (<[at_prev_z := [[1]]]>
           (<[at_u := [[1]]]> (<[at_x := [[1]]]> ∅))))
    (TemporalPC.Build 1 [[1]] [[1]] [[1]] None None (Some at_z) Tanh).

(** The same with the linear nonlinearity, an observation [[[0]]] and the
    latent estimate [[[1]]], where the update direction of the estimate
    is zero: [ez = 1 - 2] and [ex = 0 - 1]. *)
Definition pc_at_rest : world TemporalPC.t :=
  World (<[at_z := [[1]]]> (<[at_prev_z := [[1]]]>
           (<[at_u := [[1]]]> (<[at_x := [[0]]]> ∅))))
    (TemporalPC.Build 1 [[1]] [[1]] [[1]] None None (Some at_z) Linear).

(** ** Frames of the two predictive-coding solvers *)

(** The object of [w] names [wr], [wi] and [wo] as its weights, and the
    store of [w] holds every tensor of the store [m0], with the value it
    has in [m0] unless [T] names it. *)
Definition nkf_frame (T : loc -> Prop) (m0 : heap) (wr wi wo : loc)
    (w : world NeuralKalmanFilter.t) : Prop :=
  NeuralKalmanFilter.Wr (self w) = wr /\ NeuralKalmanFilter.Win (self w) = wi /\
  NeuralKalmanFilter.Wout (self w) = wo /\
  (forall l, is_Some (m0 !! l) -> is_Some (mem w !! l)) /\
  (forall l, is_Some (m0 !! l) -> ~ T l -> mem w !! l = m0 !! l).

(** The same, with a latent estimate that is no tensor of [m0]. *)
Definition nkf_frame_z (T : loc -> Prop) (m0 : heap) (wr wi wo : loc)
    (w : world NeuralKalmanFilter.t) : Prop :=
  nkf_frame T m0 wr wi wo w /\
  (forall l, NeuralKalmanFilter.z (self w) = Some l -> m0 !! l = None).

(** The weights of [w] are those of [o0], and the store of [w] holds every
    tensor of the store [m0], with the value it has in [m0] unless it is
    [x] and [update_x] is set. *)
Definition pc_frame (x : loc) (update_x : bool) (m0 : heap) (o0 : TemporalPC.t)
    (w : world TemporalPC.t) : Prop :=
  TemporalPC.Win (self w) = TemporalPC.Win o0 /\
  TemporalPC.Wr (self w) = TemporalPC.Wr o0 /\
  TemporalPC.Wout (self w) = TemporalPC.Wout o0 /\
  (forall l, is_Some (m0 !! l) -> is_Some (mem w !! l)) /\
  (forall l, is_Some (m0 !! l) -> (update_x = true -> l <> x) ->
             mem w !! l = m0 !! l).

Definition pc_frame_z (x : loc) (update_x : bool) (m0 : heap) (o0 : TemporalPC.t)
    (w : world TemporalPC.t) : Prop :=
  pc_frame x update_x m0 o0 w /\
  (forall l, TemporalPC.z (self w) = Some l -> m0 !! l = None).

(** ** A round of [NeuralKalmanFilter.update_nodes] on fitting shapes *)

(** What [update_nodes] computes when every product and every elementwise
    operation is between matrices of fitting shapes, so that no operation
    raises or broadcasts: [basis] is [z] with [dynamic_inf] and [prev_z]
    without. *)
Module NodeSpec.

(** [ez = z - Wr nonlin(basis) - Win nonlin(u)] *)
Definition latent_error (nl : nonlinearity) (Wr Win z basis u : tensor) : tensor :=
  zipT Rminus (zipT Rminus z (mmul Wr (activate nl basis)))
    (mmul Win (activate nl u)).

(** [ex = x - Wout nonlin(z)] *)
Definition obs_error (nl : nonlinearity) (Wout z x : tensor) : tensor :=
  zipT Rminus x (mmul Wout (activate nl z)).

(** [delta_z = ez - nonlin.deriv(z) * (Wout^T ex)] *)
Definition delta_z (nl : nonlinearity) (Wout z ez ex : tensor) : tensor :=
  zipT Rminus ez (zipT Rmult (deriv nl z) (mmul (transpose Wout) ex)).

End NodeSpec.

(** ** Two objects with the same weights *)

(** Two well-formed objects, in stores of their own, whose weights have
    the same values and whose configuration is the same.  Nothing is asked
    of [z], [prev_z], [x], [u], [ez], [pred_x] and [ex]. *)
Definition nkf_alike (w1 w2 : world NeuralKalmanFilter.t) : Prop :=
  NeuralKalmanFilter.wf w1 /\ NeuralKalmanFilter.wf w2 /\
  NeuralKalmanFilter.Wr_val w1 = NeuralKalmanFilter.Wr_val w2 /\
  NeuralKalmanFilter.Win_val w1 = NeuralKalmanFilter.Win_val w2 /\
  NeuralKalmanFilter.Wout_val w1 = NeuralKalmanFilter.Wout_val w2 /\
  NeuralKalmanFilter.latent_size (self w1) = NeuralKalmanFilter.latent_size (self w2) /\
  NeuralKalmanFilter.dynamic_inf (self w1) = NeuralKalmanFilter.dynamic_inf (self w2) /\
  NeuralKalmanFilter.nonlin (self w1) = NeuralKalmanFilter.nonlin (self w2).

(** The same, with the latent estimates assigned and equal in value. *)
Definition nkf_alike_z (w1 w2 : world NeuralKalmanFilter.t) : Prop :=
  nkf_alike w1 w2 /\
  NeuralKalmanFilter.z_val w1 = NeuralKalmanFilter.z_val w2 /\
  is_Some (NeuralKalmanFilter.z (self w1)) /\
  is_Some (NeuralKalmanFilter.z (self w2)).

(** The same inside a timestep: [prev_z], [x] and [u] agree as well. *)
Definition nkf_alike_step (w1 w2 : world NeuralKalmanFilter.t) : Prop :=
  nkf_alike_z w1 w2 /\
  NeuralKalmanFilter.prev_z_val w1 = NeuralKalmanFilter.prev_z_val w2 /\
  NeuralKalmanFilter.x (self w1) = NeuralKalmanFilter.x (self w2) /\
  NeuralKalmanFilter.u (self w1) = NeuralKalmanFilter.u (self w2).

(** ** More concrete objects *)

(** A sequence of no timestep: one row and no column. *)
Definition no_steps : tensor := [[]].

(** A filter that an earlier call has left with a mean and a covariance. *)
Definition kf_used : KalmanFilter.t :=
  KalmanFilter.set_P (Some [[3]]) (KalmanFilter.set_z (Some [[5]]) kf_demo).

(** The iterative solver in the middle of a timestep, with its latent
    estimate at [[[0]]], and the same with the estimate at the
    equilibrium [[[1]]]. *)
Definition nkf_mid_step : world NeuralKalmanFilter.t :=
  World (<[5%positive := [[0]]]> (<[4%positive := [[0]]]> (mem nkf_demo)))
    (NeuralKalmanFilter.Build 1%positive 2%positive 3%positive 1 false
       None None None (Some [[1]]) (Some [[1]]) (Some 5%positive) (Some 4%positive)
       Linear).

Definition nkf_at_rest : world NeuralKalmanFilter.t :=
  World (<[5%positive := [[0]]]> (<[4%positive := [[1]]]> (mem nkf_demo)))
    (NeuralKalmanFilter.Build 1%positive 2%positive 3%positive 1 false
       None None None (Some [[1]]) (Some [[1]]) (Some 5%positive) (Some 4%positive)
       Linear).

(** A store with one tensor of the caller. *)
Definition callers_store : heap := <[7%positive := [[7]]]> ∅.

(* ================================================================== *)
(** * Part II: properties *)
(* ================================================================== *)

(** ** Actions *)

Lemma bind_unfold {S A B} (c : action S A) (k : A -> action S B) (s : S) :
  (c ≫= k) s = match c s with
               | (s', Ok a) => k a s'
               | (s', Raise e) => (s', Raise e)
               end.
Proof. reflexivity. Qed.

Lemma bind_Ok {S A B} (c : action S A) (k : A -> action S B) s s' a :
  c s = (s', Ok a) -> (c ≫= k) s = k a s'.
Proof. intros H. rewrite bind_unfold, H. reflexivity. Qed.

Lemma bind_Raise {S A B} (c : action S A) (k : A -> action S B) s s' e :
  c s = (s', Raise e) -> (c ≫= k) s = (s', Raise e).
Proof. intros H. rewrite bind_unfold, H. reflexivity. Qed.

Lemma bind_Ok_inv {S A B} (c : action S A) (k : A -> action S B) s s' b :
  (c ≫= k) s = (s', Ok b) ->
  exists s1 a, c s = (s1, Ok a) /\ k a s1 = (s', Ok b).
Proof.
  rewrite bind_unfold. destruct (c s) as [s1 [a|e]]; [eauto | discriminate].
Qed.

Lemma pair_Ok_inv {S A} (s s' : S) (a a' : A) :
  (s, Ok a) = (s', Ok a') -> s = s' /\ a = a'.
Proof.
  intros H. split; [exact (f_equal fst H)|].
  pose proof (f_equal snd H) as H2. cbn in H2. congruence.
Qed.

Lemma pair_Raise_Ok {S A} (s s' : S) e (a : A) : (s, Raise e) = (s', Ok a) -> False.
Proof. intros H. pose proof (f_equal snd H) as H2. discriminate H2. Qed.


(** Case analysis on the next operation that can raise. *)
Ltac step_outcome :=
  match goal with
  | |- context [match ?o with Ok _ => _ | Raise _ => _ end] =>
      lazymatch o with
      | Ok _ => fail
      | Raise _ => fail
      | context [match _ with Ok _ => _ | Raise _ => _ end] => fail
      | _ => destruct o as [[[[? ?] ?] ?]|?] eqn:? ||
             destruct o as [[[? ?] ?]|?] eqn:? ||
             destruct o as [[? ?]|?] eqn:? ||
             destruct o eqn:?
      end
  end.

Ltac unfold_action :=
  unfold mbind, action_bind, outcome_bind, modify, get, lift, read, mret,
    action_ret, outcome_ret.

Ltac merge_outcomes :=
  simplify_eq/=;
  repeat (match goal with
          | H1 : ?a = Ok _, H2 : ?a = _ |- _ => rewrite H1 in H2
          end; simplify_eq/=).

(** ** Shapes *)

Lemma nrows_mmul A B : nrows (mmul A B) = nrows A.
Proof. unfold nrows, mmul. apply length_map. Qed.

Lemma length_expand r c M : length (expand r c M) = r.
Proof.
  unfold expand. destruct (Nat.eqb_spec (length (map (expand_row c) M)) r) as [E|E].
  - exact E.
  - apply length_replicate.
Qed.

Lemma nrows_matmul A B M : matmul A B = Ok M -> nrows M = nrows A.
Proof.
  unfold matmul. destruct (forallb _ A); [|discriminate].
  intros [= <-]. apply nrows_mmul.
Qed.

Lemma nrows_elementwise f A B M :
  elementwise f A B = Ok M -> bdim (nrows A) (nrows B) = Some (nrows M).
Proof.
  unfold elementwise. destruct (bdim (nrows A) (nrows B)) as [r|]; [|discriminate].
  destruct (bdim (ncols A) (ncols B)) as [c|]; [|discriminate].
  intros [= <-]. f_equal. unfold nrows, zipT.
  rewrite length_zip_with, !length_expand. lia.
Qed.

Lemma nrows_column l M : nrows (column l M) = nrows M.
Proof. unfold nrows, column. apply length_map. Qed.

Lemma hcat_Ok n A B : nrows A = n -> nrows B = n ->
  exists M, hcat A B = Ok M /\ nrows M = n.
Proof.
  intros HA HB. unfold hcat. rewrite HA, HB, Nat.eqb_refl.
  eexists; split; [reflexivity|]. unfold nrows in *.
  rewrite length_zip_with. lia.
Qed.

(** Tensors with one number of rows can be put side by side. *)
Lemma cat_cols_Ok n Ms :
  Ms <> [] -> Forall (fun M => nrows M = n) Ms -> exists Z, cat_cols Ms = Ok Z.
Proof.
  destruct Ms as [|M Ms]; [congruence|]. intros _ H.
  apply Forall_cons in H as [HM H]. simpl.
  revert M HM. induction H as [|N Ms HN H IH]; intros M HM; simpl.
  - eauto.
  - destruct (hcat_Ok n M N HM HN) as (M' & -> & HM'). auto.
Qed.

(** ** The Kalman filter *)

Section Kalman.
Import KalmanFilter.

Lemma same_params_refl s : same_params s s.
Proof. repeat split. Qed.

Lemma same_params_trans s1 s2 s3 :
  same_params s1 s2 -> same_params s2 s3 -> same_params s1 s3.
Proof. unfold same_params. intuition congruence. Qed.

Variables inputs controls : tensor.

(** One round of the loop of [inference] is one timestep of the recursion. *)
Lemma step_correct acc l s z0 P0 :
  z s = Some z0 -> P s = Some P0 ->
  match FilterSpec.timestep (A s) (B s) (C s) (Q s) (R' s) (z0, P0)
          (column l inputs) (column l controls) with
  | Ok (z', P', pred_x, e) =>
      exists s', step inputs controls acc l s
                 = (s', Ok (acc.1.1 ++ [z'], acc.1.2 ++ [pred_x], acc.2 ++ [e]))
                 /\ z s' = Some z' /\ P s' = Some P' /\ same_params s s'
  | Raise e =>
      exists s', step inputs controls acc l s = (s', Raise e) /\ same_params s s'
  end.
Proof.
  intros Hz HP. destruct acc as [[zs ps] es].
  unfold FilterSpec.timestep, FilterSpec.project, FilterSpec.correct,
    FilterSpec.gain, FilterSpec.innovation, step, projection, correction.
  unfold_action. cbn. rewrite Hz, HP. cbn.
  repeat (step_outcome; cbn).
  all: merge_outcomes.
  all: eexists; split; [reflexivity|]; repeat split; reflexivity.
Qed.

Lemma timestep_rows s zP x u z' P' pred_x e :
  FilterSpec.timestep (A s) (B s) (C s) (Q s) (R' s) zP x u = Ok (z', P', pred_x, e) ->
  rows_z s = Some (nrows z') /\ nrows pred_x = nrows (C s) /\
  bdim (nrows x) (nrows (C s)) = Some (nrows e).
Proof.
  unfold FilterSpec.timestep, FilterSpec.project, FilterSpec.correct,
    FilterSpec.gain, FilterSpec.innovation, rows_z.
  unfold_action. cbn.
  repeat (step_outcome; cbn; try discriminate).
  intros Heq; simplify_eq/=.
  repeat match goal with
         | H : matmul _ _ = Ok _ |- _ => apply nrows_matmul in H
         | H : elementwise _ _ _ = Ok _ |- _ => apply nrows_elementwise in H
         | H : tadd _ _ = Ok _ |- _ => apply nrows_elementwise in H
         | H : tsub _ _ = Ok _ |- _ => apply nrows_elementwise in H
         end.
  repeat match goal with
         | H : nrows _ = _ |- _ => rewrite H in *
         end.
  repeat match goal with
         | H : bdim _ _ = Some _ |- _ => rewrite H; clear H
         end.
  cbn. auto.
Qed.

(** The loop over the timesteps [ls] is the recursion over them. *)
Lemma run_correct ls : forall s acc z0 P0,
  z s = Some z0 -> P s = Some P0 ->
  match FilterSpec.run (A s) (B s) (C s) (Q s) (R' s) (z0, P0)
          (FilterSpec.timesteps inputs controls ls) with
  | Ok (zs, pred_xs, es, (z', P')) =>
      exists s', fold_each (step inputs controls) acc ls s
                 = (s', Ok (acc.1.1 ++ zs, acc.1.2 ++ pred_xs, acc.2 ++ es))
                 /\ z s' = Some z' /\ P s' = Some P' /\ same_params s s'
  | Raise e =>
      exists s', fold_each (step inputs controls) acc ls s = (s', Raise e)
                 /\ same_params s s'
  end.
Proof.
  induction ls as [|l ls IH]; intros s acc z0 P0 Hz HP; simpl.
  - exists s. rewrite !app_nil_r. destruct acc as [[? ?] ?].
    repeat split; assumption.
  - pose proof (step_correct acc l s z0 P0 Hz HP) as Hstep.
    destruct (FilterSpec.timestep _ _ _ _ _ _ _ _) as [[[[z1 P1] p1] e1]|e]; cbn.
    + destruct Hstep as (s1 & Hs1 & Hz1 & HP1 & Hpar).
      specialize (IH s1 (acc.1.1 ++ [z1], acc.1.2 ++ [p1], acc.2 ++ [e1]) z1 P1 Hz1 HP1).
      pose proof Hpar as (E1 & E2 & E3 & E4 & E5 & _).
      rewrite E1, E2, E3, E4, E5 in IH.
      destruct (FilterSpec.run _ _ _ _ _ _ _) as [[[[zs ps] es] [z' P']]|e]; cbn in *.
      * destruct IH as (s' & Hs' & Hz' & HP' & Hpar').
        exists s'. rewrite (bind_Ok _ _ _ _ _ Hs1), Hs', <- !app_assoc. cbn.
        repeat split; try assumption.
        all: apply (same_params_trans _ _ _ Hpar Hpar').
      * destruct IH as (s' & Hs' & Hpar').
        exists s'. rewrite (bind_Ok _ _ _ _ _ Hs1), Hs'.
        split; [reflexivity|]. apply (same_params_trans _ _ _ Hpar Hpar').
    + destruct Hstep as (s1 & Hs1 & Hpar).
      exists s1. rewrite (bind_Raise _ _ _ _ _ Hs1). auto.
Qed.

Lemma run_rows s obs : forall zP zs pred_xs es zP',
  FilterSpec.run (A s) (B s) (C s) (Q s) (R' s) zP obs = Ok (zs, pred_xs, es, zP') ->
  Forall (fun ux => nrows ux.1 = nrows inputs) obs ->
  length zs = length obs /\
  Forall (fun M => rows_z s = Some (nrows M)) zs /\
  Forall (fun M => nrows M = nrows (C s)) pred_xs /\
  Forall (fun M => bdim (nrows inputs) (nrows (C s)) = Some (nrows M)) es /\
  length pred_xs = length obs /\ length es = length obs.
Proof.
  induction obs as [|[x u] obs IH]; intros zP zs ps es zP'; simpl.
  - intros Heq _; simplify_eq/=. repeat split; constructor.
  - destruct (FilterSpec.timestep _ _ _ _ _ _ _ _) as [[[[z1 P1] p1] e1]|e] eqn:Hstep;
      cbn; [|discriminate].
    destruct (FilterSpec.run _ _ _ _ _ _ obs) as [[[[zs1 ps1] es1] zP1]|e] eqn:Hrun;
      cbn; [|discriminate].
    intros Heq Hobs; simplify_eq/=. apply Forall_cons in Hobs as [Hx Hobs].
    apply timestep_rows in Hstep as (H1 & H2 & H3).
    change (nrows x = nrows inputs) in Hx. rewrite Hx in H3.
    destruct (IH _ _ _ _ _ Hrun Hobs) as (L1 & F1 & F2 & F3 & L2 & L3).
    simpl. repeat split; try (constructor; assumption); congruence.
Qed.

Lemma run_upto_params l s r kf :
  run_upto inputs controls l kf = (s, r) -> same_params kf s.
Proof.
  unfold run_upto, reset. unfold_action. cbn.
  set (s0 := set_P _ (set_z _ kf)).
  pose proof (run_correct (seq 0 l) s0 ([], [], []) _ _ eq_refl eq_refl) as H.
  destruct (FilterSpec.run _ _ _ _ _ _ _) as [[[[zs ps] es] [z' P']]|e].
  - destruct H as (s' & -> & _ & _ & Hpar). intros [= <- _]. exact Hpar.
  - destruct H as (s' & -> & Hpar). intros [= <- _]. exact Hpar.
Qed.

End Kalman.


Lemma inv_Ok_inverse M N : inv M = Ok N -> is_inverse (nrows M) M N.
Proof.
  unfold inv. destruct (is_shape _ _ M); [|discriminate].
  destruct (excluded_middle_informative _) as [H|H]; [|discriminate].
  intros [= <-]. apply (proj2_sig (constructive_indefinite_description _ H)).
Qed.

(** C2: on a sequence of at least one timestep, [KalmanFilter.inference]
    starts from the zero mean and the identity covariance, whatever the
    object held before, and runs the recursion of projection and correction
    over the timesteps in order.  When every timestep of the recursion is
    defined, the three concatenations exist, the call returns the corrected
    means side by side and the predicted observations [C z_proj] side by
    side, keeps the prediction errors in [exs], and leaves the last mean and
    covariance in [z] and [P]; when a timestep fails, the call fails with
    the same exception. *)
Theorem C2_inference_is_the_filter_recursion
    (kf : KalmanFilter.t) (inputs controls : tensor) :
  (1 <= ncols inputs)%nat ->
  let r := KalmanFilter.inference inputs controls kf in
  match FilterSpec.run (KalmanFilter.A kf) (KalmanFilter.B kf) (KalmanFilter.C kf)
          (KalmanFilter.Q kf) (KalmanFilter.R' kf)
          (zeros (KalmanFilter.latent_size kf) 1, eye (KalmanFilter.latent_size kf))
          (FilterSpec.timesteps inputs controls (seq 0 (ncols inputs))) with
  | Ok (zs, pred_xs, es, (z', P')) =>
      length zs = ncols inputs /\ length pred_xs = ncols inputs /\
      exists Z X E,
        cat_cols zs = Ok Z /\ cat_cols pred_xs = Ok X /\ cat_cols es = Ok E /\
        r.2 = Ok (Z, X) /\
        KalmanFilter.exs r.1 = Some E /\
        KalmanFilter.z r.1 = Some z' /\ KalmanFilter.P r.1 = Some P'
  | Raise e => r.2 = Raise e
  end.
Proof.
  intros HL r. subst r. unfold KalmanFilter.inference, KalmanFilter.run_upto,
    KalmanFilter.reset.
  unfold_action. cbn.
  set (s0 := KalmanFilter.set_P _ (KalmanFilter.set_z _ kf)).
  pose proof (run_correct inputs controls (seq 0 (ncols inputs)) s0 ([], [], [])
                _ _ eq_refl eq_refl) as H.
  change (KalmanFilter.A s0) with (KalmanFilter.A kf) in H.
  change (KalmanFilter.B s0) with (KalmanFilter.B kf) in H.
  change (KalmanFilter.C s0) with (KalmanFilter.C kf) in H.
  change (KalmanFilter.Q s0) with (KalmanFilter.Q kf) in H.
  change (KalmanFilter.R' s0) with (KalmanFilter.R' kf) in H.
  change (KalmanFilter.latent_size s0) with (KalmanFilter.latent_size kf) in H.
  destruct (FilterSpec.run _ _ _ _ _ _ _) as [[[[zs ps] es] [z' P']]|e] eqn:Hrun.
  - destruct H as (s' & -> & Hz' & HP' & Hpar). cbn.
    apply (run_rows inputs s0) in Hrun as (L1 & F1 & F2 & F3 & L2 & L3).
    2:{ unfold FilterSpec.timesteps. apply Forall_map, Forall_forall.
        intros l _. apply nrows_column. }
    unfold FilterSpec.timesteps in L1, L2, L3.
    rewrite length_map, length_seq in L1, L2, L3.
    assert (Hcat : forall (Ms : list tensor) (o : option nat),
               length Ms = ncols inputs ->
               Forall (fun M => o = Some (nrows M)) Ms ->
               exists Z, cat_cols Ms = Ok Z).
    { intros Ms o HLen HF. destruct Ms as [|M Ms]; [simpl in HLen; lia|].
      apply (cat_cols_Ok (nrows M)); [discriminate|].
      pose proof HF as HF'. apply Forall_cons in HF' as [HM _].
      eapply Forall_impl; [exact HF|]. intros N HN. cbv beta in *. congruence. }
    destruct (Hcat zs _ L1 F1) as [Z HZ].
    destruct (Hcat es _ L3 F3) as [E HE].
    destruct (Hcat ps (Some (nrows (KalmanFilter.C s0))) L2) as [X HX].
    { eapply Forall_impl; [exact F2|]. intros N HN. cbv beta in *. congruence. }
    split; [exact L1|]. split; [exact L2|].
    exists Z, X, E. rewrite HZ, HX, HE. cbn. repeat split; assumption.
  - destruct H as (s' & -> & _). reflexivity.
Qed.

(** ** The iterative predictive-coding solver *)

Section Neural.
Import NeuralKalmanFilter.

#[local] Instance same_config_preorder : PreOrder same_config.
Proof.
  split.
  - intros w. repeat split.
  - intros w1 w2 w3. unfold same_config. intuition congruence.
Qed.

#[local] Instance same_weights_preorder : PreOrder same_weights.
Proof.
  split.
  - intros w. repeat split.
  - intros w1 w2 w3 (C1 & ? & ? & ?) (C2 & ? & ? & ?).
    split; [etrans; eassumption|]. repeat split; congruence.
Qed.

#[local] Instance same_prev_z_preorder : PreOrder same_prev_z.
Proof.
  split.
  - intros w. repeat split.
  - intros w1 w2 w3 (C1 & ? & ?) (C2 & ? & ?).
    split; [etrans; eassumption|]. split; congruence.
Qed.

#[local] Instance same_z_preorder : PreOrder same_z.
Proof.
  split.
  - intros w. repeat split.
  - intros w1 w2 w3 (C1 & ? & ?) (C2 & ? & ?).
    split; [etrans; eassumption|]. split; congruence.
Qed.

Section Keeps.
Context (P : world t -> world t -> Prop) `{!PreOrder P}.

Lemma keeps_bind {A B} (c : action (world t) A) (k : A -> action (world t) B) :
  keeps P c -> (forall a, keeps P (k a)) -> keeps P (c ≫= k).
Proof.
  intros Hc Hk w Hw. rewrite bind_unfold.
  destruct (Hc w Hw) as (Hw1 & Hz1 & HP1).
  destruct (c w) as [w1 [a|e]]; cbn in *.
  - destruct (Hk a w1 Hw1) as (Hw2 & Hz2 & HP2).
    split; [exact Hw2|]. split; [auto|]. etrans; eassumption.
  - auto.
Qed.

Lemma keeps_pure {A} (c : action (world t) A) :
  (forall w, (c w).1 = w) -> keeps P c.
Proof. intros H w Hw. rewrite H. split; [exact Hw|]. split; [auto|reflexivity]. Qed.

Lemma keeps_ret {A} (a : A) : keeps P (mret a).
Proof. apply keeps_pure. reflexivity. Qed.

Lemma keeps_lift {A} (o : outcome A) : keeps P (lift o).
Proof. apply keeps_pure. reflexivity. Qed.

Lemma keeps_read {A} (o : option A) : keeps P (read o).
Proof. apply keeps_pure. intros w. destruct o; reflexivity. Qed.

Lemma keeps_get_self : keeps P get_self.
Proof. apply keeps_pure. reflexivity. Qed.

Lemma keeps_load l : keeps P (load l).
Proof. apply keeps_pure. intros w. unfold load. destruct (mem w !! l); reflexivity. Qed.

Lemma keeps_repeat_n n (c : action (world t) unit) :
  keeps P c -> keeps P (repeat_n n c).
Proof.
  intros Hc. induction n as [|n IH]; simpl.
  - apply keeps_ret.
  - apply keeps_bind; [exact Hc|]. intros _. exact IH.
Qed.

Lemma keeps_for_each {A} (body : A -> action (world t) unit) xs :
  (forall x, keeps P (body x)) -> keeps P (for_each body xs).
Proof.
  intros Hb. induction xs as [|x xs IH]; simpl.
  - apply keeps_ret.
  - apply keeps_bind; [apply Hb|]. intros _. exact IH.
Qed.

Lemma keeps_fold_each {A B} (body : B -> A -> action (world t) B) xs :
  (forall acc x, keeps P (body acc x)) -> forall acc, keeps P (fold_each body acc xs).
Proof.
  intros Hb. induction xs as [|x xs IH]; intros acc; simpl.
  - apply keeps_ret.
  - apply keeps_bind; [apply Hb|]. intros a. apply IH.
Qed.
End Keeps.

Lemma keeps_weaken {A} (P Q : world t -> world t -> Prop) (c : action (world t) A) :
  (forall w w', P w w' -> Q w w') -> keeps P c -> keeps Q c.
Proof. intros HPQ Hc w Hw. destruct (Hc w Hw) as (? & ? & ?). auto. Qed.

(** *** What one method can do to the store and to the object *)

Ltac step_any :=
  match goal with
  | |- context [match ?o with Ok _ => _ | Raise _ => _ end] =>
      lazymatch o with
      | Ok _ => fail
      | Raise _ => fail
      | context [match _ with Ok _ => _ | Raise _ => _ end] => fail
      | context [match _ with Some _ => _ | None => _ end] => fail
      | context [if _ then _ else _] => fail
      | _ => destruct o eqn:?
      end
  | |- context [match ?o with Some _ => _ | None => _ end] =>
      lazymatch o with
      | Some _ => fail
      | None => fail
      | context [match _ with Ok _ => _ | Raise _ => _ end] => fail
      | context [match _ with Some _ => _ | None => _ end] => fail
      | context [if _ then _ else _] => fail
      | _ => destruct o eqn:?
      end
  | |- context [if ?b then _ else _] =>
      lazymatch b with
      | true => fail
      | false => fail
      | context [match _ with Ok _ => _ | Raise _ => _ end] => fail
      | context [match _ with Some _ => _ | None => _ end] => fail
      | context [if _ then _ else _] => fail
      | _ => destruct b eqn:?
      end
  end.

Ltac unfold_world :=
  unfold get_self, set_self, load, store, alloc; unfold_action.

Ltac names := repeat split; reflexivity.

(** [update_nodes] assigns [ez], [pred_x] and [ex] and overwrites the
    tensor of [z], and nothing else, however far it gets. *)
Lemma update_nodes_effect inf_lr m o (Post : world t -> Prop) :
  (forall o', same_names o o' -> Post (World m o')) ->
  (forall l v o', z o = Some l -> is_Some (m !! l) -> same_names o o' ->
                  Post (World (<[l := v]> m) o')) ->
  Post (update_nodes inf_lr (World m o)).1.
Proof.
  intros H1 H2. unfold update_nodes. unfold_world. cbn.
  repeat (step_any; cbn).
  all: first [ apply H1; names | eapply H2; [reflexivity | eauto | names] ].
Qed.

(** [update_nodes] assigns neither [x] nor [u]. *)
Lemma update_nodes_slices inf_lr w :
  x (self (update_nodes inf_lr w).1) = x (self w) /\
  u (self (update_nodes inf_lr w).1) = u (self w).
Proof.
  destruct w as [m o]. unfold update_nodes. unfold_world. cbn.
  repeat (step_any; cbn). all: split; congruence.
Qed.

(** [update_transition] overwrites the tensor of [Wr] or does nothing. *)
Lemma update_transition_effect lr m o (Post : world t -> Prop) :
  Post (World m o) ->
  (forall v, Post (World (<[Wr o := v]> m) o)) ->
  Post (update_transition lr (World m o)).1.
Proof.
  intros H1 H2. unfold update_transition. unfold_world. cbn.
  repeat (step_any; cbn).
  all: first [ apply H1 | apply H2 ].
Qed.

(** [update_emission] overwrites the tensor of [Wout] or does nothing. *)
Lemma update_emission_effect lr m o (Post : world t -> Prop) :
  Post (World m o) ->
  (forall v, Post (World (<[Wout o := v]> m) o)) ->
  Post (update_emission lr (World m o)).1.
Proof.
  intros H1 H2. unfold update_emission. unfold_world. cbn.
  repeat (step_any; cbn).
  all: first [ apply H1 | apply H2 ].
Qed.

(** [project_latent] only reads. *)
Lemma project_latent_pure w : (project_latent w).1 = w.
Proof.
  destruct w as [m o]. unfold project_latent. unfold_world. cbn.
  repeat (step_any; cbn). all: reflexivity.
Qed.

(** [equilibrium] makes [z] a new tensor or does nothing. *)
Lemma equilibrium_effect m o (Post : world t -> Prop) :
  Post (World m o) ->
  (forall v, Post (World (<[fresh (dom m) := v]> m) (set_z (Some (fresh (dom m))) o))) ->
  Post (equilibrium (World m o)).1.
Proof.
  intros H1 H2. unfold equilibrium. unfold_world. cbn.
  repeat (step_any; cbn).
  all: first [ apply H1 | apply H2 ].
Qed.

(** [begin_step] assigns [x] and [u], and makes [prev_z] a new tensor with
    the value of [z]. *)
Lemma begin_step_Ok inputs controls i m o l zv :
  z o = Some l -> m !! l = Some zv ->
  begin_step inputs controls i (World m o) =
  (World (<[fresh (dom m) := zv]> m)
     (set_prev_z (Some (fresh (dom m)))
        (set_u (Some (column i controls)) (set_x (Some (column i inputs)) o))),
   Ok tt).
Proof.
  intros Hz Hl. unfold begin_step. unfold_world. cbn. rewrite Hz. cbn.
  rewrite Hl. reflexivity.
Qed.

Lemma begin_step_effect inputs controls i m o (Post : world t -> Prop) :
  (forall o', same_names o o' -> Post (World m o')) ->
  (forall v o', same_names o o' ->
      Post (World (<[fresh (dom m) := v]> m) (set_prev_z (Some (fresh (dom m))) o'))) ->
  Post (begin_step inputs controls i (World m o)).1.
Proof.
  intros H1 H2. unfold begin_step. unfold_world. cbn.
  repeat (step_any; cbn).
  all: first [ apply H1; names | apply H2; names ].
Qed.

Lemma init_z_eq m o :
  init_z (World m o) =
  (World (<[fresh (dom m) := zeros (latent_size o) 1]> m)
     (set_z (Some (fresh (dom m))) o), Ok tt).
Proof. reflexivity. Qed.

(** *** The effects, one by one, on a well-formed object *)

Lemma fresh_ne (m : heap) l : is_Some (m !! l) -> l <> fresh (dom m).
Proof.
  intros Hl ->. apply (is_fresh (dom m)). apply elem_of_dom. exact Hl.
Qed.

Ltac use_names H :=
  destruct H as (?E1 & ?E2 & ?E3 & ?E4 & ?E5 & ?E6 & ?E7 & ?E8).

Ltac use_wf H :=
  destruct H as (?W1 & ?W2 & ?W3 & ?W4 & ?W5 & ?W6 & ?W7 & ?W8); cbn in *.

Ltac unfold_rel :=
  unfold wf, same_weights, same_prev_z, same_z, same_config,
    Wr_val, Win_val, Wout_val, z_val, prev_z_val, deref; cbn.

Lemma frame_fields m o o' :
  wf (World m o) -> same_names o o' ->
  wf (World m o') /\ same_weights (World m o) (World m o') /\
  same_prev_z (World m o) (World m o') /\ same_z (World m o) (World m o').
Proof.
  intros Hw Hn. use_names Hn. use_wf Hw. unfold_rel.
  rewrite E1, E2, E3, E4, E5, E6, E7, E8. split_and!; auto.
Qed.

Lemma frame_store_z m o o' l v :
  wf (World m o) -> z o = Some l -> same_names o o' ->
  wf (World (<[l := v]> m) o') /\
  same_weights (World m o) (World (<[l := v]> m) o') /\
  same_prev_z (World m o) (World (<[l := v]> m) o') /\
  z o' = z o.
Proof.
  intros Hw Hz Hn. use_names Hn. use_wf Hw. unfold_rel.
  rewrite E1, E2, E3, E4, E5, E6, E7, E8.
  destruct (W7 l Hz) as (Hl & N1 & N2 & N3).
  rewrite !lookup_insert_is_Some'.
  rewrite !(lookup_insert_ne _ l) by auto.
  split_and!; auto.
  - intros l' Hl'. rewrite lookup_insert_is_Some'.
    destruct (W7 l' Hl') as (? & ? & ? & ?). auto.
  - intros l' Hl'. rewrite lookup_insert_is_Some'.
    destruct (W8 l' Hl') as (? & ? & ? & ? & ?). auto 10.
  - destruct (prev_z o) as [lp|] eqn:Hp; cbn; [|reflexivity].
    destruct (W8 lp eq_refl) as (_ & _ & _ & _ & Hne).
    apply lookup_insert_ne. congruence.
Qed.

Lemma frame_store_weight m o l v :
  wf (World m o) -> l = Wr o \/ l = Wout o ->
  wf (World (<[l := v]> m) o) /\
  same_config (World m o) (World (<[l := v]> m) o) /\
  same_prev_z (World m o) (World (<[l := v]> m) o) /\
  same_z (World m o) (World (<[l := v]> m) o) /\
  Win_val (World (<[l := v]> m) o) = Win_val (World m o).
Proof.
  intros Hw Hl. use_wf Hw. unfold_rel.
  rewrite !lookup_insert_is_Some'.
  assert (Hin : l <> Win o) by (destruct Hl; congruence).
  rewrite (lookup_insert_ne _ l (Win o)) by exact Hin.
  split_and!; auto.
  - intros l' Hl'. rewrite lookup_insert_is_Some'.
    destruct (W7 l' Hl') as (? & ? & ? & ?). auto.
  - intros l' Hl'. rewrite lookup_insert_is_Some'.
    destruct (W8 l' Hl') as (? & ? & ? & ? & ?). auto 10.
  - destruct (prev_z o) as [lp|] eqn:Hp; cbn; [|reflexivity].
    destruct (W8 lp eq_refl) as (_ & ? & _ & ? & _).
    apply lookup_insert_ne. destruct Hl; congruence.
  - destruct (z o) as [lz|] eqn:Hz; cbn; [|reflexivity].
    destruct (W7 lz eq_refl) as (_ & ? & _ & ?).
    apply lookup_insert_ne. destruct Hl; congruence.
Qed.

Lemma frame_alloc_prev_z m o o' v :
  wf (World m o) -> same_names o o' ->
  let w' := World (<[fresh (dom m) := v]> m) (set_prev_z (Some (fresh (dom m))) o') in
  wf w' /\ same_weights (World m o) w' /\ same_z (World m o) w' /\
  prev_z_val w' = Some v.
Proof.
  intros Hw Hn. use_names Hn. use_wf Hw. unfold_rel.
  rewrite E1, E2, E3, E4, E5, E6, E7.
  rewrite !lookup_insert_is_Some'.
  rewrite !(lookup_insert_ne _ (fresh (dom m))) by (apply not_eq_sym, fresh_ne; auto).
  rewrite lookup_insert_eq.
  split_and!; auto.
  - intros l' Hl'. rewrite lookup_insert_is_Some'.
    destruct (W7 l' Hl') as (? & ? & ? & ?). auto.
  - intros l' [= <-]. rewrite lookup_insert_is_Some'.
    split_and!; auto using not_eq_sym, fresh_ne.
    intros Hz. destruct (W7 _ Hz) as (Hs & _). exact (fresh_ne _ _ Hs eq_refl).
  - destruct (z o) as [lz|] eqn:Hz; cbn; [|reflexivity].
    destruct (W7 lz eq_refl) as (Hs & _).
    apply lookup_insert_ne, not_eq_sym, fresh_ne, Hs.
Qed.

Lemma frame_alloc_z m o v :
  wf (World m o) ->
  let w' := World (<[fresh (dom m) := v]> m) (set_z (Some (fresh (dom m))) o) in
  wf w' /\ same_weights (World m o) w' /\ same_prev_z (World m o) w' /\
  z_val w' = Some v.
Proof.
  intros Hw. use_wf Hw. unfold_rel.
  rewrite !lookup_insert_is_Some'.
  rewrite !(lookup_insert_ne _ (fresh (dom m))) by (apply not_eq_sym, fresh_ne; auto).
  rewrite lookup_insert_eq.
  split_and!; auto.
  - intros l' [= <-]. rewrite lookup_insert_is_Some'.
    split_and!; auto using not_eq_sym, fresh_ne.
  - intros l' Hl'. rewrite lookup_insert_is_Some'.
    destruct (W8 l' Hl') as (Hs & ? & ? & ? & ?). split_and!; auto.
    intros [= Hf]. exact (fresh_ne _ _ Hs (eq_sym Hf)).
  - destruct (prev_z o) as [lp|] eqn:Hp; cbn; [|reflexivity].
    destruct (W8 lp eq_refl) as (Hs & _).
    apply lookup_insert_ne, not_eq_sym, fresh_ne, Hs.
Qed.

(** *** What each method keeps *)

Lemma keeps_run {A} P (c : action (world t) A) w w' r :
  keeps P c -> wf w -> c w = (w', r) ->
  wf w' /\ (is_Some (z (self w)) -> is_Some (z (self w'))) /\ P w w'.
Proof. intros Hc Hw Hrun. specialize (Hc w Hw). rewrite Hrun in Hc. exact Hc. Qed.

Lemma has_z_val w : wf w -> is_Some (z (self w)) -> is_Some (z_val w).
Proof.
  intros Hw [l Hl]. destruct Hw as (_ & _ & _ & _ & _ & _ & W7 & _).
  unfold z_val, deref. rewrite Hl. cbn. apply (W7 l Hl).
Qed.

Lemma update_nodes_keeps inf_lr :
  keeps (fun w w' => same_weights w w' /\ same_prev_z w w') (update_nodes inf_lr).
Proof.
  intros [m o] Hw. apply update_nodes_effect; cbn.
  - intros o' Hn. destruct (frame_fields m o o' Hw Hn) as (? & ? & ? & ?).
    destruct Hn as (_ & _ & _ & _ & _ & _ & -> & _). auto.
  - intros l v o' Hz _ Hn.
    destruct (frame_store_z m o o' l v Hw Hz Hn) as (? & ? & ? & ->). auto.
Qed.

Lemma update_nodes_keeps_weights inf_lr : keeps same_weights (update_nodes inf_lr).
Proof. eapply keeps_weaken; [|apply update_nodes_keeps]. intros ? ? []; auto. Qed.

Lemma update_nodes_keeps_prev_z inf_lr : keeps same_prev_z (update_nodes inf_lr).
Proof. eapply keeps_weaken; [|apply update_nodes_keeps]. intros ? ? []; auto. Qed.

Lemma update_nodes_keeps_config inf_lr : keeps same_config (update_nodes inf_lr).
Proof. eapply keeps_weaken; [|apply update_nodes_keeps]. intros ? ? [[] ?]; auto. Qed.

Lemma project_latent_keeps P `{!PreOrder P} : keeps P project_latent.
Proof. apply keeps_pure; [assumption|]. apply project_latent_pure. Qed.

Lemma equilibrium_keeps :
  keeps (fun w w' => same_weights w w' /\ same_prev_z w w') equilibrium.
Proof.
  intros [m o] Hw. apply equilibrium_effect; cbn.
  - split; [exact Hw|]. split; [auto|]. split; reflexivity.
  - intros v. destruct (frame_alloc_z m o v Hw) as (? & ? & ? & ?).
    split_and!; auto; intros _; eexists; reflexivity.
Qed.

Lemma equilibrium_keeps_weights : keeps same_weights equilibrium.
Proof. eapply keeps_weaken; [|apply equilibrium_keeps]. intros ? ? []; auto. Qed.

Lemma begin_step_keeps inputs controls i :
  keeps (fun w w' => same_weights w w' /\ same_z w w') (begin_step inputs controls i).
Proof.
  intros [m o] Hw. apply begin_step_effect; cbn.
  - intros o' Hn. destruct (frame_fields m o o' Hw Hn) as (? & ? & ? & ?).
    destruct Hn as (_ & _ & _ & _ & _ & _ & -> & _). auto.
  - intros v o' Hn. destruct (frame_alloc_prev_z m o o' v Hw Hn) as (? & ? & ? & ?).
    destruct Hn as (_ & _ & _ & _ & _ & _ & -> & _). auto.
Qed.

Lemma begin_step_keeps_weights inputs controls i :
  keeps same_weights (begin_step inputs controls i).
Proof. eapply keeps_weaken; [|apply begin_step_keeps]. intros ? ? []; auto. Qed.

Lemma begin_step_keeps_z inputs controls i :
  keeps same_z (begin_step inputs controls i).
Proof. eapply keeps_weaken; [|apply begin_step_keeps]. intros ? ? []; auto. Qed.

Lemma begin_step_keeps_config inputs controls i :
  keeps same_config (begin_step inputs controls i).
Proof. eapply keeps_weaken; [|apply begin_step_keeps]. intros ? ? [[] ?]; auto. Qed.

Lemma init_z_keeps : keeps same_weights init_z.
Proof.
  intros [m o] Hw. rewrite init_z_eq. cbn.
  destruct (frame_alloc_z m o (zeros (latent_size o) 1) Hw) as (? & ? & ? & ?).
  split_and!; auto; intros _; eexists; reflexivity.
Qed.

Lemma init_z_keeps_config : keeps same_config init_z.
Proof. eapply keeps_weaken; [|apply init_z_keeps]. intros ? ? []; auto. Qed.

Lemma update_transition_keeps lr : keeps same_z (update_transition lr).
Proof.
  intros [m o] Hw. apply update_transition_effect; cbn.
  - split; [exact Hw|]. split; [auto|]. reflexivity.
  - intros v. destruct (frame_store_weight m o (Wr o) v Hw) as (? & ? & ? & ? & ?); auto.
Qed.

Lemma update_emission_keeps lr : keeps same_z (update_emission lr).
Proof.
  intros [m o] Hw. apply update_emission_effect; cbn.
  - split; [exact Hw|]. split; [auto|]. reflexivity.
  - intros v. destruct (frame_store_weight m o (Wout o) v Hw) as (? & ? & ? & ? & ?); auto.
Qed.

Lemma learn_keeps_z lr : keeps same_z (learn lr).
Proof.
  apply keeps_bind; [apply _ | apply update_transition_keeps |].
  intros _. apply update_emission_keeps.
Qed.

Lemma learn_keeps_config lr : keeps same_config (learn lr).
Proof. eapply keeps_weaken; [|apply learn_keeps_z]. intros ? ? []; auto. Qed.

Ltac keeps_step :=
  lazymatch goal with
  | |- PreOrder _ => apply _
  | |- keeps _ (mbind _ _) => apply keeps_bind
  | |- keeps _ (mret _) => apply keeps_ret
  | |- keeps _ (lift _) => apply keeps_lift
  | |- keeps _ (read _) => apply keeps_read
  | |- keeps _ get_self => apply keeps_get_self
  | |- keeps _ (load _) => apply keeps_load
  | |- keeps _ (repeat_n _ _) => apply keeps_repeat_n
  | |- keeps _ (for_each _ _) => apply keeps_for_each
  | |- keeps _ (fold_each _ _ _) => apply keeps_fold_each
  | |- keeps _ project_latent => apply project_latent_keeps
  | |- keeps same_weights (update_nodes _) => apply update_nodes_keeps_weights
  | |- keeps same_prev_z (update_nodes _) => apply update_nodes_keeps_prev_z
  | |- keeps same_config (update_nodes _) => apply update_nodes_keeps_config
  | |- keeps same_weights equilibrium => apply equilibrium_keeps_weights
  | |- keeps same_weights (begin_step _ _ _) => apply begin_step_keeps_weights
  | |- keeps same_z (begin_step _ _ _) => apply begin_step_keeps_z
  | |- keeps same_config (begin_step _ _ _) => apply begin_step_keeps_config
  | |- keeps same_weights init_z => apply init_z_keeps
  | |- keeps same_config init_z => apply init_z_keeps_config
  | |- keeps same_z (learn _) => apply learn_keeps_z
  | |- keeps same_config (learn _) => apply learn_keeps_config
  | |- keeps _ _ => fail
  | |- forall _, _ => intro
  end.

Ltac keeps_tac := repeat keeps_step.

Lemma infer_keeps_weights inf_iters inf_lr : keeps same_weights (infer inf_iters inf_lr).
Proof. unfold infer. destruct (inf_iters =? 0)%nat; keeps_tac. Qed.

Lemma predict_step_keeps_weights inputs controls inf_iters inf_lr acc l :
  keeps same_weights (predict_step inputs controls inf_iters inf_lr acc l).
Proof. unfold predict_step. keeps_tac. apply infer_keeps_weights. Qed.

Lemma predict_upto_keeps_weights inputs controls inf_iters inf_lr l :
  keeps same_weights (predict_upto inputs controls inf_iters inf_lr l).
Proof. unfold predict_upto. keeps_tac. apply predict_step_keeps_weights. Qed.

Lemma predict_keeps_weights inputs controls inf_iters inf_lr :
  keeps same_weights (predict inputs controls inf_iters inf_lr).
Proof. unfold predict. keeps_tac. apply predict_upto_keeps_weights. Qed.

Lemma train_step_keeps_config inputs controls inf_iters inf_lr learn_lr l :
  keeps same_config (train_step inputs controls inf_iters inf_lr learn_lr l).
Proof. unfold train_step. keeps_tac. Qed.

Lemma train_step_upto_keeps_config inputs controls inf_lr l k :
  keeps same_config (train_step_upto inputs controls inf_lr l k).
Proof. unfold train_step_upto. keeps_tac. Qed.

Lemma train_pass_keeps_config inputs controls inf_iters inf_lr learn_lr ls :
  keeps same_config (train_pass inputs controls inf_iters inf_lr learn_lr ls).
Proof. unfold train_pass. keeps_tac. apply train_step_keeps_config. Qed.

Lemma train_upto_keeps_config inputs controls inf_iters inf_lr learn_lr i l :
  keeps same_config (train_upto inputs controls inf_iters inf_lr learn_lr i l).
Proof. unfold train_upto. keeps_tac; apply train_pass_keeps_config. Qed.

(** The constructor makes a well-formed object. *)
Lemma init_wf A B C n dyn name h h' o :
  init A B C n dyn name h = (h', Ok o) -> wf (World h' o).
Proof.
  unfold init, new_tensor. unfold_action. cbn.
  destruct (select_nonlin name) as [nl|e];
    [|intros H; destruct (pair_Raise_Ok _ _ _ _ H)].
  intros H. apply pair_Ok_inv in H as [<- <-]. unfold wf. cbn.
  set (l1 := fresh (dom h)). set (h1 := <[l1 := A]> h).
  set (l2 := fresh (dom h1)). set (h2 := <[l2 := B]> h1).
  set (l3 := fresh (dom h2)).
  assert (H12 : l1 <> l2).
  { apply fresh_ne. subst h1. rewrite lookup_insert_is_Some'. auto. }
  assert (H13 : l1 <> l3).
  { apply fresh_ne. subst h2 h1. rewrite !lookup_insert_is_Some'. auto. }
  assert (H23 : l2 <> l3).
  { apply fresh_ne. subst h2. rewrite lookup_insert_is_Some'. auto. }
  rewrite !lookup_insert_is_Some'. split_and!; auto; try (intros ? [=]).
  all: right; subst h2 h1; rewrite !lookup_insert_is_Some'; auto.
Qed.

(** C6: [predict] never modifies the weight matrices.  Whatever the
    sequences, the number of inner iterations and the step size, and
    whether the call returns or raises, the object names the same three
    weight tensors afterwards and each of them has the value it had before
    the call. *)
Theorem C6_predict_keeps_the_weights
    (w : world t) (inputs controls : tensor) (inf_iters : nat) (inf_lr : R) :
  wf w ->
  let w' := (predict inputs controls inf_iters inf_lr w).1 in
  Wr (self w') = Wr (self w) /\ Win (self w') = Win (self w) /\
  Wout (self w') = Wout (self w) /\
  Wr_val w' = Wr_val w /\ Win_val w' = Win_val w /\ Wout_val w' = Wout_val w.
Proof.
  intros Hw w'.
  destruct (predict_keeps_weights inputs controls inf_iters inf_lr w Hw)
    as (_ & _ & (C1 & C2 & C3 & _) & V1 & V2 & V3).
  subst w'. auto 10.
Qed.

(** *** [prev_z] during a timestep *)

(** From a world where [z] is assigned, the first statements of a timestep
    succeed and leave in [prev_z] the value of [z]. *)
Lemma begin_step_prev_z inputs controls i w :
  wf w -> is_Some (z (self w)) ->
  exists w1, begin_step inputs controls i w = (w1, Ok tt) /\ wf w1 /\
             prev_z_val w1 = z_val w /\ same_z w w1.
Proof.
  intros Hw [l Hl]. destruct w as [m o]. cbn in Hl.
  destruct (has_z_val _ Hw (ex_intro _ l Hl)) as [zv Hzv].
  pose proof Hzv as Hzv'. unfold z_val, deref in Hzv'. cbn in Hzv'.
  rewrite Hl in Hzv'. cbn in Hzv'.
  eexists. split; [apply (begin_step_Ok _ _ _ _ _ _ _ Hl Hzv')|].
  destruct (frame_alloc_prev_z m o
              (set_u (Some (column i controls)) (set_x (Some (column i inputs)) o))
              zv Hw) as (? & ? & ? & ?); [names|].
  split_and!; auto. congruence.
Qed.

Lemma step_upto_prev_z (rest : action (world t) unit) inputs controls i w :
  wf w -> is_Some (z (self w)) -> keeps same_prev_z rest ->
  prev_z_val ((begin_step inputs controls i;; rest) w).1 = z_val w.
Proof.
  intros Hw Hz Hrest.
  destruct (begin_step_prev_z inputs controls i w Hw Hz) as (w1 & Hb & Hw1 & Hp & _).
  rewrite (bind_Ok _ _ _ _ _ Hb).
  destruct (Hrest w1 Hw1) as (_ & _ & _ & _ & Hv). congruence.
Qed.

Lemma init_z_val w :
  wf w ->
  wf (init_z w).1 /\ z_val (init_z w).1 = Some (zeros (latent_size (self w)) 1) /\
  is_Some (z (self (init_z w).1)) /\ same_config w (init_z w).1 /\
  (init_z w).2 = Ok tt.
Proof.
  intros Hw. destruct w as [m o]. rewrite init_z_eq. cbn.
  destruct (frame_alloc_z m o (zeros (latent_size o) 1) Hw) as (? & (? & _) & ? & ?).
  split_and!; auto; eexists; reflexivity.
Qed.

(** After [init_z] and any number of rounds that keep the object
    well-formed, [z] is an allocated tensor. *)
Lemma after_init_z {A} P (rest : action (world t) A) w w' r :
  wf w -> keeps P rest -> (init_z;; rest) w = (w', r) ->
  wf w' /\ is_Some (z_val w').
Proof.
  intros Hw Hrest. destruct (init_z_val w Hw) as (Hw1 & _ & Hz1 & _ & Hok).
  rewrite bind_unfold. destruct (init_z w) as [w1 [[]|e]]; cbn in *; [|discriminate].
  intros Hrun. destruct (keeps_run _ _ _ _ _ Hrest Hw1 Hrun) as (Hw' & Hz' & _).
  split; [exact Hw'|]. apply has_z_val; auto.
Qed.

(** C3: at every timestep of every pass of [predict] and of [train], and
    after any number [k] of rounds of the inner loop of that timestep,
    [prev_z] has the value that [z] had at the end of the previous
    timestep, which for the first timestep of a pass is the zero vector.
    The world [w] is the one in which timestep [l] starts: for [predict],
    after the first [l] timesteps; for [train], after [i] passes and the
    first [l] timesteps of the next one. *)
Theorem C3_prev_z_is_the_previous_latent
    (w0 : world t) (inputs controls : tensor) (inf_iters : nat)
    (inf_lr learn_lr : R) (i l k : nat) :
  wf w0 ->
  (forall w acc,
     predict_upto inputs controls inf_iters inf_lr l w0 = (w, Ok acc) ->
     is_Some (z_val w) /\
     (l = 0%nat -> z_val w = Some (zeros (latent_size (self w0)) 1)) /\
     prev_z_val (predict_step_upto inputs controls inf_lr l k w).1 = z_val w) /\
  (forall w,
     train_upto inputs controls inf_iters inf_lr learn_lr i l w0 = (w, Ok tt) ->
     is_Some (z_val w) /\
     (l = 0%nat -> z_val w = Some (zeros (latent_size (self w0)) 1)) /\
     prev_z_val (train_step_upto inputs controls inf_lr l k w).1 = z_val w).
Proof.
  intros Hw0. split.
  - intros w acc Hrun. unfold predict_upto in Hrun.
    assert (Hkeep : keeps same_weights
              (fold_each (predict_step inputs controls inf_iters inf_lr) ([], []) (seq 0 l))).
    { keeps_tac. apply predict_step_keeps_weights. }
    destruct (after_init_z _ _ _ _ _ Hw0 Hkeep Hrun) as (Hw & Hz).
    split; [exact Hz|]. split.
    + intros ->. simpl in Hrun. revert Hrun. rewrite bind_unfold.
      destruct (init_z_val w0 Hw0) as (_ & Hv & _ & _ & Hok).
      destruct (init_z w0) as [w1 [[]|e]]; cbn in *; [|discriminate].
      intros H. apply pair_Ok_inv in H as [<- _]. exact Hv.
    + unfold predict_step_upto. apply step_upto_prev_z; [exact Hw| |keeps_tac].
      destruct Hz as [zv Hzv]. unfold z_val, deref in Hzv.
      destruct (z (self w)); [eexists; reflexivity | discriminate].
  - intros w Hrun. unfold train_upto in Hrun.
    apply bind_Ok_inv in Hrun as (w1 & [] & Hpasses & Hlast).
    assert (Hw1 : wf w1 /\ same_config w0 w1).
    { assert (Hk : keeps same_config
                (repeat_n i (train_pass inputs controls inf_iters inf_lr learn_lr
                               (seq 0 (ncols inputs))))).
      { keeps_tac. apply train_pass_keeps_config. }
      destruct (keeps_run _ _ _ _ _ Hk Hw0 Hpasses) as (? & _ & ?). auto. }
    destruct Hw1 as (Hw1 & Hcfg). unfold train_pass in Hlast.
    assert (Hkeep : keeps same_config
              (for_each (train_step inputs controls inf_iters inf_lr learn_lr) (seq 0 l))).
    { keeps_tac. apply train_step_keeps_config. }
    destruct (after_init_z _ _ _ _ _ Hw1 Hkeep Hlast) as (Hw & Hz).
    split; [exact Hz|]. split.
    + intros ->. simpl in Hlast. revert Hlast. rewrite bind_unfold.
      destruct (init_z_val w1 Hw1) as (_ & Hv & _ & _ & Hok).
      destruct (init_z w1) as [w2 [[]|e]]; cbn in *; [|discriminate].
      intros H. apply pair_Ok_inv in H as [<- _]. rewrite Hv. destruct Hcfg as (_ & _ & _ & -> & _). reflexivity.
    + unfold train_step_upto. apply step_upto_prev_z; [exact Hw| |keeps_tac].
      destruct Hz as [zv Hzv]. unfold z_val, deref in Hzv.
      destruct (z (self w)); [eexists; reflexivity | discriminate].
Qed.

(** *** The closed form *)

Lemma equilibrium_Ok w w' :
  wf w -> equilibrium w = (w', Ok tt) ->
  exists Wrv Winv Woutv xv uv pv znew,
    Wr_val w = Some Wrv /\ Win_val w = Some Winv /\ Wout_val w = Some Woutv /\
    x (self w) = Some xv /\ u (self w) = Some uv /\ prev_z_val w = Some pv /\
    CodingSpec.closed_form Wrv Winv Woutv (latent_size (self w)) xv uv pv = Ok znew /\
    z_val w' = Some znew /\
    ez (self w') = ez (self w) /\ pred_x (self w') = pred_x (self w) /\
    ex (self w') = ex (self w).
Proof.
  intros Hw. destruct w as [m o].
  unfold equilibrium, CodingSpec.closed_form. unfold_world. cbn.
  unfold Wr_val, Win_val, Wout_val, z_val, prev_z_val, deref. cbn.
  repeat (step_any; cbn;
          try (intros H; destruct (pair_Raise_Ok _ _ _ _ H))).
  intros H. apply pair_Ok_inv in H as [<- _]. cbn.
  rewrite lookup_insert_eq. do 7 eexists. split_and!; try reflexivity.
  repeat (match goal with
          | H : ?a = Ok _ |- context [match ?a with Ok _ => _ | Raise _ => _ end] =>
              rewrite H
          end; cbn).
  eassumption.
Qed.

Lemma predict_step_zero inputs controls inf_lr acc l w w' acc' :
  wf w ->
  predict_step inputs controls 0 inf_lr acc l w = (w', Ok acc') ->
  exists Wrv Winv Woutv zprev znew,
    Wr_val w = Some Wrv /\ Win_val w = Some Winv /\ Wout_val w = Some Woutv /\
    z_val w = Some zprev /\
    CodingSpec.closed_form Wrv Winv Woutv (latent_size (self w))
      (column l inputs) (column l controls) zprev = Ok znew /\
    z_val w' = Some znew /\ acc'.1 = acc.1 ++ [znew] /\
    ez (self w') = ez (self w) /\ pred_x (self w') = pred_x (self w) /\
    ex (self w') = ex (self w).
Proof.
  intros Hw Hstep. unfold predict_step in Hstep.
  apply bind_Ok_inv in Hstep as (w1 & [] & Hb & Hstep).
  apply bind_Ok_inv in Hstep as (w1' & zp & Hp & Hstep).
  pose proof (project_latent_pure w1) as Hpure. rewrite Hp in Hpure. cbn in Hpure.
  subst w1'. change (infer 0 inf_lr) with equilibrium in Hstep.
  apply bind_Ok_inv in Hstep as (w2 & [] & He & Hstep).
  destruct w as [m o].
  destruct (z o) as [zl|] eqn:Hzl.
  2:{ revert Hb. unfold begin_step. unfold_world. cbn. rewrite Hzl. cbn.
      intros H. destruct (pair_Raise_Ok _ _ _ _ H). }
  destruct (has_z_val _ Hw (ex_intro _ zl Hzl)) as [zv Hzv].
  pose proof Hzv as Hzv'. unfold z_val, deref in Hzv'. cbn in Hzv'.
  rewrite Hzl in Hzv'. cbn in Hzv'.
  rewrite (begin_step_Ok _ _ _ _ _ _ _ Hzl Hzv') in Hb.
  apply pair_Ok_inv in Hb as [<- _].
  destruct (frame_alloc_prev_z m o
              (set_u (Some (column l controls)) (set_x (Some (column l inputs)) o))
              zv Hw) as (Hw1 & ((_ & _ & _ & Hn & _) & V1 & V2 & V3) & _ & Hpv);
    [names|].
  cbv zeta in Hw1, V1, V2, V3, Hpv, Hn.
  destruct (equilibrium_Ok _ _ Hw1 He)
    as (Wrv & Winv & Woutv & xv & uv & pv & znew & E1 & E2 & E3 & E4 & E5 & E6 &
        Hcf & Hz' & F1 & F2 & F3).
  cbn in E4, E5, F1, F2, F3, Hcf, Hn. simplify_eq.
  rewrite V1 in E1. rewrite V2 in E2. rewrite V3 in E3.
  exists Wrv, Winv, Woutv, zv, znew.
  revert Hstep. unfold_world. cbn.
  unfold z_val, deref in Hz'.
  destruct (z (self w2)) as [zl2|] eqn:Hz2; [|discriminate]. cbn in *.
  rewrite Hz'. intros H. apply pair_Ok_inv in H as [<- <-]. cbn.
  unfold z_val, deref. cbn. rewrite Hzl, Hz2. cbn.
  split_and!; auto; congruence.
Qed.

(** The timestep returns whenever the closed form and the projected state
    are defined. *)
Lemma predict_step_zero_Ok inputs controls inf_lr acc l w
    Wrv Winv Woutv zprev znew zp :
  wf w ->
  Wr_val w = Some Wrv -> Win_val w = Some Winv -> Wout_val w = Some Woutv ->
  z_val w = Some zprev ->
  CodingSpec.closed_form Wrv Winv Woutv (latent_size (self w))
    (column l inputs) (column l controls) zprev = Ok znew ->
  CodingSpec.projected (nonlin (self w)) Wrv Winv zprev (column l controls)
  = Ok zp ->
  exists w',
    predict_step inputs controls 0 inf_lr acc l w
    = (w', Ok (acc.1 ++ [znew], acc.2 ++ [zp])) /\
    z_val w' = Some znew.
Proof.
  intros Hw HWr HWin HWout Hz Hcf Hpr. destruct w as [m o].
  unfold Wr_val, Win_val, Wout_val, z_val, deref in *. cbn in *.
  destruct (z o) as [zl|] eqn:Hzl; [|discriminate]. cbn in Hz.
  assert (Hf : forall k, is_Some (m !! k) ->
                 <[fresh (dom m) := zprev]> m !! k = m !! k).
  { intros k Hk. apply lookup_insert_ne, not_eq_sym, fresh_ne, Hk. }
  unfold predict_step.
  rewrite (bind_Ok _ _ _ _ _ (begin_step_Ok inputs controls l m o zl zprev Hzl Hz)).
  change (infer 0 inf_lr) with equilibrium.
  unfold project_latent, equilibrium, CodingSpec.closed_form,
    CodingSpec.projected in *.
  revert Hcf Hpr. unfold_world. cbn.
  rewrite Hzl. cbn.
  rewrite !Hf by eauto. rewrite HWr. cbn.
  intros Hcf Hpr.
  repeat match type of Hcf with
         | match ?a with Ok _ => _ | Raise _ => _ end = _ =>
             destruct a eqn:?; [|discriminate]
         end.
  repeat match type of Hpr with
         | match ?a with Ok _ => _ | Raise _ => _ end = _ =>
             destruct a eqn:?; [|discriminate]
         end.
  eexists.
  repeat (first [ rewrite Hf by eauto
                | rewrite lookup_insert_eq
                | rewrite HWr | rewrite HWin | rewrite HWout | rewrite Hz
                | match goal with
                  | H : ?a = Ok _ |- context [?a] => rewrite H
                  end ]; cbn -[eye]).
  split; [reflexivity|]. cbn. apply lookup_insert_eq.
Qed.

Lemma train_pass_zero_iters inputs controls inf_lr learn_lr ls w :
  wf w ->
  let w' := (train_pass inputs controls 0 inf_lr learn_lr ls w).1 in
  wf w' /\ same_config w w' /\ z_val w' = Some (zeros (latent_size (self w)) 1).
Proof.
  intros Hw. cbv zeta. unfold train_pass. rewrite bind_unfold.
  destruct (init_z_val w Hw) as (Hw1 & Hv & _ & Hcfg & Hok).
  destruct (init_z w) as [w1 [[]|e]]; cbn in *; [|discriminate].
  assert (Hk : keeps same_z
            (for_each (train_step inputs controls 0 inf_lr learn_lr) ls)).
  { keeps_tac. unfold train_step. simpl repeat_n. keeps_tac. }
  destruct (Hk w1 Hw1) as (Hw' & _ & Hc' & _ & Hz').
  split_and!; [exact Hw' | etrans; eassumption | congruence].
Qed.

Lemma train_zero_iters inputs controls inf_lr learn_lr n : forall w,
  wf w ->
  z_val (train inputs controls 0 inf_lr (S n) learn_lr w).1
  = Some (zeros (latent_size (self w)) 1).
Proof.
  unfold train. induction n as [|n IH]; intros w Hw.
  - simpl. rewrite bind_unfold.
    destruct (train_pass_zero_iters inputs controls inf_lr learn_lr
                (seq 0 (ncols inputs)) w Hw) as (_ & _ & Hz).
    cbv zeta in Hz. destruct (train_pass _ _ _ _ _ _ w) as [w1 [[]|e]]; exact Hz.
  - change (repeat_n (S (S n)) ?c) with (c;; repeat_n (S n) c).
    rewrite bind_unfold.
    destruct (train_pass_zero_iters inputs controls inf_lr learn_lr
                (seq 0 (ncols inputs)) w Hw) as (Hw1 & Hcfg & Hz).
    cbv zeta in Hw1, Hcfg, Hz.
    destruct (train_pass _ _ _ _ _ _ w) as [w1 [[]|e]]; cbn in *; [|exact Hz].
    rewrite (IH w1 Hw1). destruct Hcfg as (_ & _ & _ & -> & _). reflexivity.
Qed.

(** C1, as the code has it: with [inf_iters = 0], a timestep of [predict]
    runs no round of the inner loop ([ez], [pred_x] and [ex] are as
    before) and sets the latent estimate to the closed form
    [(I + Wout^T Wout)^-1 (Wout^T x + Wr prev_z + Win u)], with [prev_z]
    the estimate of the previous timestep; and the timestep returns
    whenever the closed form and the projected latent state are defined. *)
Theorem C1_closed_form_in_predict
    (w : world t) (inputs controls : tensor) (inf_lr : R)
    (acc : list tensor * list tensor) (l : nat) :
  wf w ->
  (forall w' acc',
     predict_step inputs controls 0 inf_lr acc l w = (w', Ok acc') ->
     exists Wrv Winv Woutv zprev znew,
       Wr_val w = Some Wrv /\ Win_val w = Some Winv /\ Wout_val w = Some Woutv /\
       z_val w = Some zprev /\
       CodingSpec.closed_form Wrv Winv Woutv (latent_size (self w))
         (column l inputs) (column l controls) zprev = Ok znew /\
       z_val w' = Some znew /\ acc'.1 = acc.1 ++ [znew] /\
       ez (self w') = ez (self w) /\ pred_x (self w') = pred_x (self w) /\
       ex (self w') = ex (self w)) /\
  (forall Wrv Winv Woutv zprev znew zp,
     Wr_val w = Some Wrv -> Win_val w = Some Winv -> Wout_val w = Some Woutv ->
     z_val w = Some zprev ->
     CodingSpec.closed_form Wrv Winv Woutv (latent_size (self w))
       (column l inputs) (column l controls) zprev = Ok znew ->
     CodingSpec.projected (nonlin (self w)) Wrv Winv zprev (column l controls)
     = Ok zp ->
     exists w',
       predict_step inputs controls 0 inf_lr acc l w
       = (w', Ok (acc.1 ++ [znew], acc.2 ++ [zp])) /\
       z_val w' = Some znew).
Proof.
  intros Hw. split.
  - intros w' acc'. apply predict_step_zero. exact Hw.
  - intros Wrv Winv Woutv zprev znew zp. apply predict_step_zero_Ok. exact Hw.
Qed.

End Neural.

(** ** The differentiable predictive-coding solver *)

(** C9: a name of a nonlinearity other than ["linear"] and ["tanh"] makes
    the constructor of either predictive-coding solver raise the
    configuration error; no object is made, so that no inference can be
    attempted on it. *)
Theorem C9_unknown_nonlinearity_is_rejected (name : string) :
  name <> "linear"%string -> name <> "tanh"%string ->
  (forall A B C n dyn h,
     (NeuralKalmanFilter.init A B C n dyn name h).2
     = Raise (ValueError "no such nonlinearity!")) /\
  (forall control_size hidden_size output_size Win Wr Wout,
     TemporalPC.init control_size hidden_size output_size name Win Wr Wout
     = Raise (ValueError "no such nonlinearity!")).
Proof.
  intros H1 H2.
  assert (Hsel : select_nonlin name = Raise (ValueError "no such nonlinearity!")).
  { unfold select_nonlin.
    destruct (String.eqb_spec name "linear"); [contradiction|].
    destruct (String.eqb_spec name "tanh"); [contradiction|]. reflexivity. }
  split.
  - intros. unfold NeuralKalmanFilter.init, new_tensor. unfold_action. cbn.
    rewrite Hsel. reflexivity.
  - intros. unfold TemporalPC.init. rewrite Hsel. reflexivity.
Qed.

Section Differentiable.
Import TemporalPC.

Ltac step_any :=
  match goal with
  | |- context [match ?o with Ok _ => _ | Raise _ => _ end] =>
      lazymatch o with
      | Ok _ => fail
      | Raise _ => fail
      | context [match _ with Ok _ => _ | Raise _ => _ end] => fail
      | context [match _ with Some _ => _ | None => _ end] => fail
      | context [if _ then _ else _] => fail
      | _ => destruct o as [[? ?]|?] eqn:? || destruct o eqn:?
      end
  | |- context [match ?o with Some _ => _ | None => _ end] =>
      lazymatch o with
      | Some _ => fail
      | None => fail
      | context [match _ with Ok _ => _ | Raise _ => _ end] => fail
      | context [match _ with Some _ => _ | None => _ end] => fail
      | context [if _ then _ else _] => fail
      | _ => destruct o eqn:?
      end
  | |- context [if ?b then _ else _] =>
      lazymatch b with
      | true => fail
      | false => fail
      | context [match _ with Ok _ => _ | Raise _ => _ end] => fail
      | context [match _ with Some _ => _ | None => _ end] => fail
      | context [if _ then _ else _] => fail
      | _ => destruct b eqn:?
      end
  end.

Ltac unfold_world :=
  unfold get_self, set_self, load, store, alloc; unfold_action.

(** What [update_errs] returns, from the values of the tensors it reads. *)
Lemma pc_update_errs_eq m o x u prev_z zl xv uv pv zv :
  m !! x = Some xv -> m !! u = Some uv -> m !! prev_z = Some pv ->
  z o = Some zl -> m !! zl = Some zv ->
  update_errs x u prev_z (World m o)
  = (World m o, TemporalPC.errs_of o zv xv uv pv).
Proof.
  intros Hx Hu Hp Hz Hzv.
  unfold update_errs, TemporalPC.errs_of. unfold_world. cbn.
  repeat (first [ rewrite Hu | rewrite Hp | rewrite Hz | rewrite Hzv | rewrite Hx
                | step_any ]; cbn).
  all: reflexivity.
Qed.

(** *** The observation under [inference] *)

Lemma repeat_n_snoc {S} n (c : action S unit) s s' :
  repeat_n (Datatypes.S n) c s = (s', Ok tt) ->
  exists s1, repeat_n n c s = (s1, Ok tt) /\ c s1 = (s', Ok tt).
Proof.
  revert s. induction n as [|n IH]; intros s H.
  - simpl in H. apply bind_Ok_inv in H as (s1 & [] & Hc & Hr).
    apply pair_Ok_inv in Hr as [<- _]. exists s. split; [reflexivity|exact Hc].
  - change (repeat_n (Datatypes.S (Datatypes.S n)) c)
      with (c;; repeat_n (Datatypes.S n) c) in H.
    apply bind_Ok_inv in H as (sa & [] & Hc & Hr).
    destruct (IH sa Hr) as (s1 & Hn & Hlast).
    exists s1. split; [|exact Hlast].
    simpl. rewrite (bind_Ok _ _ _ _ _ Hc). exact Hn.
Qed.

(** [update_nodes] overwrites the tensor of [z] and, when [update_x] is
    set, the tensor [x]; it assigns no attribute. *)
Lemma pc_update_nodes_effect x u prev_z inf_lr update_x m o (Post : world t -> Prop) :
  Post (World m o) ->
  (forall zl v, z o = Some zl -> Post (World (<[zl := v]> m) o)) ->
  (forall zl v v', z o = Some zl -> update_x = true ->
                   Post (World (<[x := v']> (<[zl := v]> m)) o)) ->
  Post (update_nodes x u prev_z inf_lr update_x (World m o)).1.
Proof.
  intros H1 H2 H3. unfold update_nodes, update_errs. unfold_world. cbn.
  repeat (step_any; cbn).
  all: simplify_eq.
  all: first [ apply H1 | apply H2; reflexivity | apply H3; reflexivity ].
Qed.

Lemma pc_update_nodes_apart x u prev_z inf_lr update_x w :
  apart x w ->
  let w' := (update_nodes x u prev_z inf_lr update_x w).1 in
  apart x w' /\ (update_x = false -> mem w' !! x = mem w !! x).
Proof.
  intros [Hx Hz]. destruct w as [m o]. cbn in *.
  apply pc_update_nodes_effect; unfold apart; cbn.
  - auto.
  - intros zl v Hzl. rewrite lookup_insert_is_Some'. split_and!; auto.
    intros _. apply lookup_insert_ne. congruence.
  - intros zl v v' Hzl ->. rewrite lookup_insert_is_Some'. split_and!; auto.
    intros [=].
Qed.

Lemma repeat_pc_update_nodes_apart x u prev_z inf_lr update_x n : forall w,
  apart x w ->
  let w' := (repeat_n n (update_nodes x u prev_z inf_lr update_x) w).1 in
  apart x w' /\ (update_x = false -> mem w' !! x = mem w !! x).
Proof.
  induction n as [|n IH]; intros w Hw; simpl.
  - auto.
  - rewrite bind_unfold.
    destruct (pc_update_nodes_apart x u prev_z inf_lr update_x w Hw) as (Hw1 & Hx1).
    cbv zeta in Hw1, Hx1.
    destruct (update_nodes x u prev_z inf_lr update_x w) as [w1 [[]|e]]; cbn in *.
    + destruct (IH w1 Hw1) as (Hw2 & Hx2). cbv zeta in Hw2, Hx2.
      split; [exact Hw2|]. intros Hf. rewrite Hx2, Hx1; auto.
    + auto.
Qed.

(** [init_z] makes [z] a new tensor or does nothing. *)
Lemma pc_init_z_effect u prev_z m o (Post : world t * outcome unit -> Prop) :
  (forall e, Post (World m o, Raise e)) ->
  (forall v, Post (World (<[fresh (dom m) := v]> m) (set_z (Some (fresh (dom m))) o),
                   Ok tt)) ->
  Post (init_z u prev_z (World m o)).
Proof.
  intros H1 H2. unfold init_z. unfold_world. cbn.
  repeat (step_any; cbn).
  all: first [ apply H1 | apply H2 ].
Qed.

Lemma pc_init_z_apart x u prev_z w w1 :
  is_Some (mem w !! x) -> init_z u prev_z w = (w1, Ok tt) ->
  apart x w1 /\ mem w1 !! x = mem w !! x.
Proof.
  intros Hx. destruct w as [m o]. cbn in Hx.
  apply (pc_init_z_effect u prev_z m o
           (fun r => r = (w1, Ok tt) -> apart x w1 /\ mem w1 !! x = m !! x)).
  - intros e H. destruct (pair_Raise_Ok _ _ _ _ H).
  - intros v H. apply pair_Ok_inv in H as [<- _]. unfold apart. cbn.
    assert (Hne : fresh (dom m) <> x).
    { intros <-. apply (is_fresh (dom m)). apply elem_of_dom. exact Hx. }
    rewrite lookup_insert_ne by exact Hne. split_and!; auto. congruence.
Qed.

(** One successful round with [update_x] set moves [x] by the step size
    times the observation error at the values it starts from. *)
Lemma pc_update_nodes_refines_x x u prev_z inf_lr w w' :
  apart x w -> update_nodes x u prev_z inf_lr true w = (w', Ok tt) ->
  exists xv zv pred err x',
    mem w !! x = Some xv /\ z_val w = Some zv /\
    linear (Wout (self w)) (activate (nonlin (self w)) zv) = Ok pred /\
    tsub xv pred = Ok err /\
    inplace Rminus xv (scale inf_lr err) = Ok x' /\
    mem w' !! x = Some x'.
Proof.
  intros [Hx Hz]. destruct w as [m o]. cbn in *.
  destruct Hx as [xv Hxv].
  unfold update_nodes, update_errs, z_val, deref. unfold_world. cbn.
  destruct (z o) as [zl|] eqn:Hzl; cbn.
  2:{ repeat (step_any; cbn). all: intros H; destruct (pair_Raise_Ok _ _ _ _ H). }
  assert (Hne : zl <> x) by congruence.
  destruct (m !! zl) as [zv|] eqn:Hzv; cbn.
  2:{ repeat (first [ rewrite Hzl | rewrite Hzv | step_any ]; cbn).
      all: intros H; destruct (pair_Raise_Ok _ _ _ _ H). }
  repeat (first [ rewrite Hzl | rewrite Hzv | rewrite Hxv
                | rewrite (lookup_insert_ne _ zl x) by exact Hne
                | step_any ]; cbn).
  all: try (intros H; destruct (pair_Raise_Ok _ _ _ _ H)).
  intros H. apply pair_Ok_inv in H as [<- _]. cbn.
  rewrite lookup_insert_eq. do 5 eexists.
  split_and!; [reflexivity | reflexivity | eassumption | eassumption
              | eassumption | reflexivity].
Qed.

(** What [inference] does to the caller's tensor [x]: nothing without
    [update_x]; with it, each round that completes subtracts [inf_lr]
    times the observation error of that round. *)
Lemma pc_inference_x (w : world t) (x u prev_z : loc) (inf_lr : R) :
  is_Some (mem w !! x) ->
  (forall n, mem (inference n inf_lr x u prev_z false w).1 !! x = mem w !! x) /\
  (forall k w2,
     inference (S k) inf_lr x u prev_z true w = (w2, Ok tt) ->
     exists w1 xv zv pred err x',
       inference k inf_lr x u prev_z true w = (w1, Ok tt) /\
       mem w1 !! x = Some xv /\ z_val w1 = Some zv /\
       linear (Wout (self w1)) (activate (nonlin (self w1)) zv) = Ok pred /\
       tsub xv pred = Ok err /\
       inplace Rminus xv (scale inf_lr err) = Ok x' /\
       mem w2 !! x = Some x').
Proof.
  intros Hx. split.
  - intros n. unfold inference. rewrite bind_unfold.
    destruct (init_z u prev_z w) as [w1 [[]|e]] eqn:Hinit; cbn.
    + destruct (pc_init_z_apart x u prev_z w w1 Hx Hinit) as (Hap & Hsame).
      destruct (repeat_pc_update_nodes_apart x u prev_z inf_lr false n w1 Hap)
        as (_ & Hkeep).
      cbv zeta in Hkeep. rewrite Hkeep by reflexivity. exact Hsame.
    + revert Hinit. destruct w as [m o].
      apply (pc_init_z_effect u prev_z m o
               (fun r => r = (w1, Raise e) -> mem w1 !! x = m !! x)).
      * intros e' H. apply (f_equal fst) in H. cbn in H. subst w1. reflexivity.
      * intros v H. apply (f_equal snd) in H. discriminate H.
  - intros k w2 Hrun. unfold inference in Hrun.
    apply bind_Ok_inv in Hrun as (w0 & [] & Hinit & Hrun).
    apply repeat_n_snoc in Hrun as (w1 & Hk & Hlast).
    destruct (pc_init_z_apart x u prev_z w w0 Hx Hinit) as (Hap0 & _).
    destruct (repeat_pc_update_nodes_apart x u prev_z inf_lr true k w0 Hap0)
      as (Hap1 & _).
    cbv zeta in Hap1. rewrite Hk in Hap1. cbn in Hap1.
    destruct (pc_update_nodes_refines_x x u prev_z inf_lr w1 w2 Hap1 Hlast)
      as (xv & zv & pred & err & x' & H).
    exists w1, xv, zv, pred, err, x'. split; [|exact H].
    unfold inference. rewrite (bind_Ok _ _ _ _ _ Hinit). exact Hk.
Qed.

End Differentiable.

(** ** Derivatives at 0 *)

Lemma d0_ext f g d : (forall t, f t = g t) -> d0 f d -> d0 g d.
Proof.
  intros Hfg Hf eps Heps. destruct (Hf eps Heps) as [delta Hd].
  exists delta. intros h Hh Hlt. rewrite <- !Hfg. apply Hd; assumption.
Qed.

Lemma d0_eq f d d' : d = d' -> d0 f d -> d0 f d'.
Proof. intros ->. auto. Qed.

Lemma d0_const c : d0 (fun _ => c) 0.
Proof. apply (derivable_pt_lim_const c 0). Qed.

Lemma d0_plus f g df dg : d0 f df -> d0 g dg -> d0 (fun t => f t + g t) (df + dg).
Proof. intros Hf Hg. apply (derivable_pt_lim_plus f g 0 df dg Hf Hg). Qed.

Lemma d0_minus f g df dg : d0 f df -> d0 g dg -> d0 (fun t => f t - g t) (df - dg).
Proof. intros Hf Hg. apply (derivable_pt_lim_minus f g 0 df dg Hf Hg). Qed.

Lemma d0_mult f g df dg :
  d0 f df -> d0 g dg -> d0 (fun t => f t * g t) (df * g 0 + f 0 * dg).
Proof. intros Hf Hg. apply (derivable_pt_lim_mult f g 0 df dg Hf Hg). Qed.

Lemma d0_line v g : d0 (fun t => v - t * g) (- g).
Proof.
  eapply d0_eq; [|apply d0_minus; [apply d0_const|]].
  2:{ eapply d0_eq; [|apply (d0_mult (fun t => t) (fun _ => g) 1 0);
                       [apply (derivable_pt_lim_id 0) | apply d0_const]].
      cbv beta. reflexivity. }
  lra.
Qed.

Lemma d0_comp f (phi phi' : R -> R) df :
  (forall v, derivable_pt_lim phi v (phi' v)) ->
  d0 f df -> d0 (fun t => phi (f t)) (phi' (f 0) * df).
Proof. intros Hphi Hf. apply (derivable_pt_lim_comp f phi 0 df _ Hf (Hphi (f 0))). Qed.

Lemma d0_square f df : d0 f df -> d0 (fun t => f t ^ 2) (2 * f 0 * df).
Proof.
  intros Hf. eapply d0_ext; [|eapply d0_eq; [|apply (d0_mult f f df df Hf Hf)]].
  - intros t. cbv beta. ring.
  - ring.
Qed.

(** A function with a negative derivative at 0 is smaller just after 0. *)
Lemma d0_descent f d :
  d0 f d -> d < 0 ->
  exists bound, 0 < bound /\ forall t, 0 < t <= bound -> f t < f 0.
Proof.
  intros Hf Hd. destruct (Hf (- d / 2)) as [delta Hdelta]; [lra|].
  pose proof (cond_pos delta) as Hpos.
  exists (delta / 2). split; [lra|]. intros t [Ht Hb].
  specialize (Hdelta t).
  assert (Hne : t <> 0) by lra.
  assert (Hlt : Rabs t < delta) by (rewrite Rabs_pos_eq; lra).
  specialize (Hdelta Hne Hlt). rewrite Rplus_0_l in Hdelta.
  apply Rabs_def2 in Hdelta as [Hup _].
  assert (Hq : (f t - f 0) / t < 0) by lra.
  assert (f t - f 0 < 0); [|lra].
  replace (f t - f 0) with ((f t - f 0) / t * t) by (field; lra).
  nra.
Qed.

(** The nonlinearities are derivable, with [act'] as derivative. *)
Lemma cosh_pos v : 0 < cosh v.
Proof. unfold cosh. pose proof (exp_pos v). pose proof (exp_pos (- v)). lra. Qed.

Lemma tanh_derivable v : derivable_pt_lim tanh v (1 - tanh v ^ 2).
Proof.
  pose proof (cosh_pos v) as Hc.
  assert (Hd : derivable_pt_lim (sinh / cosh) v
                 ((cosh v * cosh v - sinh v * sinh v) / (cosh v)²)).
  { apply derivable_pt_lim_div;
      [apply derivable_pt_lim_sinh | apply derivable_pt_lim_cosh | lra]. }
  assert (Heq : (cosh v * cosh v - sinh v * sinh v) / (cosh v)² = 1 - tanh v ^ 2).
  { unfold tanh, Rsqr. field. lra. }
  rewrite <- Heq. intros eps Heps. destruct (Hd eps Heps) as [delta Hdelta].
  exists delta. intros h Hh Hlt. exact (Hdelta h Hh Hlt).
Qed.

Lemma act_derivable nl v : derivable_pt_lim (act nl) v (act' nl v).
Proof.
  destruct nl; unfold act, act'.
  - apply (derivable_pt_lim_id v).
  - apply tanh_derivable.
Qed.

(** ** Sums and products of lists *)

Lemma sumR_cons a v : sumR (a :: v) = a + sumR v.
Proof. reflexivity. Qed.

Lemma dot_cons a v b w : dot (a :: v) (b :: w) = a * b + dot v w.
Proof. reflexivity. Qed.

Lemma dot_nil_l w : dot [] w = 0.
Proof. reflexivity. Qed.

Lemma dot_nil_r v : dot v [] = 0.
Proof. destruct v; reflexivity. Qed.

Lemma dot_comm v : forall w, dot v w = dot w v.
Proof.
  induction v as [|a v IH]; intros [|b w]; try reflexivity.
  rewrite !dot_cons, IH. ring.
Qed.

Lemma dot_opp_r v : forall w, dot v (map Ropp w) = - dot v w.
Proof.
  induction v as [|a v IH]; intros [|b w]; cbn [map]; rewrite ?dot_nil_l, ?dot_nil_r;
    try lra.
  rewrite !dot_cons, IH. ring.
Qed.

Lemma dot_minus_r v : forall a b,
  length a = length b -> dot v (zip_with Rminus a b) = dot v a - dot v b.
Proof.
  induction v as [|x v IH]; intros [|a1 a] [|b1 b] Hlen; simpl in Hlen;
    try discriminate; cbn [zip_with]; rewrite ?dot_nil_l, ?dot_nil_r; try lra.
  rewrite !dot_cons, IH by lia. ring.
Qed.

Lemma dot_minus_l a : forall b v,
  length a = length b -> dot (zip_with Rminus a b) v = dot a v - dot b v.
Proof.
  intros b v Hlen. rewrite dot_comm, dot_minus_r by exact Hlen.
  rewrite (dot_comm v a), (dot_comm v b). reflexivity.
Qed.

Lemma dot_zero_r v : forall (w : list R), dot v (map (fun _ => 0) w) = 0.
Proof.
  induction v as [|a v IH]; intros [|b w]; cbn [map]; rewrite ?dot_nil_l, ?dot_nil_r;
    try lra.
  rewrite dot_cons, IH. ring.
Qed.

Lemma dot_self_nonneg v : 0 <= dot v v.
Proof.
  induction v as [|a v IH]; [rewrite dot_nil_l; lra|].
  rewrite dot_cons. nra.
Qed.

Lemma dot_self_zero v : dot v v = 0 -> Forall (fun a => a = 0) v.
Proof.
  induction v as [|a v IH]; [constructor|].
  rewrite dot_cons. intros H. pose proof (dot_self_nonneg v).
  assert (a * a = 0 /\ dot v v = 0) as [Ha Hv] by nra.
  constructor; [nra | auto].
Qed.

(** [a * (f z * g)] summed is [(f z * a) * g] summed. *)
Lemma dot_rearrange (f : R -> R) a : forall z g,
  length a = length z -> length z = length g ->
  dot a (zip_with (fun v d => f v * d) z (map Ropp g))
  = - dot (zip_with Rmult (map f z) a) g.
Proof.
  induction a as [|a1 a IH]; intros [|z1 z] [|g1 g] H1 H2; simpl in H1, H2;
    try discriminate; cbn [map zip_with]; rewrite ?dot_nil_l; try lra.
  rewrite !dot_cons, IH by lia. ring.
Qed.

Lemma sumR_double_products a : forall b,
  sumR (zip_with (fun v d => 2 * v * d) a b) = 2 * dot a b.
Proof.
  induction a as [|a1 a IH]; intros [|b1 b]; cbn [zip_with];
    rewrite ?dot_nil_l, ?dot_nil_r; try (cbn; lra).
  rewrite sumR_cons, dot_cons, IH. ring.
Qed.

Lemma zip_minus_scale_zero (g : list R) : forall v t,
  length v = length g -> Forall (fun a => a = 0) g ->
  zip_with Rminus v (map (Rmult t) g) = v.
Proof.
  induction g as [|g1 g IH]; intros [|v1 v] t Hlen Hz; simpl in Hlen;
    try discriminate; [reflexivity|].
  apply Forall_cons in Hz as [-> Hz]. cbn [map zip_with].
  rewrite IH by (auto; lia). f_equal. ring.
Qed.

Lemma zip_minus_scale_0 (g : list R) : forall v,
  length v = length g -> zip_with Rminus v (map (Rmult 0) g) = v.
Proof.
  induction g as [|g1 g IH]; intros [|v1 v] Hlen; simpl in Hlen;
    try discriminate; [reflexivity|].
  cbn [map zip_with]. rewrite IH by lia. f_equal. ring.
Qed.

(** ** Shapes *)

Lemma is_shape_spec r c M : is_shape r c M = true <-> shape r c M.
Proof.
  unfold is_shape, shape. rewrite andb_true_iff, Nat.eqb_eq, forallb_forall.
  rewrite Forall_forall. split; intros [H1 H2]; (split; [exact H1|]).
  - intros row Hin. apply Nat.eqb_eq, H2, list_elem_of_In, Hin.
  - intros row Hin. apply Nat.eqb_eq, H2, list_elem_of_In, Hin.
Qed.

Lemma shape_cons r c row M : shape (S r) c (row :: M) <-> length row = c /\ shape r c M.
Proof.
  unfold shape. cbn [length]. rewrite Forall_cons. intuition lia.
Qed.

Lemma shape_nil_inv c M : shape 0 c M -> M = [].
Proof. intros [H _]. destruct M; [reflexivity|discriminate]. Qed.

Lemma shape_cons_inv r c M :
  shape (S r) c M -> exists row M', M = row :: M' /\ length row = c /\ shape r c M'.
Proof.
  intros H. destruct M as [|row M']; [destruct H; discriminate|].
  apply shape_cons in H. eauto.
Qed.

Lemma ncols_shape r c M : shape (S r) c M -> ncols M = c.
Proof. intros (row & M' & -> & H & _)%shape_cons_inv. exact H. Qed.

Lemma shape_tmap f r c M : shape r c M -> shape r c (tmap f M).
Proof.
  intros [H1 H2]. split; [unfold tmap; rewrite length_map; exact H1|].
  unfold tmap. apply Forall_map. eapply Forall_impl; [exact H2|].
  intros row Hrow. cbn. rewrite length_map. exact Hrow.
Qed.

Lemma shape_zipT f r c : forall A B,
  shape r c A -> shape r c B -> shape r c (zipT f A B).
Proof.
  induction r as [|r IH]; intros A B HA HB.
  - rewrite (shape_nil_inv _ _ HA). split; [reflexivity|constructor].
  - apply shape_cons_inv in HA as (a & A' & -> & Ha & HA).
    apply shape_cons_inv in HB as (b & B' & -> & Hb & HB).
    unfold zipT. cbn [zip_with]. apply shape_cons. split.
    + rewrite length_zip_with. lia.
    + apply IH; assumption.
Qed.

Lemma shape_rowsdot r h o v W : shape r h v -> shape o h W -> shape r o (rowsdot v W).
Proof.
  intros [H1 _] [H2 _]. split; [unfold rowsdot; rewrite length_map; exact H1|].
  unfold rowsdot. apply Forall_map, Forall_forall. intros row _. cbn.
  rewrite length_map. exact H2.
Qed.

Lemma shape_mmul r k k' c A B :
  shape r k' A -> shape (S k) c B -> shape r c (mmul A B).
Proof.
  intros [H1 _] HB. split; [unfold mmul; rewrite length_map; exact H1|].
  unfold mmul. apply Forall_map, Forall_forall. intros row _. cbn.
  rewrite length_map, length_seq. apply (ncols_shape _ _ _ HB).
Qed.

Lemma length_col j M : length (col j M) = length M.
Proof. unfold col. apply length_map. Qed.

Lemma shape_transpose r c M : shape (S r) c M -> shape c (S r) (transpose M).
Proof.
  intros HM. unfold transpose. rewrite (ncols_shape _ _ _ HM). split.
  - rewrite length_map, length_seq. reflexivity.
  - apply Forall_map, Forall_forall. intros j _. cbn. rewrite length_col.
    apply HM.
Qed.

(** On operands of one shape the checked operations are the plain ones. *)
Lemma matmul_Ok r k A B : shape r k A -> length B = k -> matmul A B = Ok (mmul A B).
Proof.
  intros [_ HA] HB. unfold matmul.
  replace (forallb _ A) with true; [reflexivity|].
  symmetry. apply forallb_forall. intros a Hin. apply Nat.eqb_eq.
  rewrite Forall_forall in HA. unfold nrows. rewrite HB.
  apply HA, list_elem_of_In, Hin.
Qed.

Lemma expand_same r c M : shape r c M -> expand r c M = M.
Proof.
  intros [H1 H2]. unfold expand.
  assert (Hm : map (expand_row c) M = M).
  { rewrite <- (map_id M) at 2. apply map_ext_Forall.
    eapply Forall_impl; [exact H2|]. intros row Hrow. cbn.
    unfold expand_row. rewrite Hrow, Nat.eqb_refl. reflexivity. }
  rewrite Hm, H1, Nat.eqb_refl. reflexivity.
Qed.

Lemma bdim_same n : bdim n n = Some n.
Proof. unfold bdim. rewrite Nat.eqb_refl. reflexivity. Qed.

Lemma elementwise_Ok f r c A B :
  shape r c A -> shape r c B -> elementwise f A B = Ok (zipT f A B).
Proof.
  intros HA HB. unfold elementwise.
  replace (nrows B) with (nrows A) by (unfold nrows; destruct HA, HB; congruence).
  rewrite bdim_same.
  destruct r as [|r].
  - rewrite (shape_nil_inv _ _ HA), (shape_nil_inv _ _ HB). reflexivity.
  - rewrite (ncols_shape _ _ _ HA), (ncols_shape _ _ _ HB), bdim_same.
    replace (nrows A) with (S r) by (destruct HA; auto).
    rewrite !expand_same by assumption. reflexivity.
Qed.

Lemma inplace_Ok f r c A B :
  shape r c A -> shape r c B -> inplace f A B = Ok (zipT f A B).
Proof.
  intros HA HB. unfold inplace. rewrite (elementwise_Ok f r c A B HA HB).
  cbn. pose proof (shape_zipT f r c A B HA HB) as HZ.
  replace (nrows (zipT f A B) =? nrows A)%nat with true.
  2:{ symmetry. apply Nat.eqb_eq. unfold nrows. destruct HA, HZ. congruence. }
  replace (ncols (zipT f A B) =? ncols A)%nat with true; [reflexivity|].
  symmetry. apply Nat.eqb_eq. destruct r as [|r].
  - rewrite (shape_nil_inv _ _ HA). reflexivity.
  - rewrite (ncols_shape _ _ _ HA), (ncols_shape _ _ _ HZ). reflexivity.
Qed.

(** A linear layer is the product with the rows of its weight. *)
Lemma nth_col j k M :
  (j < length M)%nat -> nth j (col k M) 0 = nth k (nth j M []) 0.
Proof.
  intros Hj. unfold col.
  rewrite (nth_indep _ 0 ((fun row => nth k row 0) [])) by (rewrite length_map; exact Hj).
  apply (map_nth (fun row => nth k row 0)).
Qed.

Lemma map_nth_seq (l : list R) : map (fun k => nth k l 0) (seq 0 (length l)) = l.
Proof.
  apply nth_ext with (d := 0) (d' := 0).
  - rewrite length_map, length_seq. reflexivity.
  - intros n Hn. rewrite length_map, length_seq in Hn.
    rewrite (nth_indep _ 0 ((fun k => nth k l 0) 0%nat)) by (rewrite length_map, length_seq; exact Hn).
    rewrite (map_nth (fun k => nth k l 0)), seq_nth by exact Hn. reflexivity.
Qed.

Lemma map_nth_rows {B} (f : list R -> B) (M : tensor) :
  map (fun j => f (nth j M [])) (seq 0 (length M)) = map f M.
Proof.
  induction M as [|row M IH]; [reflexivity|].
  cbn [length seq map nth]. f_equal. rewrite <- seq_shift, map_map. exact IH.
Qed.

Lemma col_transpose o h j W :
  shape (S o) h W -> (j < S o)%nat -> col j (transpose W) = nth j W [].
Proof.
  intros HW Hj. unfold transpose. rewrite (ncols_shape _ _ _ HW).
  unfold col at 1. rewrite map_map.
  assert (Hlen : length (nth j W []) = h).
  { destruct HW as [H1 H2]. rewrite Forall_forall in H2.
    apply H2, list_elem_of_In, nth_In. lia. }
  transitivity (map (fun k => nth k (nth j W []) 0) (seq 0 (length (nth j W []))));
    [|apply map_nth_seq].
  rewrite Hlen. apply map_ext. intros k. apply nth_col. destruct HW; lia.
Qed.

Lemma mmul_transpose o h v W :
  shape (S o) (S h) W -> mmul v (transpose W) = rowsdot v W.
Proof.
  intros HW. unfold mmul, rowsdot. apply map_ext. intros vr.
  pose proof (shape_transpose _ _ _ HW) as HT.
  rewrite (ncols_shape _ _ _ HT).
  replace (S o) with (length W) by (destruct HW; auto).
  rewrite <- (map_nth_rows (dot vr) W).
  apply map_ext_in. intros j Hj. apply in_seq in Hj.
  rewrite (col_transpose o (S h) j W HW) by (destruct HW; lia). reflexivity.
Qed.

Lemma linear_Ok r o h v W :
  shape r (S h) v -> shape (S o) (S h) W ->
  TemporalPC.linear W v = Ok (rowsdot v W).
Proof.
  intros Hv HW. unfold TemporalPC.linear.
  pose proof (shape_transpose _ _ _ HW) as [HT _].
  rewrite (matmul_Ok r (S h) v (transpose W) Hv HT).
  rewrite (mmul_transpose o h v W HW). reflexivity.
Qed.

(** ** Sums over tensors *)

Lemma tsum_cons row M : tsum (row :: M) = sumR row + tsum M.
Proof. reflexivity. Qed.

Lemma frob_cons a A b B : frob (a :: A) (b :: B) = dot a b + frob A B.
Proof. reflexivity. Qed.

Lemma frob_nil_l B : frob [] B = 0.
Proof. reflexivity. Qed.

Lemma frob_nil_r A : frob A [] = 0.
Proof. destruct A; reflexivity. Qed.

Lemma frob_opp_r A : forall B, frob A (tmap Ropp B) = - frob A B.
Proof.
  induction A as [|a A IH]; intros [|b B]; unfold tmap; cbn [map];
    rewrite ?frob_nil_l, ?frob_nil_r; try lra.
  rewrite !frob_cons, dot_opp_r. unfold tmap in IH. rewrite IH. ring.
Qed.

Lemma frob_zero_r A : forall B, frob A (tmap (fun _ => 0) B) = 0.
Proof.
  induction A as [|a A IH]; intros [|b B]; unfold tmap; cbn [map];
    rewrite ?frob_nil_l, ?frob_nil_r; try lra.
  rewrite frob_cons, dot_zero_r. unfold tmap in IH. rewrite IH. ring.
Qed.

Lemma frob_minus_r V r c : forall A B,
  shape r c A -> shape r c B ->
  frob V (zipT Rminus A B) = frob V A - frob V B.
Proof.
  revert V. induction r as [|r IH]; intros V A B HA HB.
  - rewrite (shape_nil_inv _ _ HA), (shape_nil_inv _ _ HB).
    unfold zipT. cbn. rewrite frob_nil_r. lra.
  - apply shape_cons_inv in HA as (a & A' & -> & Ha & HA).
    apply shape_cons_inv in HB as (b & B' & -> & Hb & HB).
    unfold zipT. cbn [zip_with]. destruct V as [|v V]; [rewrite !frob_nil_l; lra|].
    rewrite !frob_cons, dot_minus_r by congruence.
    fold (zipT Rminus A' B'). rewrite (IH V A' B' HA HB). ring.
Qed.

Lemma frob_minus_l V r c : forall A B,
  shape r c A -> shape r c B ->
  frob (zipT Rminus A B) V = frob A V - frob B V.
Proof.
  revert V. induction r as [|r IH]; intros V A B HA HB.
  - rewrite (shape_nil_inv _ _ HA), (shape_nil_inv _ _ HB).
    unfold zipT. cbn [zip_with]. rewrite !frob_nil_l. lra.
  - apply shape_cons_inv in HA as (a & A' & -> & Ha & HA).
    apply shape_cons_inv in HB as (b & B' & -> & Hb & HB).
    unfold zipT. cbn [zip_with]. destruct V as [|v V]; [rewrite !frob_nil_r; lra|].
    rewrite !frob_cons, dot_minus_l by congruence.
    fold (zipT Rminus A' B'). rewrite (IH V A' B' HA HB). ring.
Qed.

Lemma frob_rearrange (f : R -> R) r c : forall M z g,
  shape r c M -> shape r c z -> shape r c g ->
  frob M (zipT (fun v d => f v * d) z (tmap Ropp g))
  = - frob (zipT Rmult (tmap f z) M) g.
Proof.
  induction r as [|r IH]; intros M z g HM Hz Hg.
  - rewrite (shape_nil_inv _ _ HM), (shape_nil_inv _ _ Hz), (shape_nil_inv _ _ Hg).
    cbn. lra.
  - apply shape_cons_inv in HM as (m1 & M' & -> & Hm1 & HM).
    apply shape_cons_inv in Hz as (z1 & z' & -> & Hz1 & Hz).
    apply shape_cons_inv in Hg as (g1 & g' & -> & Hg1 & Hg).
    unfold zipT, tmap. cbn [map zip_with]. rewrite !frob_cons.
    rewrite dot_rearrange by congruence.
    fold (tmap Ropp g'). fold (tmap f z').
    fold (zipT (fun v d => f v * d) z' (tmap Ropp g')).
    fold (zipT Rmult (tmap f z') M').
    rewrite (IH M' z' g' HM Hz Hg). ring.
Qed.

Lemma tsum_double_products A : forall B,
  tsum (zipT (fun v d => 2 * v * d) A B) = 2 * frob A B.
Proof.
  induction A as [|a A IH]; intros [|b B]; unfold zipT; cbn [zip_with];
    rewrite ?frob_nil_l, ?frob_nil_r; try (cbn; lra).
  rewrite tsum_cons, frob_cons, sumR_double_products.
  fold (zipT (fun v d => 2 * v * d) A B). rewrite IH. ring.
Qed.

Lemma frob_self_nonneg A : 0 <= frob A A.
Proof.
  induction A as [|a A IH]; [rewrite frob_nil_l; lra|].
  rewrite frob_cons. pose proof (dot_self_nonneg a). lra.
Qed.

Lemma frob_self_zero A : frob A A = 0 -> Forall (Forall (fun v => v = 0)) A.
Proof.
  induction A as [|a A IH]; [constructor|].
  rewrite frob_cons. intros H.
  pose proof (dot_self_nonneg a). pose proof (frob_self_nonneg A).
  constructor; [apply dot_self_zero; lra | apply IH; lra].
Qed.

Lemma zipT_minus_scale_zero r c t : forall z g,
  shape r c z -> shape r c g -> Forall (Forall (fun v => v = 0)) g ->
  zipT Rminus z (scale t g) = z.
Proof.
  induction r as [|r IH]; intros z g Hz Hg H0.
  - rewrite (shape_nil_inv _ _ Hz). reflexivity.
  - apply shape_cons_inv in Hz as (z1 & z' & -> & Hz1 & Hz).
    apply shape_cons_inv in Hg as (g1 & g' & -> & Hg1 & Hg).
    apply Forall_cons in H0 as [H1 H0].
    unfold zipT, scale, tmap. cbn [map zip_with].
    rewrite zip_minus_scale_zero by (auto; congruence).
    f_equal. apply (IH z' g' Hz Hg H0).
Qed.

Lemma zipT_minus_scale_0 r c : forall z g,
  shape r c z -> shape r c g -> zipT Rminus z (scale 0 g) = z.
Proof.
  induction r as [|r IH]; intros z g Hz Hg.
  - rewrite (shape_nil_inv _ _ Hz). reflexivity.
  - apply shape_cons_inv in Hz as (z1 & z' & -> & Hz1 & Hz).
    apply shape_cons_inv in Hg as (g1 & g' & -> & Hg1 & Hg).
    unfold zipT, scale, tmap. cbn [map zip_with].
    rewrite zip_minus_scale_0 by congruence.
    f_equal. apply (IH z' g' Hz Hg).
Qed.

(** *** The product with a matrix and the product with its transpose *)

Lemma dot_zeros_l {A} (l : list A) : forall v, dot (map (fun _ => 0) l) v = 0.
Proof.
  induction l as [|a l IH]; intros [|b v]; cbn [map];
    rewrite ?dot_nil_l, ?dot_nil_r; try lra.
  rewrite dot_cons, IH. ring.
Qed.

Lemma dot_map_combine {A} (f g : A -> R) (c : R) (l : list A) : forall v,
  dot (map (fun k => c * f k + g k) l) v
  = c * dot (map f l) v + dot (map g l) v.
Proof.
  induction l as [|a l IH]; intros [|b v]; cbn [map];
    rewrite ?dot_nil_l, ?dot_nil_r; try lra.
  rewrite !dot_cons, IH. ring.
Qed.

Lemma dot_adjoint h v : forall W e,
  length e = length W -> Forall (fun w => length w = h) W -> length v = h ->
  dot e (map (dot v) W) = dot (map (fun k => dot e (col k W)) (seq 0 h)) v.
Proof.
  induction W as [|w W IH]; intros [|e1 e] Hlen HW Hv; simpl in Hlen;
    try discriminate.
  - cbn [map]. rewrite dot_nil_l.
    rewrite (map_ext (fun k => dot [] (col k [])) (fun _ => 0)) by reflexivity.
    rewrite dot_zeros_l. reflexivity.
  - apply Forall_cons in HW as [Hw HW]. cbn [map]. rewrite dot_cons.
    rewrite (IH e) by (auto; lia).
    rewrite (map_ext (fun k => dot (e1 :: e) (col k (w :: W)))
               (fun k => e1 * nth k w 0 + dot e (col k W))) by reflexivity.
    rewrite dot_map_combine. rewrite <- Hw, map_nth_seq, (dot_comm v w).
    rewrite Hw. reflexivity.
Qed.

Lemma frob_adjoint r o h : forall e v W,
  shape r (S o) e -> shape r h v -> shape (S o) h W ->
  frob e (rowsdot v W) = frob (mmul e W) v.
Proof.
  induction r as [|r IH]; intros e v W He Hv HW.
  - rewrite (shape_nil_inv _ _ He). reflexivity.
  - apply shape_cons_inv in He as (e1 & e' & -> & He1 & He).
    apply shape_cons_inv in Hv as (v1 & v' & -> & Hv1 & Hv).
    unfold rowsdot, mmul. cbn [map]. rewrite !frob_cons.
    fold (rowsdot v' W). fold (mmul e' W).
    rewrite (IH e' v' W He Hv HW), (ncols_shape _ _ _ HW).
    rewrite (dot_adjoint h v1 W e1); [reflexivity| |apply HW|exact Hv1].
    destruct HW; congruence.
Qed.

(** ** Curves *)

Lemma d0_change f g d d' : (forall t, g t = f t) -> d' = d -> d0 f d -> d0 g d'.
Proof. intros Hfg -> Hf. eapply d0_ext; [|exact Hf]. intros t. symmetry. apply Hfg. Qed.

Lemma evalT_cconst M t : evalT (cconst M) t = M.
Proof.
  unfold evalT, evalv, cconst. rewrite map_map.
  rewrite <- (map_id M) at 2. apply map_ext. intros row.
  rewrite map_map. apply map_id.
Qed.

Lemma evalT_cline t : forall M G, evalT (cline M G) t = zipT Rminus M (scale t G).
Proof.
  assert (Hrow : forall m g : list R,
            evalv (zip_with (fun v g t => v - t * g) m g) t
            = zip_with Rminus m (map (Rmult t) g)).
  { induction m as [|m1 m IH]; intros [|g1 g]; try reflexivity.
    cbn [zip_with map evalv]. f_equal. apply IH. }
  induction M as [|m M IH]; intros [|g G]; try reflexivity.
  unfold cline, zipT, scale, tmap. cbn [zip_with map evalT].
  f_equal; [apply Hrow | apply IH].
Qed.

Lemma evalT_cminus t : forall F G,
  evalT (cminus F G) t = zipT Rminus (evalT F t) (evalT G t).
Proof.
  assert (Hrow : forall f g : list (R -> R),
            evalv (zip_with (fun f g t => f t - g t) f g) t
            = zip_with Rminus (evalv f t) (evalv g t)).
  { induction f as [|f1 f IH]; intros [|g1 g]; try reflexivity.
    cbn [zip_with map evalv]. f_equal. apply IH. }
  induction F as [|f F IH]; intros [|g G]; try reflexivity.
  unfold cminus, zipT. cbn [zip_with map evalT].
  f_equal; [apply Hrow | apply IH].
Qed.

Lemma evalT_cmap phi F t : evalT (cmap phi F) t = tmap phi (evalT F t).
Proof.
  unfold evalT, evalv, cmap, tmap. rewrite !map_map. apply map_ext. intros row.
  rewrite !map_map. reflexivity.
Qed.

Lemma evalT_crowsdot F W t : evalT (crowsdot F W) t = rowsdot (evalT F t) W.
Proof.
  unfold evalT, crowsdot, rowsdot. rewrite !map_map. apply map_ext. intros fs.
  unfold evalv at 1. rewrite map_map. reflexivity.
Qed.

Lemma dT_cline r c : forall M G,
  shape r c M -> shape r c G -> dT (cline M G) (tmap Ropp G).
Proof.
  assert (Hrow : forall m g : list R, length m = length g ->
            dv (zip_with (fun v g t => v - t * g) m g) (map Ropp g)).
  { induction m as [|m1 m IH]; intros [|g1 g] Hlen; simpl in Hlen; try discriminate;
      [constructor|].
    cbn [zip_with map]. constructor; [apply d0_line | apply IH; lia]. }
  induction r as [|r IH]; intros M G HM HG.
  - rewrite (shape_nil_inv _ _ HM), (shape_nil_inv _ _ HG). constructor.
  - apply shape_cons_inv in HM as (m1 & M' & -> & Hm1 & HM).
    apply shape_cons_inv in HG as (g1 & G' & -> & Hg1 & HG).
    unfold cline, tmap. cbn [zip_with map]. constructor.
    + apply Hrow. congruence.
    + apply (IH M' G' HM HG).
Qed.

(** Taking a constant tensor away does not change the derivative. *)
Lemma dT_minus_const r c : forall F D P,
  dT F D -> shape r c D -> shape r c P -> dT (cminus F (cconst P)) D.
Proof.
  assert (Hrow : forall (fs : list (R -> R)) ds (p : list R),
            dv fs ds -> length ds = length p ->
            dv (zip_with (fun f g t => f t - g t) fs (map (fun v _ => v) p)) ds).
  { intros fs ds p H. revert p. induction H as [|f d fs ds Hf H IH];
      intros [|p1 p] Hlen; simpl in Hlen; try discriminate; [constructor|].
    cbn [zip_with map]. constructor; [|apply IH; lia].
    apply (d0_change (fun t => f t - p1) _ (d - 0));
      [reflexivity | lra | apply (d0_minus f (fun _ => p1) d 0 Hf (d0_const p1))]. }
  induction r as [|r IH]; intros F D P HF HD HP.
  - rewrite (shape_nil_inv _ _ HD) in *. inversion HF; subst. constructor.
  - apply shape_cons_inv in HD as (d1 & D' & -> & Hd1 & HD).
    apply shape_cons_inv in HP as (p1 & P' & -> & Hp1 & HP).
    inversion HF as [|f1 ? F' ? Hf1 HF']; subst.
    unfold cminus, cconst. cbn [zip_with map]. constructor.
    + apply Hrow; [exact Hf1 | congruence].
    + apply (IH F' D' P' HF' HD HP).
Qed.

Lemma dT_cminus : forall F D G D',
  dT F D -> dT G D' -> dT (cminus F G) (zipT Rminus D D').
Proof.
  assert (Hrow : forall (fs : list (R -> R)) ds, dv fs ds ->
            forall gs ds', dv gs ds' ->
            dv (zip_with (fun f g t => f t - g t) fs gs) (zip_with Rminus ds ds')).
  { intros fs ds H. induction H as [|f d fs ds Hf H IH]; intros gs ds' H';
      [constructor|].
    destruct H' as [|g d' gs ds' Hg H']; [constructor|].
    cbn [zip_with]. constructor; [apply d0_minus; assumption | apply IH; exact H']. }
  intros F D G D' HF. revert G D'.
  induction HF as [|f d F D Hf HF IH]; intros G D' HG; [constructor|].
  destruct HG as [|g d' G D' Hg HG]; [constructor|].
  unfold cminus, zipT. cbn [zip_with]. constructor; [apply Hrow; assumption|].
  apply IH. exact HG.
Qed.

Lemma dT_cmap (phi phi' : R -> R) F D :
  (forall v, derivable_pt_lim phi v (phi' v)) ->
  dT F D -> dT (cmap phi F) (zipT (fun v d => phi' v * d) (evalT F 0) D).
Proof.
  intros Hphi.
  assert (Hrow : forall (fs : list (R -> R)) ds, dv fs ds ->
            dv (map (fun f t => phi (f t)) fs)
               (zip_with (fun v d => phi' v * d) (evalv fs 0) ds)).
  { intros fs ds H. induction H as [|f d fs ds Hf H IH]; [constructor|].
    cbn [map zip_with evalv]. constructor; [|exact IH].
    apply d0_comp; assumption. }
  intros HF. induction HF as [|f d F D Hf HF IH]; [constructor|].
  unfold cmap, zipT. cbn [map zip_with evalT]. constructor; [apply Hrow; exact Hf|].
  exact IH.
Qed.

Lemma d0_dot fs ds : dv fs ds -> forall w, d0 (fun t => dot (evalv fs t) w) (dot ds w).
Proof.
  intros H. induction H as [|f d fs ds Hf H IH]; intros [|w1 w].
  - apply (d0_change (fun _ => 0) _ 0); [reflexivity | reflexivity | apply d0_const].
  - apply (d0_change (fun _ => 0) _ 0); [reflexivity | reflexivity | apply d0_const].
  - apply (d0_change (fun _ => 0) _ 0); [| |apply d0_const].
    + intros t. apply dot_nil_r.
    + apply dot_nil_r.
  - apply (d0_change (fun t => f t * w1 + dot (evalv fs t) w) _ (d * w1 + dot ds w)).
    + intros t. cbn [evalv map]. apply dot_cons.
    + apply dot_cons.
    + apply d0_plus; [|apply IH].
      apply (d0_change (fun t => f t * w1) _ (d * w1 + f 0 * 0));
        [reflexivity | ring | apply (d0_mult f (fun _ => w1) d 0 Hf (d0_const w1))].
Qed.

Lemma dT_crowsdot F D W : dT F D -> dT (crowsdot F W) (rowsdot D W).
Proof.
  intros HF. induction HF as [|fs ds F D Hf HF IH]; [constructor|].
  unfold crowsdot, rowsdot. cbn [map]. constructor; [|exact IH].
  clear -Hf. induction W as [|w W IHW]; [constructor|].
  cbn [map]. constructor; [|exact IHW].
  eapply d0_eq; [|apply (d0_dot fs ds Hf w)]. reflexivity.
Qed.

Lemma d0_sum_squares F D :
  dT F D -> d0 (fun t => tsum (tsquare (evalT F t))) (2 * frob (evalT F 0) D).
Proof.
  assert (Hrow : forall (fs : list (R -> R)) ds, dv fs ds ->
            d0 (fun t => sumR (map (fun v => v ^ 2) (evalv fs t)))
               (2 * dot (evalv fs 0) ds)).
  { intros fs ds H. induction H as [|f d fs ds Hf H IH].
    - apply (d0_change (fun _ => 0) _ 0); [reflexivity | | apply d0_const].
      cbn [evalv map]. rewrite dot_nil_l. ring.
    - apply (d0_change
               (fun t => f t ^ 2 + sumR (map (fun v => v ^ 2) (evalv fs t))) _
               (2 * f 0 * d + 2 * dot (evalv fs 0) ds)).
      + intros t. reflexivity.
      + unfold evalv. cbn [map]. rewrite dot_cons. lra.
      + apply d0_plus; [apply d0_square; exact Hf | exact IH]. }
  intros HF. induction HF as [|fs ds F D Hf HF IH].
  - apply (d0_change (fun _ => 0) _ 0); [reflexivity | | apply d0_const].
    cbn [evalT map]. rewrite frob_nil_l. ring.
  - apply (d0_change
             (fun t => sumR (map (fun v => v ^ 2) (evalv fs t))
                       + tsum (tsquare (evalT F t))) _
             (2 * dot (evalv fs 0) ds + 2 * frob (evalT F 0) D)).
    + intros t. reflexivity.
    + unfold evalT. cbn [map]. rewrite frob_cons. lra.
    + apply d0_plus; [apply Hrow; exact Hf | exact IH].
Qed.

(** ** The descent property on tensors *)

Lemma dT_cconst M : dT (cconst M) (tmap (fun _ => 0) M).
Proof.
  induction M as [|row M IH]; [constructor|].
  unfold cconst, tmap. cbn [map]. constructor; [|exact IH].
  clear. induction row as [|v row IH]; [constructor|].
  cbn [map]. constructor; [apply d0_const | exact IH].
Qed.

Section Descent.
Variable o : TemporalPC.t.
Variables b h out : nat.
Variables P z x : tensor.
Hypothesis shape_z : shape b (S h) z.
Hypothesis shape_P : shape b (S h) P.
Hypothesis shape_x : shape b (S out) x.
Hypothesis shape_Wout : shape (S out) (S h) (TemporalPC.Wout o).

Let nl := TemporalPC.nonlin o.
Let W := TemporalPC.Wout o.
Let e := err_x_at o z x.
Let g := direction o P z x.
Let cZ := latent_curve o P z x.
Let cEz := ez_curve o P z x.
Let cX := obs_curve o z x.
Let cEx := ex_curve o P z x.
Let sl := slope o P z x.

Lemma shape_err_x z' x' :
  shape b (S h) z' -> shape b (S out) x' -> shape b (S out) (err_x_at o z' x').
Proof.
  intros Hz Hx. unfold err_x_at. apply shape_zipT; [exact Hx|].
  eapply shape_rowsdot; [|exact shape_Wout]. apply shape_tmap. exact Hz.
Qed.

Lemma shape_direction : shape b (S h) g.
Proof.
  unfold g, direction. apply shape_zipT.
  - apply shape_zipT; assumption.
  - apply shape_zipT; [apply shape_tmap; exact shape_z|].
    eapply shape_mmul; [apply shape_err_x; assumption | exact shape_Wout].
Qed.

Lemma energy_along update_x t :
  tsum (tsquare (evalT cEz t)) + tsum (tsquare (evalT (cEx update_x) t))
  = energy_at o P (z_after o P z x t) (x_after o z x update_x t).
Proof.
  unfold cEz, cEx, cZ, cX, ez_curve, ex_curve, latent_curve, obs_curve, energy_at,
    err_x_at, z_after, x_after.
  rewrite !evalT_cminus, evalT_crowsdot, evalT_cmap, evalT_cconst, !evalT_cline.
  destruct update_x; [rewrite evalT_cline | rewrite evalT_cconst]; reflexivity.
Qed.

Lemma z_after_0 : z_after o P z x 0 = z.
Proof.
  unfold z_after. apply (zipT_minus_scale_0 b (S h)); [exact shape_z|].
  apply shape_direction.
Qed.

Lemma x_after_0 update_x : x_after o z x update_x 0 = x.
Proof.
  unfold x_after. destruct update_x; [|reflexivity].
  apply (zipT_minus_scale_0 b (S out)); [exact shape_x|].
  apply shape_err_x; assumption.
Qed.

Lemma energy_slope update_x :
  d0 (fun t => energy_at o P (z_after o P z x t) (x_after o z x update_x t))
     (sl update_x).
Proof.
  pose proof shape_direction as Hg.
  pose proof (shape_err_x z x shape_z shape_x) as He. fold e in He.
  assert (Hz0 : evalT cZ 0 = z).
  { unfold cZ, latent_curve. rewrite evalT_cline.
    apply (zipT_minus_scale_0 b (S h)); assumption. }
  assert (HdZ : dT cZ (tmap Ropp g)).
  { apply (dT_cline b (S h)); assumption. }
  assert (HdEz : dT cEz (tmap Ropp g)).
  { apply (dT_minus_const b (S h)); [exact HdZ | apply shape_tmap; exact Hg|exact shape_P]. }
  set (DX := if update_x then tmap Ropp e else tmap (fun _ => 0) x).
  assert (HDX : shape b (S out) DX).
  { subst DX. destruct update_x; apply shape_tmap; assumption. }
  assert (HdX : dT (cX update_x) DX).
  { subst DX. unfold cX, obs_curve. destruct update_x.
    - apply (dT_cline b (S out)); assumption.
    - apply dT_cconst. }
  set (Q := zipT (fun v d => act' nl v * d) z (tmap Ropp g)).
  assert (HQ : shape b (S h) Q).
  { subst Q. apply shape_zipT; [exact shape_z | apply shape_tmap; exact Hg]. }
  assert (HdEx : dT (cEx update_x) (zipT Rminus DX (rowsdot Q W))).
  { unfold cEx, ex_curve. apply dT_cminus; [exact HdX|].
    apply dT_crowsdot. subst Q.
    pose proof (dT_cmap (act nl) (act' nl) cZ _ (act_derivable nl) HdZ) as H.
    rewrite Hz0 in H. exact H. }
  apply (d0_change
           (fun t => tsum (tsquare (evalT cEz t))
                     + tsum (tsquare (evalT (cEx update_x) t))) _
           (2 * frob (evalT cEz 0) (tmap Ropp g)
            + 2 * frob (evalT (cEx update_x) 0) (zipT Rminus DX (rowsdot Q W)))).
  - intros t. symmetry. apply energy_along.
  - assert (HEz0 : evalT cEz 0 = zipT Rminus z P).
    { unfold cEz, ez_curve. fold cZ. rewrite evalT_cminus, evalT_cconst, Hz0. reflexivity. }
    assert (HEx0 : evalT (cEx update_x) 0 = e).
    { unfold cEx, ex_curve. fold cZ. rewrite evalT_cminus, evalT_crowsdot, evalT_cmap, Hz0.
      unfold e, err_x_at. f_equal. unfold obs_curve.
      destruct update_x; [|apply evalT_cconst].
      rewrite evalT_cline. apply (zipT_minus_scale_0 b (S out)); assumption. }
    rewrite HEz0, HEx0.
    rewrite frob_opp_r.
    rewrite (frob_minus_r e b (S out) DX (rowsdot Q W) HDX
               (shape_rowsdot _ _ _ _ _ HQ shape_Wout)).
    rewrite (frob_adjoint b out (S h) e Q W He HQ shape_Wout).
    subst Q. rewrite (frob_rearrange (act' nl) b (S h) (mmul e W) z g);
      [|eapply shape_mmul; [exact He | exact shape_Wout] | exact shape_z | exact Hg].
    assert (Hgg : frob g g
                  = frob (zipT Rminus z P) g
                    - frob (zipT Rmult (tmap (act' nl) z) (mmul e W)) g).
    { unfold g at 1. unfold direction.
      apply (frob_minus_l g b (S h)).
      - apply shape_zipT; assumption.
      - apply shape_zipT; [apply shape_tmap; exact shape_z|].
        eapply shape_mmul; [exact He | exact shape_Wout]. }
    unfold sl, slope. fold g e. rewrite Hgg. subst DX.
    destruct update_x; [rewrite frob_opp_r | rewrite frob_zero_r]; lra.
  - apply d0_plus; apply d0_sum_squares; assumption.
Qed.

(** No step size up to some positive bound increases the energy. *)
Lemma descent_step update_x :
  exists bound, 0 < bound /\
    forall t, 0 < t <= bound ->
      energy_at o P (z_after o P z x t) (x_after o z x update_x t)
      <= energy_at o P z x.
Proof.
  pose proof (energy_slope update_x) as Hd.
  pose proof (frob_self_nonneg g) as Hg. pose proof (frob_self_nonneg e) as He.
  destruct (Rlt_dec (sl update_x) 0) as [Hneg|Hzero].
  - destruct (d0_descent _ _ Hd Hneg) as (bound & Hb & Hlt).
    exists bound. split; [exact Hb|]. intros t Ht.
    specialize (Hlt t Ht). rewrite z_after_0, x_after_0 in Hlt. lra.
  - exists 1. split; [lra|]. intros t _.
    assert (Hg0 : frob g g = 0).
    { unfold sl, slope in Hzero. fold g e in Hzero. destruct update_x; lra. }
    assert (Hz1 : z_after o P z x t = z).
    { unfold z_after. apply (zipT_minus_scale_zero b (S h));
        [exact shape_z | apply shape_direction | apply frob_self_zero; exact Hg0]. }
    assert (Hx1 : x_after o z x update_x t = x).
    { unfold x_after. destruct update_x; [|reflexivity].
      apply (zipT_minus_scale_zero b (S out)); [exact shape_x| |].
      - apply shape_err_x; assumption.
      - apply frob_self_zero. unfold sl, slope in Hzero. fold g e in Hzero. fold e. lra. }
    rewrite Hz1, Hx1. lra.
Qed.

End Descent.

(** ** The descent property of [update_nodes] *)

Lemma shape_scale t r c M : shape r c M -> shape r c (scale t M).
Proof. apply shape_tmap. Qed.

Section Link.
Import TemporalPC.
Variable o : t.
Variables b c h out : nat.
Variables zv xv uv pv : tensor.
Hypothesis shape_z : shape b (S h) zv.
Hypothesis shape_x : shape b (S out) xv.
Hypothesis shape_u : shape b (S c) uv.
Hypothesis shape_p : shape b (S h) pv.
Hypothesis shape_Win : shape (S h) (S c) (Win o).
Hypothesis shape_Wr : shape (S h) (S h) (Wr o).
Hypothesis shape_Wout : shape (S out) (S h) (Wout o).

Lemma shape_pred_latent : shape b (S h) (pred_latent o uv pv).
Proof.
  unfold pred_latent. apply shape_zipT.
  - eapply shape_rowsdot; [apply shape_tmap; exact shape_u | exact shape_Win].
  - eapply shape_rowsdot; [apply shape_tmap; exact shape_p | exact shape_Wr].
Qed.

Lemma pc_forward_Ok : exists px, forward o uv pv = Ok (pred_latent o uv pv, px).
Proof.
  unfold forward, activate.
  rewrite (linear_Ok b h c _ (Win o) (shape_tmap _ _ _ _ shape_u) shape_Win).
  cbn. rewrite (linear_Ok b h h _ (Wr o) (shape_tmap _ _ _ _ shape_p) shape_Wr).
  cbn. unfold tadd.
  rewrite (elementwise_Ok Rplus b (S h) _ _
             (shape_rowsdot _ _ _ _ _ (shape_tmap _ _ _ _ shape_u) shape_Win)
             (shape_rowsdot _ _ _ _ _ (shape_tmap _ _ _ _ shape_p) shape_Wr)).
  cbn. fold (activate (nonlin o) uv). fold (activate (nonlin o) pv).
  fold (pred_latent o uv pv).
  rewrite (linear_Ok b out h _ (Wout o)
             (shape_tmap _ _ _ _ shape_pred_latent) shape_Wout).
  cbn. eexists. reflexivity.
Qed.

Lemma pc_errors_Ok :
  TemporalPC.errs_of o zv xv uv pv
  = Ok (zipT Rminus zv (pred_latent o uv pv), err_x_at o zv xv).
Proof.
  unfold TemporalPC.errs_of. destruct pc_forward_Ok as [px ->]. cbn.
  unfold activate.
  rewrite (linear_Ok b out h _ (Wout o) (shape_tmap _ _ _ _ shape_z) shape_Wout).
  cbn. unfold tsub.
  rewrite (elementwise_Ok Rminus b (S h) _ _ shape_z shape_pred_latent). cbn.
  rewrite (elementwise_Ok Rminus b (S out) _ _ shape_x
             (shape_rowsdot _ _ _ _ _ (shape_tmap _ _ _ _ shape_z) shape_Wout)).
  reflexivity.
Qed.

Lemma pc_energy_Ok :
  TemporalPC.energy_of o zv xv uv pv = Ok (energy_at o (pred_latent o uv pv) zv xv).
Proof. unfold TemporalPC.energy_of. rewrite pc_errors_Ok. reflexivity. Qed.

(** With fitting shapes a round of [update_nodes] completes: it leaves the
    latent state and, with [update_x], the observation one step of size
    [inf_lr] further. *)
Lemma pc_update_nodes_Ok m x u prev_z zl inf_lr update_x :
  z o = Some zl -> m !! zl = Some zv -> m !! x = Some xv ->
  m !! u = Some uv -> m !! prev_z = Some pv -> zl <> x ->
  update_nodes x u prev_z inf_lr update_x (World m o)
  = (World
       (if update_x
        then <[x := x_after o zv xv true inf_lr]>
               (<[zl := z_after o (pred_latent o uv pv) zv xv inf_lr]> m)
        else <[zl := z_after o (pred_latent o uv pv) zv xv inf_lr]> m) o,
     Ok tt).
Proof.
  intros Hz Hzv Hx Hu Hp Hne.
  pose proof shape_pred_latent as HP.
  pose proof (shape_err_x o b h out shape_Wout zv xv shape_z shape_x) as He.
  pose proof (shape_direction o b h out _ zv xv shape_z HP shape_x shape_Wout) as Hg.
  unfold update_nodes.
  rewrite bind_unfold, (pc_update_errs_eq _ _ _ _ _ _ _ _ _ _ Hx Hu Hp Hz Hzv).
  rewrite pc_errors_Ok. cbn.
  unfold get_self, set_self, load, store, read. unfold_action. cbn.
  rewrite Hz. cbn. rewrite Hzv. cbn.
  rewrite (matmul_Ok b (S out) _ (Wout o) He) by (destruct shape_Wout; auto).
  cbn. unfold tmul, tsub.
  assert (HeW : shape b (S h) (mmul (err_x_at o zv xv) (Wout o))).
  { eapply shape_mmul; [exact He | exact shape_Wout]. }
  assert (Hd : shape b (S h) (deriv (nonlin o) zv)) by (apply shape_tmap; exact shape_z).
  rewrite (elementwise_Ok Rmult b (S h) (deriv (nonlin o) zv) _ Hd HeW). cbn.
  rewrite (elementwise_Ok Rminus b (S h) _ _
             (shape_zipT Rminus _ _ _ _ shape_z HP)
             (shape_zipT Rmult _ _ _ _ Hd HeW)). cbn.
  fold (direction o (pred_latent o uv pv) zv xv).
  rewrite (inplace_Ok Rminus b (S h) _ _ shape_z (shape_scale inf_lr _ _ _ Hg)). cbn.
  fold (z_after o (pred_latent o uv pv) zv xv inf_lr).
  destruct update_x; cbn; [|reflexivity].
  rewrite lookup_insert_ne by exact Hne. rewrite Hx. cbn.
  rewrite (inplace_Ok Rminus b (S out) _ _ shape_x (shape_scale inf_lr _ _ _ He)).
  reflexivity.
Qed.

End Link.

(** What [update_grads] returns, from the values of the tensors it reads. *)
Lemma pc_update_grads_energy m o x u prev_z zl xv uv pv zv :
  m !! x = Some xv -> m !! u = Some uv -> m !! prev_z = Some pv ->
  TemporalPC.z o = Some zl -> m !! zl = Some zv ->
  (TemporalPC.update_grads x u prev_z (World m o)).2
  = TemporalPC.energy_of o zv xv uv pv.
Proof.
  intros Hx Hu Hp Hz Hzv. unfold TemporalPC.update_grads, TemporalPC.energy_of.
  rewrite bind_unfold, (pc_update_errs_eq _ _ _ _ _ _ _ _ _ _ Hx Hu Hp Hz Hzv).
  destruct (TemporalPC.errs_of o zv xv uv pv) as [[ez ex]|e]; reflexivity.
Qed.

(** C7: [update_grads] recomputes the two errors at the current latent
    estimate, [ez = z - (Win nonlin(u) + Wr nonlin(prev_z))] and
    [ex = x - Wout nonlin(z)], and returns the sum of the squared entries
    of [ez] plus the sum of the squared entries of [ex]; it keeps the two
    sums in [hidden_loss] and [obs_loss].  That is for tensors of fitting
    shapes, one sample per row.  Whatever the shapes are, and whether the
    call returns or raises, it changes neither the weight matrices nor any
    tensor of the store. *)
Theorem C7_update_grads_is_the_energy
    (w : world TemporalPC.t) (x u prev_z zl : loc) (xv uv pv zv : tensor) :
  mem w !! x = Some xv -> mem w !! u = Some uv -> mem w !! prev_z = Some pv ->
  TemporalPC.z (self w) = Some zl -> mem w !! zl = Some zv ->
  let o := self w in
  let r := TemporalPC.update_grads x u prev_z w in
  (TemporalPC.Win (self r.1) = TemporalPC.Win o /\
   TemporalPC.Wr (self r.1) = TemporalPC.Wr o /\
   TemporalPC.Wout (self r.1) = TemporalPC.Wout o /\
   TemporalPC.z (self r.1) = TemporalPC.z o /\
   mem r.1 = mem w) /\
  (forall b c h out : nat,
     is_shape b (S h) zv = true -> is_shape b (S out) xv = true ->
     is_shape b (S c) uv = true -> is_shape b (S h) pv = true ->
     is_shape (S h) (S c) (TemporalPC.Win o) = true ->
     is_shape (S h) (S h) (TemporalPC.Wr o) = true ->
     is_shape (S out) (S h) (TemporalPC.Wout o) = true ->
     let ez := EnergySpec.latent_error (TemporalPC.nonlin o) (TemporalPC.Win o)
                 (TemporalPC.Wr o) zv uv pv in
     let ex := EnergySpec.obs_error (TemporalPC.nonlin o) (TemporalPC.Wout o) zv xv in
     r.2 = Ok (tsum (tsquare ez) + tsum (tsquare ex)) /\
     r.2 = Ok (EnergySpec.energy (TemporalPC.nonlin o) (TemporalPC.Win o)
                 (TemporalPC.Wr o) (TemporalPC.Wout o) zv xv uv pv) /\
     TemporalPC.hidden_loss (self r.1) = Some (tsum (tsquare ez)) /\
     TemporalPC.obs_loss (self r.1) = Some (tsum (tsquare ex))).
Proof.
  intros Hx Hu Hp Hz Hzv o r. subst o r. destruct w as [m o]. cbn [self mem] in *.
  unfold TemporalPC.update_grads.
  rewrite bind_unfold, (pc_update_errs_eq _ _ _ _ _ _ _ _ _ _ Hx Hu Hp Hz Hzv).
  split.
  - destruct (TemporalPC.errs_of o zv xv uv pv) as [[ez ex]|e]; cbn;
      split_and!; reflexivity.
  - intros b c h out Sz Sx Su Sp SWin SWr SWout.
    apply is_shape_spec in Sz, Sx, Su, Sp, SWin, SWr, SWout.
    rewrite (pc_errors_Ok o b c h out zv xv uv pv Sz Sx Su Sp SWin SWr SWout).
    cbn. split_and!; reflexivity.
Qed.

(** C5: for the differentiable solver, with the observation, the control
    and the previous latent state as they are, one application of
    [update_nodes] with a small enough positive [inf_lr] does not increase
    the energy, the sum of the squared entries of [ez] plus that of [ex] as
    [update_grads] returns it, before and after the update: there is a
    positive bound such that every [inf_lr] from 0 up to the bound, the
    bound itself among them, has the property.  It holds with and without
    [update_x].  The tensors have fitting shapes, the latent state is a
    tensor of its own, and [x] is none of [u] and [prev_z]. *)
Theorem C5_small_step_does_not_increase_energy
    (w : world TemporalPC.t) (x u prev_z zl : loc) (xv uv pv zv : tensor)
    (b c h out : nat) (update_x : bool) :
  TemporalPC.z (self w) = Some zl -> mem w !! zl = Some zv ->
  mem w !! x = Some xv -> mem w !! u = Some uv -> mem w !! prev_z = Some pv ->
  zl <> x -> zl <> u -> zl <> prev_z -> x <> u -> x <> prev_z ->
  is_shape b (S h) zv = true -> is_shape b (S out) xv = true ->
  is_shape b (S c) uv = true -> is_shape b (S h) pv = true ->
  is_shape (S h) (S c) (TemporalPC.Win (self w)) = true ->
  is_shape (S h) (S h) (TemporalPC.Wr (self w)) = true ->
  is_shape (S out) (S h) (TemporalPC.Wout (self w)) = true ->
  exists bound, 0 < bound /\
    forall inf_lr, 0 < inf_lr <= bound ->
      exists w' E E',
        TemporalPC.update_nodes x u prev_z inf_lr update_x w = (w', Ok tt) /\
        (TemporalPC.update_grads x u prev_z w).2 = Ok E /\
        (TemporalPC.update_grads x u prev_z w').2 = Ok E' /\
        E' <= E.
Proof.
  intros Hz Hzv Hx Hu Hp N1 N2 N3 N4 N5 Sz Sx Su Sp SWin SWr SWout.
  apply is_shape_spec in Sz, Sx, Su, Sp, SWin, SWr, SWout.
  destruct w as [m o]. cbn in *.
  pose proof (shape_pred_latent o b c h uv pv Su Sp SWin SWr) as SP.
  destruct (descent_step o b h out (pred_latent o uv pv) zv xv Sz SP Sx SWout update_x)
    as (bound & Hb & Hle).
  exists bound. split; [exact Hb|]. intros t Ht. specialize (Hle t Ht).
  pose proof (shape_err_x o b h out SWout zv xv Sz Sx) as Se.
  pose proof (shape_direction o b h out _ zv xv Sz SP Sx SWout) as Sg.
  eexists. exists (energy_at o (pred_latent o uv pv) zv xv).
  exists (energy_at o (pred_latent o uv pv)
            (z_after o (pred_latent o uv pv) zv xv t) (x_after o zv xv update_x t)).
  split; [apply (pc_update_nodes_Ok o b c h out zv xv uv pv Sz Sx Su Sp SWin SWr SWout
                   m x u prev_z zl t update_x Hz Hzv Hx Hu Hp N1)|].
  split.
  { rewrite (pc_update_grads_energy m o x u prev_z zl xv uv pv zv Hx Hu Hp Hz Hzv).
    apply (pc_energy_Ok o b c h out zv xv uv pv Sz Sx Su Sp SWin SWr SWout). }
  split; [|exact Hle].
  assert (Sz' : shape b (S h) (z_after o (pred_latent o uv pv) zv xv t)).
  { unfold z_after. apply shape_zipT; [exact Sz | apply shape_scale; exact Sg]. }
  assert (Sx' : shape b (S out) (x_after o zv xv update_x t)).
  { unfold x_after. destruct update_x; [|exact Sx].
    apply shape_zipT; [exact Sx | apply shape_scale; exact Se]. }
  rewrite (pc_update_grads_energy _ o x u prev_z zl
             (x_after o zv xv update_x t) uv pv
             (z_after o (pred_latent o uv pv) zv xv t)).
  - apply (pc_energy_Ok o b c h out _ _ uv pv Sz' Sx' Su Sp SWin SWr SWout).
  - unfold x_after. destruct update_x.
    + apply lookup_insert_eq.
    + rewrite lookup_insert_ne by exact N1. exact Hx.
  - destruct update_x; rewrite ?(lookup_insert_ne _ x u) by exact N4;
      rewrite lookup_insert_ne by exact N2; exact Hu.
  - destruct update_x; rewrite ?(lookup_insert_ne _ x prev_z) by exact N5;
      rewrite lookup_insert_ne by exact N3; exact Hp.
  - exact Hz.
  - destruct update_x; rewrite ?(lookup_insert_ne _ x zl) by (apply not_eq_sym; exact N1);
      apply lookup_insert_eq.
Qed.

(** ** The call of [inference] completes *)

Lemma pc_init_z_Ok m o u prev_z uv pv b c h out :
  m !! u = Some uv -> m !! prev_z = Some pv ->
  shape b (S c) uv -> shape b (S h) pv ->
  shape (S h) (S c) (TemporalPC.Win o) -> shape (S h) (S h) (TemporalPC.Wr o) ->
  shape (S out) (S h) (TemporalPC.Wout o) ->
  TemporalPC.init_z u prev_z (World m o)
  = (World (<[fresh (dom m) := pred_latent o uv pv]> m)
       (TemporalPC.set_z (Some (fresh (dom m))) o), Ok tt).
Proof.
  intros Hu Hp Su Sp SWin SWr SWout.
  unfold TemporalPC.init_z, get_self, set_self, load, alloc. unfold_action. cbn.
  rewrite Hu. cbn. rewrite Hp. cbn.
  destruct (pc_forward_Ok o b c h out uv pv Su Sp SWin SWr SWout) as [px ->].
  reflexivity.
Qed.

Lemma pc_rounds_Ok o b c h out x u prev_z zl uv pv inf_lr update_x :
  shape b (S c) uv -> shape b (S h) pv ->
  shape (S h) (S c) (TemporalPC.Win o) -> shape (S h) (S h) (TemporalPC.Wr o) ->
  shape (S out) (S h) (TemporalPC.Wout o) ->
  TemporalPC.z o = Some zl ->
  zl <> x -> zl <> u -> zl <> prev_z -> x <> u -> x <> prev_z ->
  forall n m zv xv,
    m !! zl = Some zv -> m !! x = Some xv ->
    m !! u = Some uv -> m !! prev_z = Some pv ->
    shape b (S h) zv -> shape b (S out) xv ->
    exists w',
      repeat_n n (TemporalPC.update_nodes x u prev_z inf_lr update_x) (World m o)
      = (w', Ok tt).
Proof.
  intros Su Sp SWin SWr SWout Hz N1 N2 N3 N4 N5.
  induction n as [|n IH]; intros m zv xv Hzv Hx Hu Hp Sz Sx.
  - eexists. reflexivity.
  - pose proof (shape_pred_latent o b c h uv pv Su Sp SWin SWr) as SP.
    pose proof (shape_err_x o b h out SWout zv xv Sz Sx) as Se.
    pose proof (shape_direction o b h out _ zv xv Sz SP Sx SWout) as Sg.
    cbn [repeat_n].
    rewrite (bind_Ok _ _ _ _ _
               (pc_update_nodes_Ok o b c h out zv xv uv pv Sz Sx Su Sp SWin SWr SWout
                  m x u prev_z zl inf_lr update_x Hz Hzv Hx Hu Hp N1)).
    assert (Sz' : shape b (S h) (z_after o (pred_latent o uv pv) zv xv inf_lr)).
    { unfold z_after. apply shape_zipT; [exact Sz | apply shape_scale; exact Sg]. }
    destruct update_x.
    + apply (IH _ (z_after o (pred_latent o uv pv) zv xv inf_lr)
               (x_after o zv xv true inf_lr)).
      * rewrite lookup_insert_ne by (apply not_eq_sym; exact N1).
        apply lookup_insert_eq.
      * apply lookup_insert_eq.
      * rewrite lookup_insert_ne by exact N4.
        rewrite lookup_insert_ne by exact N2. exact Hu.
      * rewrite lookup_insert_ne by exact N5.
        rewrite lookup_insert_ne by exact N3. exact Hp.
      * exact Sz'.
      * unfold x_after. apply shape_zipT; [exact Sx | apply shape_scale; exact Se].
    + apply (IH _ (z_after o (pred_latent o uv pv) zv xv inf_lr) xv).
      * apply lookup_insert_eq.
      * rewrite lookup_insert_ne by exact N1. exact Hx.
      * rewrite lookup_insert_ne by exact N2. exact Hu.
      * rewrite lookup_insert_ne by exact N3. exact Hp.
      * exact Sz'.
      * exact Sx.
Qed.

(** With tensors of fitting shapes, and [x] none of [u] and [prev_z], the
    call returns, whatever the number of rounds. *)
Lemma pc_inference_Ok m o b c h out x u prev_z xv uv pv inf_lr update_x n :
  m !! x = Some xv -> m !! u = Some uv -> m !! prev_z = Some pv ->
  x <> u -> x <> prev_z ->
  shape b (S out) xv -> shape b (S c) uv -> shape b (S h) pv ->
  shape (S h) (S c) (TemporalPC.Win o) -> shape (S h) (S h) (TemporalPC.Wr o) ->
  shape (S out) (S h) (TemporalPC.Wout o) ->
  exists w',
    TemporalPC.inference n inf_lr x u prev_z update_x (World m o) = (w', Ok tt).
Proof.
  intros Hx Hu Hp N4 N5 Sx Su Sp SWin SWr SWout.
  unfold TemporalPC.inference.
  rewrite (bind_Ok _ _ _ _ _
             (pc_init_z_Ok m o u prev_z uv pv b c h out Hu Hp Su Sp SWin SWr SWout)).
  assert (Hfresh : forall k v, m !! k = Some v -> fresh (dom m) <> k).
  { intros k v Hk Heq. apply (is_fresh (dom m)). rewrite Heq.
    apply elem_of_dom. eexists. exact Hk. }
  apply (pc_rounds_Ok (TemporalPC.set_z (Some (fresh (dom m))) o) b c h out
           x u prev_z (fresh (dom m)) uv pv inf_lr update_x Su Sp SWin SWr SWout
           eq_refl (Hfresh _ _ Hx) (Hfresh _ _ Hu) (Hfresh _ _ Hp) N4 N5
           n _ (pred_latent o uv pv) xv).
  - apply lookup_insert_eq.
  - rewrite lookup_insert_ne by (exact (Hfresh _ _ Hx)). exact Hx.
  - rewrite lookup_insert_ne by (exact (Hfresh _ _ Hu)). exact Hu.
  - rewrite lookup_insert_ne by (exact (Hfresh _ _ Hp)). exact Hp.
  - apply (shape_pred_latent o b c h uv pv Su Sp SWin SWr).
  - exact Sx.
Qed.

(** C10: [inference] with [update_x] set mutates the caller's tensor [x]
    in place.  Each round of the inner loop that completes leaves in [x]
    the value it had before the round minus [inf_lr] times the observation
    error [ex = x - Wout nonlin(z)] of that round, [w1] being the world
    after the first [k] rounds and [w2] the one after the next.  Without
    [update_x] the tensor [x] has after the call the value it had
    before.  With tensors of fitting shapes, and [x] none of [u] and
    [prev_z], every round completes and the call returns. *)
Theorem C10_inference_refines_x_in_place
    (w : world TemporalPC.t) (x u prev_z : loc) (inf_lr : R) :
  is_Some (mem w !! x) ->
  (forall n,
     mem (TemporalPC.inference n inf_lr x u prev_z false w).1 !! x = mem w !! x) /\
  (forall k w2,
     TemporalPC.inference (S k) inf_lr x u prev_z true w = (w2, Ok tt) ->
     exists w1 xv zv pred err x',
       TemporalPC.inference k inf_lr x u prev_z true w = (w1, Ok tt) /\
       mem w1 !! x = Some xv /\ TemporalPC.z_val w1 = Some zv /\
       TemporalPC.linear (TemporalPC.Wout (self w1))
         (activate (TemporalPC.nonlin (self w1)) zv) = Ok pred /\
       tsub xv pred = Ok err /\
       inplace Rminus xv (scale inf_lr err) = Ok x' /\
       mem w2 !! x = Some x') /\
  (forall xv uv pv b c h out n update_x,
     mem w !! x = Some xv -> mem w !! u = Some uv -> mem w !! prev_z = Some pv ->
     x <> u -> x <> prev_z ->
     is_shape b (S out) xv = true -> is_shape b (S c) uv = true ->
     is_shape b (S h) pv = true ->
     is_shape (S h) (S c) (TemporalPC.Win (self w)) = true ->
     is_shape (S h) (S h) (TemporalPC.Wr (self w)) = true ->
     is_shape (S out) (S h) (TemporalPC.Wout (self w)) = true ->
     exists w',
       TemporalPC.inference n inf_lr x u prev_z update_x w = (w', Ok tt)).
Proof.
  intros Hx. destruct (pc_inference_x w x u prev_z inf_lr Hx) as [H1 H2].
  split_and!; [exact H1 | exact H2 |].
  intros xv uv pv b c h out n update_x Hxv Hu Hp N4 N5 Sx Su Sp SWin SWr SWout.
  apply is_shape_spec in Sx, Su, Sp, SWin, SWr, SWout.
  destruct w as [m o]. cbn in *.
  exact (pc_inference_Ok m o b c h out x u prev_z xv uv pv inf_lr update_x n
           Hxv Hu Hp N4 N5 Sx Su Sp SWin SWr SWout).
Qed.

(** ** The claims on concrete objects *)

Lemma nkf_demo_constructed :
  NeuralKalmanFilter.init [[1]] [[1]] [[1]] 1 false "linear" ∅
  = (mem nkf_demo, Ok (self nkf_demo)).
Proof. vm_compute. reflexivity. Qed.

Ltac solve_wf :=
  unfold NeuralKalmanFilter.wf; cbn;
  split_and!; try (eexists; reflexivity); try discriminate;
  intros ? [=]; subst; split_and!; try (eexists; reflexivity); discriminate.

(** The inverse of a one-by-one matrix. *)
Lemma inv_1x1 a : a <> 0 -> inv [[a]] = Ok [[/ a]].
Proof.
  intros Ha. unfold inv. cbn.
  destruct (excluded_middle_informative _) as [H|H].
  - destruct (constructive_indefinite_description _ H) as [N HN]. cbn.
    destruct HN as (_ & HN & Hmul & _).
    apply is_shape_spec in HN. apply shape_cons_inv in HN as (row & N' & -> & Hrow & HN).
    apply shape_nil_inv in HN as ->.
    destruct row as [|n [|? ?]]; try discriminate.
    cbv in Hmul. injection Hmul as Hmul. do 3 f_equal.
    apply (Rmult_eq_reg_l a); [|exact Ha]. rewrite Rinv_r by exact Ha. lra.
  - exfalso. apply H. exists [[/ a]]. unfold is_inverse. cbn.
    split_and!; try reflexivity; cbv; do 2 f_equal; field; exact Ha.
Qed.

(** The closed form at the first timestep of the demonstration solver. *)
Lemma closed_form_demo :
  CodingSpec.closed_form [[1]] [[1]] [[1]] 1 [[1]] [[1]] [[0]] = Ok [[1]].
Proof.
  assert (Hi : inv [[1 + (1 * 1 + 0)]] = Ok [[/ (1 + (1 * 1 + 0))]])
    by (apply inv_1x1; lra).
  unfold CodingSpec.closed_form. cbn. unfold inv in Hi. cbn in Hi. rewrite Hi.
  cbv. do 3 f_equal. field.
Qed.

Lemma C1_witness :
  let w := (NeuralKalmanFilter.init_z nkf_demo).1 in
  NeuralKalmanFilter.wf w /\
  exists w',
    NeuralKalmanFilter.predict_step [[1]] [[1]] 0 1 ([], []) 0 w
    = (w', Ok ([[[1]]], [[[1 * 0 + 0 + (1 * 1 + 0)]]])) /\
    NeuralKalmanFilter.z_val w' = Some [[1]].
Proof.
  cbv zeta.
  assert (Hw : NeuralKalmanFilter.wf (NeuralKalmanFilter.init_z nkf_demo).1)
    by solve_wf.
  split; [exact Hw|].
  apply (proj2 (C1_closed_form_in_predict _ [[1]] [[1]] 1 ([], []) 0%nat Hw)
           [[1]] [[1]] [[1]] [[0]]).
  - reflexivity.
  - reflexivity.
  - reflexivity.
  - reflexivity.
  - exact closed_form_demo.
  - reflexivity.
Defined.

(** C1 as it is stated fails for [train].  After a call of [predict] with
    one inner iteration, a call of [train] with [inf_iters = 0] returns and
    leaves the latent estimate at [[0]], where the closed form
    [(I + Wout^T Wout)^-1 (Wout^T x + Wr prev_z + Win u)] at the values of
    the timestep is [[1]]. *)
Lemma C1_train_skips_the_closed_form :
  let w1 := (NeuralKalmanFilter.predict [[1]] [[1]] 1 1 nkf_demo).1 in
  let w2 := (NeuralKalmanFilter.train [[1]] [[1]] 0 1 1 1 w1).1 in
  (NeuralKalmanFilter.train [[1]] [[1]] 0 1 1 1 w1).2 = Ok tt /\
  NeuralKalmanFilter.Wr_val w1 = Some [[1]] /\
  NeuralKalmanFilter.Win_val w1 = Some [[1]] /\
  NeuralKalmanFilter.Wout_val w1 = Some [[1]] /\
  NeuralKalmanFilter.x (self w2) = Some [[1]] /\
  NeuralKalmanFilter.u (self w2) = Some [[1]] /\
  NeuralKalmanFilter.prev_z_val w2 = Some [[0]] /\
  CodingSpec.closed_form [[1]] [[1]] [[1]] 1 [[1]] [[1]] [[0]] = Ok [[1]] /\
  NeuralKalmanFilter.z_val w2 = Some [[0]] /\
  NeuralKalmanFilter.z_val w2 <> Some [[1]].
Proof.
  cbv zeta.
  assert (Hz : NeuralKalmanFilter.z_val
                 (NeuralKalmanFilter.train [[1]] [[1]] 0 1 1 1
                    (NeuralKalmanFilter.predict [[1]] [[1]] 1 1 nkf_demo).1).1
               = Some [[0]]) by (vm_compute; reflexivity).
  split_and!; try (vm_compute; reflexivity).
  - exact closed_form_demo.
  - rewrite Hz. intros [= H]. lra.
Qed.

Lemma C2_witness :
  (1 <= ncols two_steps)%nat /\
  let r := KalmanFilter.inference two_steps two_controls kf_demo in
  match FilterSpec.run [[1]] [[0]] [[1]] [[0]] [[1]] (zeros 1 1, eye 1)
          (FilterSpec.timesteps two_steps two_controls (seq 0 (ncols two_steps))) with
  | Ok (zs, pred_xs, es, (z', P')) =>
      length zs = ncols two_steps /\ length pred_xs = ncols two_steps /\
      exists Z X E,
        cat_cols zs = Ok Z /\ cat_cols pred_xs = Ok X /\ cat_cols es = Ok E /\
        r.2 = Ok (Z, X) /\
        KalmanFilter.exs r.1 = Some E /\
        KalmanFilter.z r.1 = Some z' /\ KalmanFilter.P r.1 = Some P'
  | Raise e => r.2 = Raise e
  end.
Proof.
  assert (H : (1 <= ncols two_steps)%nat) by (cbn; lia).
  split; [exact H|].
  exact (C2_inference_is_the_filter_recursion kf_demo two_steps two_controls H).
Defined.

Lemma C3_witness :
  NeuralKalmanFilter.wf nkf_demo /\
  (forall w acc,
     NeuralKalmanFilter.predict_upto [[1]] [[1]] 2 1 0 nkf_demo = (w, Ok acc) ->
     is_Some (NeuralKalmanFilter.z_val w) /\
     (0%nat = 0%nat -> NeuralKalmanFilter.z_val w = Some (zeros 1 1)) /\
     NeuralKalmanFilter.prev_z_val
       (NeuralKalmanFilter.predict_step_upto [[1]] [[1]] 1 0 2 w).1
     = NeuralKalmanFilter.z_val w).
Proof.
  assert (Hw : NeuralKalmanFilter.wf nkf_demo) by solve_wf.
  split; [exact Hw|].
  apply (proj1 (C3_prev_z_is_the_previous_latent nkf_demo [[1]] [[1]] 2 1 1
                  0 0 2 Hw)).
Defined.

Lemma C5_witness :
  exists bound, 0 < bound /\
    forall inf_lr, 0 < inf_lr <= bound ->
      exists w' E E',
        TemporalPC.update_nodes at_x at_u at_prev_z inf_lr true pc_demo
        = (w', Ok tt) /\
        (TemporalPC.update_grads at_x at_u at_prev_z pc_demo).2 = Ok E /\
        (TemporalPC.update_grads at_x at_u at_prev_z w').2 = Ok E' /\
        E' <= E.
Proof.
  apply (C5_small_step_does_not_increase_energy pc_demo at_x at_u at_prev_z at_z
           [[1]] [[1]] [[1]] [[0]] 1 0 0 0 true);
    first [ reflexivity | discriminate ].
Defined.

Lemma C6_witness :
  NeuralKalmanFilter.wf nkf_demo /\
  let w' := (NeuralKalmanFilter.predict [[1; 2]] [[1; 1]] 3 1 nkf_demo).1 in
  NeuralKalmanFilter.Wr (self w') = NeuralKalmanFilter.Wr (self nkf_demo) /\
  NeuralKalmanFilter.Win (self w') = NeuralKalmanFilter.Win (self nkf_demo) /\
  NeuralKalmanFilter.Wout (self w') = NeuralKalmanFilter.Wout (self nkf_demo) /\
  NeuralKalmanFilter.Wr_val w' = NeuralKalmanFilter.Wr_val nkf_demo /\
  NeuralKalmanFilter.Win_val w' = NeuralKalmanFilter.Win_val nkf_demo /\
  NeuralKalmanFilter.Wout_val w' = NeuralKalmanFilter.Wout_val nkf_demo.
Proof.
  assert (Hw : NeuralKalmanFilter.wf nkf_demo) by solve_wf.
  split; [exact Hw|].
  exact (C6_predict_keeps_the_weights nkf_demo [[1; 2]] [[1; 1]] 3 1 Hw).
Defined.

Lemma C7_witness :
  let o := self pc_demo in
  let r := TemporalPC.update_grads at_x at_u at_prev_z pc_demo in
  (TemporalPC.Win (self r.1) = TemporalPC.Win o /\
   TemporalPC.Wr (self r.1) = TemporalPC.Wr o /\
   TemporalPC.Wout (self r.1) = TemporalPC.Wout o /\
   TemporalPC.z (self r.1) = TemporalPC.z o /\
   mem r.1 = mem pc_demo) /\
  r.2 = Ok (EnergySpec.energy Tanh [[1]] [[1]] [[1]] [[0]] [[1]] [[1]] [[1]]) /\
  TemporalPC.hidden_loss (self r.1)
  = Some (tsum (tsquare (EnergySpec.latent_error Tanh [[1]] [[1]] [[0]] [[1]] [[1]]))) /\
  TemporalPC.obs_loss (self r.1)
  = Some (tsum (tsquare (EnergySpec.obs_error Tanh [[1]] [[0]] [[1]]))).
Proof.
  destruct (C7_update_grads_is_the_energy pc_demo at_x at_u at_prev_z at_z
              [[1]] [[1]] [[1]] [[0]] eq_refl eq_refl eq_refl eq_refl eq_refl)
    as [Hframe Hval].
  destruct (Hval 1%nat 0%nat 0%nat 0%nat eq_refl eq_refl eq_refl eq_refl
              eq_refl eq_refl eq_refl) as (_ & HE & Hh & Ho).
  split; [exact Hframe|]. split; [exact HE|]. split; [exact Hh | exact Ho].
Defined.

Lemma C9_witness :
  (forall A B C n dyn h,
     (NeuralKalmanFilter.init A B C n dyn "relu" h).2
     = Raise (ValueError "no such nonlinearity!")) /\
  (forall control_size hidden_size output_size Win Wr Wout,
     TemporalPC.init control_size hidden_size output_size "relu" Win Wr Wout
     = Raise (ValueError "no such nonlinearity!")).
Proof.
  apply (C9_unknown_nonlinearity_is_rejected "relu"); discriminate.
Defined.

Lemma C10_witness :
  (forall n, mem (TemporalPC.inference n 1 at_x at_u at_prev_z false pc_demo).1 !! at_x
             = mem pc_demo !! at_x) /\
  (forall k w2,
     TemporalPC.inference (S k) 1 at_x at_u at_prev_z true pc_demo = (w2, Ok tt) ->
     exists w1 xv zv pred err x',
       TemporalPC.inference k 1 at_x at_u at_prev_z true pc_demo = (w1, Ok tt) /\
       mem w1 !! at_x = Some xv /\ TemporalPC.z_val w1 = Some zv /\
       TemporalPC.linear (TemporalPC.Wout (self w1))
         (activate (TemporalPC.nonlin (self w1)) zv) = Ok pred /\
       tsub xv pred = Ok err /\
       inplace Rminus xv (scale 1 err) = Ok x' /\
       mem w2 !! at_x = Some x') /\
  (forall n update_x,
     exists w',
       TemporalPC.inference n 1 at_x at_u at_prev_z update_x pc_demo = (w', Ok tt)).
Proof.
  assert (Hx : is_Some (mem pc_demo !! at_x)) by (eexists; reflexivity).
  destruct (C10_inference_refines_x_in_place pc_demo at_x at_u at_prev_z 1 Hx)
    as (H1 & H2 & H3).
  split_and!; [exact H1 | exact H2 |].
  intros n update_x.
  apply (H3 [[1]] [[1]] [[1]] 1%nat 0%nat 0%nat 0%nat n update_x);
    first [ reflexivity | discriminate ].
Defined.

(* ================================================================== *)
(** * Part III: further properties of the three solvers *)
(* ================================================================== *)

(** ** Invariants of loops *)

Section Invariants.
Context {S : Type} (I : S -> Prop).

Lemma bind_inv {A B} (c : action S A) (k : A -> action S B) :
  (forall s, I s -> I (c s).1) -> (forall a s, I s -> I (k a s).1) ->
  forall s, I s -> I ((c ≫= k) s).1.
Proof.
  intros Hc Hk s Hs. rewrite bind_unfold. specialize (Hc s Hs).
  destruct (c s) as [s1 [a|e]]; cbn in *; [apply Hk|]; exact Hc.
Qed.

Lemma repeat_n_inv n (c : action S unit) :
  (forall s, I s -> I (c s).1) -> forall s, I s -> I (repeat_n n c s).1.
Proof.
  intros Hc. induction n as [|n IH]; intros s Hs; [exact Hs|].
  cbn [repeat_n]. apply bind_inv; auto.
Qed.

Lemma for_each_inv {A} (body : A -> action S unit) xs :
  (forall a s, I s -> I (body a s).1) -> forall s, I s -> I (for_each body xs s).1.
Proof.
  intros Hc. induction xs as [|x xs IH]; intros s Hs; [exact Hs|].
  cbn [for_each]. apply bind_inv; auto.
Qed.

Lemma fold_each_inv {A B} (body : B -> A -> action S B) xs :
  (forall b a s, I s -> I (body b a s).1) ->
  forall b s, I s -> I (fold_each body b xs s).1.
Proof.
  intros Hc. induction xs as [|x xs IH]; intros b s Hs; [exact Hs|].
  cbn [fold_each]. apply bind_inv; auto.
Qed.

End Invariants.

(** ** The Kalman filter: what a call keeps and what it forgets *)

Section KalmanCalls.
Import KalmanFilter.

(** What [run_upto] returns and leaves, from the recursion. *)
Lemma run_upto_run inputs controls l kf :
  match FilterSpec.run (A kf) (B kf) (C kf) (Q kf) (R' kf)
          (zeros (latent_size kf) 1, eye (latent_size kf))
          (FilterSpec.timesteps inputs controls (seq 0 l)) with
  | Ok (zs, pred_xs, es, (z', P')) =>
      exists s, run_upto inputs controls l kf = (s, Ok (zs, pred_xs, es)) /\
                z s = Some z' /\ P s = Some P'
  | Raise e => exists s, run_upto inputs controls l kf = (s, Raise e)
  end.
Proof.
  unfold run_upto, reset. unfold_action. cbn.
  set (s0 := set_P _ (set_z _ kf)).
  pose proof (run_correct inputs controls (seq 0 l) s0 ([], [], []) _ _ eq_refl eq_refl)
    as H.
  change (A s0) with (A kf) in H. change (B s0) with (B kf) in H.
  change (C s0) with (C kf) in H. change (Q s0) with (Q kf) in H.
  change (R' s0) with (R' kf) in H.
  destruct (FilterSpec.run _ _ _ _ _ _ _) as [[[[zs ps] es] [z' P']]|e].
  - destruct H as (s' & -> & Hz & HP & _). eauto.
  - destruct H as (s' & -> & _). eauto.
Qed.

(** [collect] assigns [exs] or nothing, and what it returns comes from the
    local lists alone. *)
Lemma collect_effect acc s :
  (collect acc s).1 = s \/
  exists E, (collect acc s).1 = set_exs (Some E) s.
Proof.
  destruct acc as [[zs ps] es]. unfold collect. unfold_action. cbn.
  repeat (step_outcome; cbn); eauto.
Qed.

Lemma collect_result acc s s' : (collect acc s).2 = (collect acc s').2.
Proof.
  destruct acc as [[zs ps] es]. unfold collect. unfold_action. cbn.
  repeat (step_outcome; cbn); reflexivity.
Qed.

(** The covariance of a timestep comes from the covariance before it and
    the parameters alone. *)
Lemma timestep_cov A B C Q R' z z' P x x' u u' z1 P1 p1 e1 z2 P2 p2 e2 :
  FilterSpec.timestep A B C Q R' (z, P) x u = Ok (z1, P1, p1, e1) ->
  FilterSpec.timestep A B C Q R' (z', P) x' u' = Ok (z2, P2, p2, e2) ->
  P1 = P2.
Proof.
  unfold FilterSpec.timestep, FilterSpec.project, FilterSpec.correct,
    FilterSpec.gain, FilterSpec.innovation.
  unfold_action. cbn.
  repeat (step_outcome; cbn; try discriminate).
  intros H1.
  repeat (step_outcome; cbn; try discriminate).
  intros H2. merge_outcomes. reflexivity.
Qed.

Lemma run_cov A B C Q R' obs : forall obs' z z' P zs ps es z1 P1 zs' ps' es' z2 P2,
  length obs = length obs' ->
  FilterSpec.run A B C Q R' (z, P) obs = Ok (zs, ps, es, (z1, P1)) ->
  FilterSpec.run A B C Q R' (z', P) obs' = Ok (zs', ps', es', (z2, P2)) ->
  P1 = P2.
Proof.
  induction obs as [|[x u] obs IH]; intros [|[x' u'] obs'] z z' P zs ps es z1 P1
    zs' ps' es' z2 P2 Hlen; try discriminate; simpl.
  - intros [= _ _ _ _ <-] [= _ _ _ _ <-]. reflexivity.
  - destruct (FilterSpec.timestep A B C Q R' (z, P) x u)
      as [[[[za Pa] pa] ea]|e] eqn:Ha; cbn; [|discriminate].
    destruct (FilterSpec.timestep A B C Q R' (z', P) x' u')
      as [[[[zb Pb] pb] eb]|e] eqn:Hb; cbn; [|discriminate].
    pose proof (timestep_cov _ _ _ _ _ _ _ _ _ _ _ _ _ _ _ _ _ _ _ _ Ha Hb) as <-.
    destruct (FilterSpec.run A B C Q R' (za, Pa) obs)
      as [[[[zsa psa] esa] [zfa Pfa]]|e] eqn:Hra; cbn; [|discriminate].
    destruct (FilterSpec.run A B C Q R' (zb, Pa) obs')
      as [[[[zsb psb] esb] [zfb Pfb]]|e] eqn:Hrb; cbn; [|discriminate].
    intros [= _ _ _ _ <-] [= _ _ _ _ <-].
    eapply IH; [|exact Hra|exact Hrb]. simpl in Hlen. lia.
Qed.

End KalmanCalls.

(** X1: [KalmanFilter.inference] assigns none of the parameters of the
    filter: [A], [B], [C], [Q], [R] and [latent_size] are after the call
    what they were before it, whether the call returns or raises. *)
Theorem X1_inference_keeps_the_parameters
    (kf : KalmanFilter.t) (inputs controls : tensor) :
  KalmanFilter.same_params kf (KalmanFilter.inference inputs controls kf).1.
Proof.
  unfold KalmanFilter.inference. rewrite bind_unfold.
  destruct (KalmanFilter.run_upto inputs controls (ncols inputs) kf)
    as [s [acc|e]] eqn:Hrun.
  - apply run_upto_params in Hrun.
    destruct (collect_effect acc s) as [-> | [E ->]]; [exact Hrun|].
    destruct Hrun as (? & ? & ? & ? & ? & ?). repeat split; assumption.
  - apply run_upto_params in Hrun. exact Hrun.
Qed.

(** X2: what [KalmanFilter.inference] returns does not depend on what an
    earlier call left in [z], [P], [x], [u] and [exs]: two filters with the
    same parameters return the same result, or raise the same exception,
    on the same sequences. *)
Theorem X2_inference_forgets_the_previous_call
    (kf kf' : KalmanFilter.t) (inputs controls : tensor) :
  KalmanFilter.same_params kf kf' ->
  (KalmanFilter.inference inputs controls kf').2
  = (KalmanFilter.inference inputs controls kf).2.
Proof.
  intros (E1 & E2 & E3 & E4 & E5 & E6). unfold KalmanFilter.inference.
  rewrite !bind_unfold.
  pose proof (run_upto_run inputs controls (ncols inputs) kf) as H.
  pose proof (run_upto_run inputs controls (ncols inputs) kf') as H'.
  rewrite E1, E2, E3, E4, E5, E6 in H'.
  destruct (FilterSpec.run _ _ _ _ _ _ _) as [[[[zs ps] es] [z' P']]|e].
  - destruct H as (s & -> & _). destruct H' as (s' & -> & _).
    apply collect_result.
  - destruct H as (s & ->). destruct H' as (s' & ->). reflexivity.
Qed.

(** X3: the covariance that [KalmanFilter.inference] leaves in [P] does not
    depend on the observations and the controls: two calls that return, on
    sequences of the same number of timesteps, leave the same [P]. *)
Theorem X3_covariance_ignores_the_data
    (kf : KalmanFilter.t) (inputs controls inputs' controls' : tensor)
    (r r' : tensor * tensor) :
  ncols inputs' = ncols inputs ->
  (KalmanFilter.inference inputs controls kf).2 = Ok r ->
  (KalmanFilter.inference inputs' controls' kf).2 = Ok r' ->
  KalmanFilter.P (KalmanFilter.inference inputs' controls' kf).1
  = KalmanFilter.P (KalmanFilter.inference inputs controls kf).1.
Proof.
  intros HL. unfold KalmanFilter.inference. rewrite !bind_unfold.
  pose proof (run_upto_run inputs controls (ncols inputs) kf) as H.
  pose proof (run_upto_run inputs' controls' (ncols inputs') kf) as H'.
  destruct (FilterSpec.run _ _ _ _ _ _ (FilterSpec.timesteps inputs controls _))
    as [[[[zs ps] es] [z1 P1]]|e] eqn:Hr.
  2:{ destruct H as (s & ->). discriminate. }
  destruct (FilterSpec.run _ _ _ _ _ _ (FilterSpec.timesteps inputs' controls' _))
    as [[[[zs' ps'] es'] [z2 P2]]|e] eqn:Hr'.
  2:{ destruct H' as (s & ->). discriminate. }
  destruct H as (s & -> & _ & HP). destruct H' as (s' & -> & _ & HP').
  intros _ _.
  assert (P1 = P2) as <-.
  { eapply run_cov; [|exact Hr|exact Hr'].
    unfold FilterSpec.timesteps. rewrite !length_map, !length_seq. congruence. }
  destruct (collect_effect (zs, ps, es) s) as [-> | [E ->]];
  destruct (collect_effect (zs', ps', es') s') as [-> | [E' ->]]; cbn; congruence.
Qed.

(** X4: on a sequence of no timestep [KalmanFilter.inference] does not
    return: it resets [z] to zero and [P] to the identity, runs no round of
    its loop, and raises at the concatenation of the empty list of
    predictions; [exs] is not assigned. *)
Theorem X4_inference_on_no_timestep
    (kf : KalmanFilter.t) (inputs controls : tensor) :
  ncols inputs = 0%nat ->
  KalmanFilter.inference inputs controls kf
  = (KalmanFilter.set_P (Some (eye (KalmanFilter.latent_size kf)))
       (KalmanFilter.set_z (Some (zeros (KalmanFilter.latent_size kf) 1)) kf),
     Raise RuntimeError).
Proof.
  intros H. unfold KalmanFilter.inference, KalmanFilter.run_upto. rewrite H.
  reflexivity.
Qed.


(** ** The iterative solver: the tensors a call writes *)

Section NeuralFrame.
Import NeuralKalmanFilter.
Variable T : loc -> Prop.
Variable m0 : heap.
Variables wr wi wo : loc.

Let G := nkf_frame T m0 wr wi wo.
Let F := nkf_frame_z T m0 wr wi wo.

Lemma nkf_frame_fresh (m : heap) (l : loc) :
  (forall l, is_Some (m0 !! l) -> is_Some (m !! l)) -> is_Some (m0 !! l) ->
  l <> fresh (dom m).
Proof. intros H Hl. apply fresh_ne, H, Hl. Qed.

Lemma nkf_frame_alloc m o o' v :
  Wr o' = Wr o -> Win o' = Win o -> Wout o' = Wout o -> z o' = z o ->
  F (World m o) ->
  F (World (<[fresh (dom m) := v]> m) o').
Proof.
  intros E1 E2 E3 E7 ((H1 & H2 & H3 & D & Ag) & Z).
  cbn in *. unfold F, nkf_frame_z, nkf_frame. cbn. rewrite E1, E2, E3, E7.
  split_and!; auto.
  - intros l Hl. rewrite lookup_insert_is_Some'. auto.
  - intros l Hl Ht. rewrite lookup_insert_ne by (apply not_eq_sym, nkf_frame_fresh; auto).
    auto.
Qed.

Lemma nkf_frame_names m o o' : same_names o o' -> F (World m o) -> F (World m o').
Proof.
  intros (E1 & E2 & E3 & _ & _ & _ & E7 & _) ((H1 & H2 & H3 & D & Ag) & Z).
  cbn in *. unfold F, nkf_frame_z, nkf_frame. cbn. rewrite E1, E2, E3, E7. split_and!; auto.
Qed.

Lemma nkf_frame_new_z m o v :
  G (World m o) ->
  F (World (<[fresh (dom m) := v]> m) (set_z (Some (fresh (dom m))) o)).
Proof.
  intros (H1 & H2 & H3 & D & Ag). cbn in *. unfold F, nkf_frame_z, nkf_frame. cbn.
  split_and!; auto.
  - intros l Hl. rewrite lookup_insert_is_Some'. auto.
  - intros l Hl Ht. rewrite lookup_insert_ne by (apply not_eq_sym, nkf_frame_fresh; auto).
    auto.
  - intros l [= <-]. destruct (m0 !! fresh (dom m)) eqn:E; [|reflexivity].
    exfalso. apply (nkf_frame_fresh m (fresh (dom m)) D); [eauto|reflexivity].
Qed.

Lemma nkf_frame_store_latent m o o' l v :
  z o = Some l -> same_names o o' -> F (World m o) -> F (World (<[l := v]> m) o').
Proof.
  intros Hz (E1 & E2 & E3 & _ & _ & _ & E7 & _) ((H1 & H2 & H3 & D & Ag) & Z).
  cbn in *. unfold F, nkf_frame_z, nkf_frame. cbn. rewrite E1, E2, E3, E7.
  assert (Hl : forall l', is_Some (m0 !! l') -> l <> l').
  { intros l' Hl' <-. rewrite (Z l Hz) in Hl'. destruct Hl' as [? [=]]. }
  split_and!; auto.
  - intros l' Hl'. rewrite lookup_insert_is_Some'. auto.
  - intros l' Hl' Ht. rewrite lookup_insert_ne by auto. auto.
Qed.

Lemma nkf_frame_store_weight l m o v :
  T l -> F (World m o) -> F (World (<[l := v]> m) o).
Proof.
  intros Ht ((H1 & H2 & H3 & D & Ag) & Z).
  cbn in *. unfold F, nkf_frame_z, nkf_frame. cbn.
  split_and!; auto.
  - intros l' Hl'. rewrite lookup_insert_is_Some'. auto.
  - intros l' Hl' Hn. rewrite lookup_insert_ne by (intros <-; auto). auto.
Qed.

Lemma update_nodes_frame inf_lr w : F w -> F (update_nodes inf_lr w).1.
Proof.
  destruct w as [m o]. intros H. apply update_nodes_effect.
  - intros o' Hn. exact (nkf_frame_names _ _ _ Hn H).
  - intros l v o' Hz _ Hn. exact (nkf_frame_store_latent _ _ _ _ _ Hz Hn H).
Qed.

Lemma equilibrium_frame w : F w -> F (equilibrium w).1.
Proof.
  destruct w as [m o]. intros H. apply equilibrium_effect; [exact H|].
  intros v. apply nkf_frame_new_z, H.
Qed.

Lemma begin_step_frame inputs controls i w : F w -> F (begin_step inputs controls i w).1.
Proof.
  destruct w as [m o]. intros H. apply begin_step_effect.
  - intros o' Hn. exact (nkf_frame_names _ _ _ Hn H).
  - intros v o' (E1 & E2 & E3 & _ & _ & _ & E7 & _).
    apply (nkf_frame_alloc m o); [exact E1 | exact E2 | exact E3 | exact E7 | exact H].
Qed.

Lemma init_z_frame w : G w -> F (init_z w).1.
Proof. destruct w as [m o]. intros H. rewrite init_z_eq. apply nkf_frame_new_z, H. Qed.

Lemma infer_frame inf_iters inf_lr w : F w -> F (infer inf_iters inf_lr w).1.
Proof.
  unfold infer. destruct (inf_iters =? 0)%nat.
  - apply equilibrium_frame.
  - apply repeat_n_inv. intros s. apply update_nodes_frame.
Qed.

Lemma read_pure {A} (o : option A) (w : world t) : (read o w).1 = w.
Proof. destruct o; reflexivity. Qed.

Lemma load_pure l (w : world t) : (load l w).1 = w.
Proof. unfold load. destruct (mem w !! l); reflexivity. Qed.

Lemma predict_step_frame inputs controls inf_iters inf_lr acc l w :
  F w -> F (predict_step inputs controls inf_iters inf_lr acc l w).1.
Proof.
  unfold predict_step. apply bind_inv; [apply begin_step_frame|]. intros _.
  apply bind_inv; [intros s Hs; rewrite project_latent_pure; exact Hs|]. intros zp.
  apply bind_inv; [apply infer_frame|]. intros _.
  apply bind_inv; [intros s Hs; exact Hs|]. intros o.
  apply bind_inv; [intros s Hs; rewrite read_pure; exact Hs|]. intros zl.
  apply bind_inv; [intros s Hs; rewrite load_pure; exact Hs|]. intros zv s Hs.
  exact Hs.
Qed.

Lemma lift_pure {A} (o : outcome A) (w : world t) : (lift o w).1 = w.
Proof. reflexivity. Qed.

Lemma predict_frame inputs controls inf_iters inf_lr w :
  G w -> G (predict inputs controls inf_iters inf_lr w).1.
Proof.
  intros H. apply init_z_frame in H.
  cut (F (predict inputs controls inf_iters inf_lr w).1); [intros [? _]; assumption|].
  unfold predict, predict_upto. rewrite bind_unfold, (bind_unfold init_z).
  rewrite (surjective_pairing (init_z w)) in *.
  destruct w as [m o]. rewrite init_z_eq in *. cbn [fst snd] in *.
  set (w1 := World _ _) in *.
  pose proof (fold_each_inv F (predict_step inputs controls inf_iters inf_lr)
                (seq 0 (ncols inputs))
                (fun b a s => predict_step_frame inputs controls inf_iters inf_lr b a s)
                ([], []) w1 H) as H1.
  destruct (fold_each _ _ _ w1) as [w2 [acc|e]]; cbn in *; [|exact H1].
  revert H1. generalize w2.
  apply bind_inv; [intros s Hs; exact Hs|]. intros zs.
  apply bind_inv; [intros s Hs; exact Hs|]. intros zp.
  apply bind_inv; [intros s Hs; exact Hs|]. intros o'.
  apply bind_inv; [intros s Hs; rewrite load_pure; exact Hs|]. intros Woutv.
  apply bind_inv; [intros s Hs; exact Hs|]. intros px s Hs. exact Hs.
Qed.

Hypothesis T_wr : T wr.
Hypothesis T_wo : T wo.

Lemma learn_frame lr w : F w -> F (learn lr w).1.
Proof.
  unfold learn. apply bind_inv.
  - intros [m o] H. apply update_transition_effect; [exact H|].
    intros v. apply nkf_frame_store_weight; [|exact H].
    destruct H as ((E & _) & _). cbn in E. rewrite E. exact T_wr.
  - intros _ [m o] H. apply update_emission_effect; [exact H|].
    intros v. apply nkf_frame_store_weight; [|exact H].
    destruct H as ((_ & _ & E & _) & _). cbn in E. rewrite E. exact T_wo.
Qed.

Lemma train_frame inputs controls inf_iters inf_lr learn_iters learn_lr w :
  G w -> G (train inputs controls inf_iters inf_lr learn_iters learn_lr w).1.
Proof.
  unfold train. apply repeat_n_inv. intros s Hs.
  cut (F (train_pass inputs controls inf_iters inf_lr learn_lr
            (seq 0 (ncols inputs)) s).1); [intros [? _]; assumption|].
  apply init_z_frame in Hs. unfold train_pass. rewrite bind_unfold.
  destruct s as [m o]. rewrite init_z_eq in *. cbn [fst snd] in *.
  revert Hs. generalize (World (<[fresh (dom m):=zeros (latent_size o) 1]> m)
                           (set_z (Some (fresh (dom m))) o)).
  apply for_each_inv. intros l. unfold train_step.
  apply bind_inv; [apply begin_step_frame|]. intros _.
  apply bind_inv; [apply repeat_n_inv; intros s; apply update_nodes_frame|]. intros _.
  apply learn_frame.
Qed.

End NeuralFrame.

Lemma nkf_frame_refl T (w : world NeuralKalmanFilter.t) :
  nkf_frame T (mem w) (NeuralKalmanFilter.Wr (self w)) (NeuralKalmanFilter.Win (self w))
    (NeuralKalmanFilter.Wout (self w)) w.
Proof. repeat split; auto. Qed.

(** X5: [NeuralKalmanFilter.predict] writes to tensors that it makes
    itself, and to no other: every tensor that exists before the call has
    the same value after it, whether the call returns or raises.  A latent
    estimate or a [prev_z] that an earlier call has left, and that the
    caller still holds, is among them. *)
Theorem X5_predict_changes_no_tensor
    (w : world NeuralKalmanFilter.t) (inputs controls : tensor)
    (inf_iters : nat) (inf_lr : R) (l : loc) :
  is_Some (mem w !! l) ->
  mem (NeuralKalmanFilter.predict inputs controls inf_iters inf_lr w).1 !! l
  = mem w !! l.
Proof.
  intros Hl.
  destruct (predict_frame (fun _ => False) (mem w) _ _ _ inputs controls inf_iters
              inf_lr w (nkf_frame_refl _ w)) as (_ & _ & _ & _ & Ag).
  apply Ag; auto.
Qed.

(** X6: of the tensors that exist before the call,
    [NeuralKalmanFilter.train] writes to those of [Wr] and [Wout] and to no
    other: the object names the same three weights after the call, and any
    other tensor, the one of [Win] with them, has the value it had,
    whether the call returns or raises. *)
Theorem X6_train_changes_two_tensors
    (w : world NeuralKalmanFilter.t) (inputs controls : tensor)
    (inf_iters : nat) (inf_lr : R) (learn_iters : nat) (learn_lr : R) (l : loc) :
  is_Some (mem w !! l) ->
  l <> NeuralKalmanFilter.Wr (self w) -> l <> NeuralKalmanFilter.Wout (self w) ->
  let w' := (NeuralKalmanFilter.train inputs controls inf_iters inf_lr
               learn_iters learn_lr w).1 in
  NeuralKalmanFilter.Wr (self w') = NeuralKalmanFilter.Wr (self w) /\
  NeuralKalmanFilter.Win (self w') = NeuralKalmanFilter.Win (self w) /\
  NeuralKalmanFilter.Wout (self w') = NeuralKalmanFilter.Wout (self w) /\
  mem w' !! l = mem w !! l.
Proof.
  intros Hl N1 N2. cbv zeta.
  destruct (train_frame
              (fun l => l = NeuralKalmanFilter.Wr (self w) \/
                        l = NeuralKalmanFilter.Wout (self w))
              (mem w) _ _ _ (or_introl eq_refl) (or_intror eq_refl)
              inputs controls inf_iters inf_lr learn_iters learn_lr w
              (nkf_frame_refl _ w)) as (E1 & E2 & E3 & _ & Ag).
  split_and!; auto. apply Ag; [exact Hl|]. intros [?|?]; auto.
Qed.

(** X7: the constructor of [NeuralKalmanFilter] clones its arguments, so
    that training the solver it makes changes no tensor that existed
    before the construction: not the matrices the caller passed, and not
    the weights of another solver made from them. *)
Theorem X7_training_spares_the_callers_tensors
    (h h' : heap) (o : NeuralKalmanFilter.t) (A B C : tensor) (n : nat)
    (dyn : bool) (name : string) (inputs controls : tensor)
    (inf_iters : nat) (inf_lr : R) (learn_iters : nat) (learn_lr : R) (l : loc) :
  NeuralKalmanFilter.init A B C n dyn name h = (h', Ok o) ->
  is_Some (h !! l) ->
  mem (NeuralKalmanFilter.train inputs controls inf_iters inf_lr learn_iters learn_lr
         (World h' o)).1 !! l
  = h !! l.
Proof.
  intros Hinit Hl. revert Hinit.
  unfold NeuralKalmanFilter.init, new_tensor. unfold_action. cbn.
  destruct (select_nonlin name) as [nl|e];
    [|intros H; destruct (pair_Raise_Ok _ _ _ _ H)].
  intros H. apply pair_Ok_inv in H as [<- <-].
  set (l1 := fresh (dom h)). set (h1 := <[l1 := A]> h).
  set (l2 := fresh (dom h1)). set (h2 := <[l2 := B]> h1).
  set (l3 := fresh (dom h2)).
  assert (H1 : l <> l1) by (apply fresh_ne, Hl).
  assert (H2 : l <> l2).
  { apply fresh_ne. subst h1. rewrite lookup_insert_is_Some'. auto. }
  assert (H3 : l <> l3).
  { apply fresh_ne. subst h2 h1. rewrite !lookup_insert_is_Some'. auto. }
  assert (Hsame : <[l3 := C]> h2 !! l = h !! l).
  { subst h2 h1. rewrite !lookup_insert_ne by auto. reflexivity. }
  rewrite <- Hsame.
  match goal with
  | |- mem (NeuralKalmanFilter.train _ _ _ _ _ _ ?w).1 !! _ = _ =>
      destruct (train_frame
                  (fun l => l = NeuralKalmanFilter.Wr (self w) \/
                            l = NeuralKalmanFilter.Wout (self w))
                  (mem w) _ _ _ (or_introl eq_refl) (or_intror eq_refl)
                  inputs controls inf_iters inf_lr learn_iters learn_lr w
                  (nkf_frame_refl _ w)) as (_ & _ & _ & _ & Ag)
  end.
  apply Ag.
  - cbn. rewrite Hsame. exact Hl.
  - cbn. intros [?|?]; auto.
Qed.

(** ** The iterative solver: calls that do not get to infer *)

Section NeuralEdges.
Import NeuralKalmanFilter.

Lemma train_step_no_errors inputs controls inf_lr learn_lr l m o zl zv :
  z o = Some zl -> m !! zl = Some zv -> ez o = None ->
  (train_step inputs controls 0 inf_lr learn_lr l (World m o)).2 = Raise TypeError.
Proof.
  intros Hz Hzv Hez. unfold train_step. rewrite bind_unfold.
  rewrite (begin_step_Ok inputs controls l m o zl zv Hz Hzv).
  cbn [repeat_n]. unfold learn, update_transition.
  unfold get_self, set_self, load, store, alloc. unfold_action. cbn.
  rewrite Hez. reflexivity.
Qed.

(** X8: [NeuralKalmanFilter.train] with [inf_iters = 0] on a solver that
    holds no latent error, as the constructor leaves it, does not return:
    at the first timestep no round of inference runs, and the update of the
    transition weights raises on the error [ez] that is still [None]. *)
Theorem X8_train_without_errors_raises
    (w : world NeuralKalmanFilter.t) (inputs controls : tensor) (inf_lr : R)
    (learn_iters : nat) (learn_lr : R) :
  ez (self w) = None ->
  (1 <= learn_iters)%nat -> (1 <= ncols inputs)%nat ->
  (train inputs controls 0 inf_lr learn_iters learn_lr w).2 = Raise TypeError.
Proof.
  intros Hez Hn HL. destruct w as [m o]. cbn in Hez.
  destruct learn_iters as [|n]; [lia|]. destruct (ncols inputs) as [|L] eqn:HLen; [lia|].
  unfold train. rewrite HLen. cbn [repeat_n]. rewrite bind_unfold.
  unfold train_pass at 1. rewrite bind_unfold, init_z_eq. cbn [seq for_each].
  rewrite bind_unfold.
  pose proof (train_step_no_errors inputs controls inf_lr learn_lr 0
                (<[fresh (dom m) := zeros (latent_size o) 1]> m)
                (set_z (Some (fresh (dom m))) o) (fresh (dom m))
                (zeros (latent_size o) 1) eq_refl (lookup_insert_eq _ _ _) Hez) as H.
  destruct (train_step _ _ _ _ _ _ _) as [s [[]|e]]; cbn in H; [discriminate|].
  cbn. exact H.
Qed.


(** X9: on a sequence of no timestep [NeuralKalmanFilter.predict] does
    not return: it sets the latent estimate to zero, runs no round of its
    loop, and raises at the concatenation of the empty list of latent
    states; no tensor that existed before the call has changed. *)
Theorem X9_predict_on_no_timestep
    (w : world NeuralKalmanFilter.t) (inputs controls : tensor) (inf_iters : nat) (inf_lr : R) :
  ncols inputs = 0%nat ->
  (predict inputs controls inf_iters inf_lr w).2 = Raise RuntimeError /\
  z_val (predict inputs controls inf_iters inf_lr w).1
  = Some (zeros (latent_size (self w)) 1) /\
  forall l, is_Some (mem w !! l) ->
    mem (predict inputs controls inf_iters inf_lr w).1 !! l = mem w !! l.
Proof.
  intros HL. destruct w as [m o].
  assert (H : predict inputs controls inf_iters inf_lr (World m o)
              = (World (<[fresh (dom m) := zeros (latent_size o) 1]> m)
                   (set_z (Some (fresh (dom m))) o), Raise RuntimeError)).
  { unfold predict, predict_upto. rewrite HL. reflexivity. }
  rewrite H. cbn [fst snd]. unfold z_val, deref. cbn. rewrite lookup_insert_eq.
  split_and!; try reflexivity.
  intros l Hl. apply lookup_insert_ne, not_eq_sym, fresh_ne, Hl.
Qed.


(** X10: on a sequence of no timestep [NeuralKalmanFilter.train] returns,
    whatever [learn_iters] is, and has changed no tensor that existed
    before the call: no weight is updated. *)
Theorem X10_train_on_no_timestep
    (w : world NeuralKalmanFilter.t) (inputs controls : tensor) (inf_iters : nat) (inf_lr : R)
    (learn_iters : nat) (learn_lr : R) :
  ncols inputs = 0%nat ->
  (train inputs controls inf_iters inf_lr learn_iters learn_lr w).2 = Ok tt /\
  forall l, is_Some (mem w !! l) ->
    mem (train inputs controls inf_iters inf_lr learn_iters learn_lr w).1 !! l
    = mem w !! l.
Proof.
  intros HL. unfold train. rewrite HL. cbn [seq].
  revert w. induction learn_iters as [|n IH]; intros w.
  - split; [reflexivity|]. intros l _. reflexivity.
  - cbn [repeat_n]. rewrite bind_unfold. destruct w as [m o].
    unfold train_pass at 1 3. rewrite bind_unfold, init_z_eq. cbn [for_each].
    cbn -[repeat_n train_pass].
    destruct (IH (World (<[fresh (dom m) := zeros (latent_size o) 1]> m)
                    (set_z (Some (fresh (dom m))) o))) as [H1 H2].
    split; [exact H1|]. intros l Hl. rewrite H2.
    + apply lookup_insert_ne, not_eq_sym, fresh_ne, Hl.
    + cbn. rewrite lookup_insert_is_Some'. auto.
Qed.


End NeuralEdges.

(** ** The iterative solver: one round of inference *)

Lemma get_self_bind {O B} (k : O -> action (world O) B) w :
  (get_self ≫= k) w = k (self w) w.
Proof. reflexivity. Qed.

Lemma set_self_bind {O B} (f : O -> O) (k : unit -> action (world O) B) w :
  (set_self f ≫= k) w = k tt (World (mem w) (f (self w))).
Proof. reflexivity. Qed.

Lemma read_bind {S A B} (a : A) (k : A -> action S B) s :
  (read (Some a) ≫= k) s = k a s.
Proof. reflexivity. Qed.

Lemma lift_bind {S A B} (a : A) (k : A -> action S B) s :
  (lift (Ok a) ≫= k) s = k a s.
Proof. reflexivity. Qed.

Lemma load_bind {O B} l v (k : tensor -> action (world O) B) w :
  mem w !! l = Some v -> (load l ≫= k) w = k v w.
Proof. intros H. rewrite bind_unfold. unfold load. rewrite H. reflexivity. Qed.

Lemma zip_plus_scale_0 (g : list R) : forall v,
  length v = length g -> zip_with Rplus v (map (Rmult 0) g) = v.
Proof.
  induction g as [|g1 g IH]; intros [|v1 v] Hlen; simpl in Hlen;
    try discriminate; [reflexivity|].
  cbn [map zip_with]. rewrite IH by lia. f_equal. ring.
Qed.

Lemma zipT_plus_scale_0 r c : forall z g,
  shape r c z -> shape r c g -> zipT Rplus z (scale 0 g) = z.
Proof.
  induction r as [|r IH]; intros z g Hz Hg.
  - rewrite (shape_nil_inv _ _ Hz). reflexivity.
  - apply shape_cons_inv in Hz as (z1 & z' & -> & Hz1 & Hz).
    apply shape_cons_inv in Hg as (g1 & g' & -> & Hg1 & Hg).
    unfold zipT, scale, tmap. cbn [map zip_with].
    rewrite zip_plus_scale_0 by congruence.
    f_equal. apply (IH z' g' Hz Hg).
Qed.

Section Round.
Import NeuralKalmanFilter.
Variables n k q b : nat.
Variables Wrv Winv Woutv zv basis xv uv : tensor.
Hypothesis shape_Wr : shape (S n) (S n) Wrv.
Hypothesis shape_Win : shape (S n) (S k) Winv.
Hypothesis shape_Wout : shape (S q) (S n) Woutv.
Hypothesis shape_z : shape (S n) b zv.
Hypothesis shape_basis : shape (S n) b basis.
Hypothesis shape_u : shape (S k) b uv.
Hypothesis shape_x : shape (S q) b xv.

Lemma shape_latent_error nl :
  shape (S n) b (NodeSpec.latent_error nl Wrv Winv zv basis uv).
Proof.
  unfold NodeSpec.latent_error, activate.
  repeat first [ apply shape_zipT | eapply shape_mmul | apply shape_tmap
               | eassumption ].
Qed.

Lemma shape_obs_error nl : shape (S q) b (NodeSpec.obs_error nl Woutv zv xv).
Proof.
  unfold NodeSpec.obs_error, activate.
  repeat first [ apply shape_zipT | eapply shape_mmul | apply shape_tmap
               | eassumption ].
Qed.

Lemma shape_delta_z nl ez ex :
  shape (S n) b ez -> shape (S q) b ex ->
  shape (S n) b (NodeSpec.delta_z nl Woutv zv ez ex).
Proof.
  intros Hez Hex. unfold NodeSpec.delta_z, deriv.
  apply shape_zipT; [exact Hez|]. apply shape_zipT; [apply shape_tmap, shape_z|].
  eapply shape_mmul; [apply shape_transpose, shape_Wout | exact Hex].
Qed.

Lemma nkf_round_Ok m o zl inf_lr :
  z o = Some zl -> m !! zl = Some zv ->
  m !! Wr o = Some Wrv -> m !! Win o = Some Winv -> m !! Wout o = Some Woutv ->
  x o = Some xv -> u o = Some uv ->
  (if dynamic_inf o then basis = zv
   else exists pl, prev_z o = Some pl /\ m !! pl = Some basis) ->
  let ezv := NodeSpec.latent_error (nonlin o) Wrv Winv zv basis uv in
  let pxv := mmul Woutv (activate (nonlin o) zv) in
  let exv := NodeSpec.obs_error (nonlin o) Woutv zv xv in
  update_nodes inf_lr (World m o)
  = (World (<[zl := zipT Rminus zv
                      (scale inf_lr (NodeSpec.delta_z (nonlin o) Woutv zv ezv exv))]> m)
       (set_ex (Some exv) (set_pred_x (Some pxv) (set_ez (Some ezv) o))),
     Ok tt).
Proof.
  intros Hz Hzv HWr HWin HWout Hx Hu Hb ezv pxv exv.
  pose proof (shape_latent_error (nonlin o)) as Sez. fold ezv in Sez.
  pose proof (shape_obs_error (nonlin o)) as Sex. fold exv in Sex.
  pose proof (shape_delta_z (nonlin o) ezv exv Sez Sex) as Sd.
  assert (Sa : shape (S n) b (mmul Wrv (activate (nonlin o) basis))).
  { eapply shape_mmul; [exact shape_Wr | apply shape_tmap, shape_basis]. }
  assert (Sb : shape (S n) b (mmul Winv (activate (nonlin o) uv))).
  { eapply shape_mmul; [exact shape_Win | apply shape_tmap, shape_u]. }
  assert (Sp : shape (S q) b pxv).
  { eapply shape_mmul; [exact shape_Wout | apply shape_tmap, shape_z]. }
  assert (Sback : shape (S n) b (mmul (transpose Woutv) exv)).
  { eapply shape_mmul; [apply shape_transpose, shape_Wout | exact Sex]. }
  assert (M1 : matmul Wrv (activate (nonlin o) basis)
               = Ok (mmul Wrv (activate (nonlin o) basis))).
  { apply (matmul_Ok (S n) (S n)); [exact shape_Wr|].
    unfold activate, tmap. rewrite length_map. apply shape_basis. }
  assert (M2 : matmul Winv (activate (nonlin o) uv)
               = Ok (mmul Winv (activate (nonlin o) uv))).
  { apply (matmul_Ok (S n) (S k)); [exact shape_Win|].
    unfold activate, tmap. rewrite length_map. apply shape_u. }
  assert (M3 : matmul Woutv (activate (nonlin o) zv) = Ok pxv).
  { apply (matmul_Ok (S q) (S n)); [exact shape_Wout|].
    unfold activate, tmap. rewrite length_map. apply shape_z. }
  assert (M4 : matmul (transpose Woutv) exv = Ok (mmul (transpose Woutv) exv)).
  { apply (matmul_Ok (S n) (S q)); [apply shape_transpose, shape_Wout|].
    apply Sex. }
  assert (E1 : tsub zv (mmul Wrv (activate (nonlin o) basis))
               = Ok (zipT Rminus zv (mmul Wrv (activate (nonlin o) basis)))).
  { apply (elementwise_Ok Rminus (S n) b); assumption. }
  assert (E2 : tsub (zipT Rminus zv (mmul Wrv (activate (nonlin o) basis)))
                 (mmul Winv (activate (nonlin o) uv)) = Ok ezv).
  { apply (elementwise_Ok Rminus (S n) b); [apply shape_zipT|]; assumption. }
  assert (E3 : tsub xv pxv = Ok exv).
  { apply (elementwise_Ok Rminus (S q) b); assumption. }
  assert (E4 : tmul (deriv (nonlin o) zv) (mmul (transpose Woutv) exv)
               = Ok (zipT Rmult (deriv (nonlin o) zv) (mmul (transpose Woutv) exv))).
  { apply (elementwise_Ok Rmult (S n) b); [apply shape_tmap, shape_z|exact Sback]. }
  assert (E5 : tsub ezv (zipT Rmult (deriv (nonlin o) zv) (mmul (transpose Woutv) exv))
               = Ok (NodeSpec.delta_z (nonlin o) Woutv zv ezv exv)).
  { apply (elementwise_Ok Rminus (S n) b); [exact Sez|].
    apply shape_zipT; [apply shape_tmap, shape_z|exact Sback]. }
  assert (E6 : tadd (NodeSpec.delta_z (nonlin o) Woutv zv ezv exv)
                 (scale 0 (tmap sgn zv))
               = Ok (NodeSpec.delta_z (nonlin o) Woutv zv ezv exv)).
  { unfold tadd.
    rewrite (elementwise_Ok Rplus (S n) b _ _ Sd
               (shape_scale 0 _ _ _ (shape_tmap sgn _ _ _ shape_z))).
    rewrite (zipT_plus_scale_0 (S n) b _ _ Sd (shape_tmap sgn _ _ _ shape_z)).
    reflexivity. }
  assert (E7 : inplace Rminus zv
                 (scale inf_lr (NodeSpec.delta_z (nonlin o) Woutv zv ezv exv))
               = Ok (zipT Rminus zv
                       (scale inf_lr (NodeSpec.delta_z (nonlin o) Woutv zv ezv exv)))).
  { apply (inplace_Ok Rminus (S n) b); [exact shape_z|apply shape_scale, Sd]. }
  assert (Hbasis : forall B (kk : tensor -> action (world t) B) m' o',
             m' = m ->
             ((if dynamic_inf o then mret zv
               else pl ← read (prev_z o); load pl) ≫= kk) (World m' o')
             = kk basis (World m' o')).
  { intros B kk m' o' ->. destruct (dynamic_inf o).
    - subst basis. reflexivity.
    - destruct Hb as (pl & Hpl & Hpv). rewrite Hpl.
      rewrite bind_unfold, read_bind. unfold load. cbn [mem]. rewrite Hpv.
      reflexivity. }
  unfold update_nodes.
  rewrite get_self_bind. cbn [self mem].
  rewrite Hz, read_bind.
  rewrite (load_bind zl zv) by exact Hzv.
  rewrite (load_bind (Wr o) Wrv) by exact HWr.
  rewrite Hbasis by reflexivity.
  rewrite M1, lift_bind, E1, lift_bind.
  rewrite (load_bind (Win o) Winv) by exact HWin.
  rewrite Hu, read_bind, M2, lift_bind, E2, lift_bind.
  rewrite set_self_bind. cbn [self mem].
  rewrite (load_bind (Wout o) Woutv) by exact HWout.
  rewrite M3, lift_bind, set_self_bind. cbn [self mem].
  rewrite Hx, read_bind, E3, lift_bind, set_self_bind. cbn [self mem].
  rewrite M4, lift_bind, E4, lift_bind, E5, lift_bind, E6, lift_bind, E7, lift_bind.
  reflexivity.
Qed.

End Round.


(** X11: on matrices of fitting shapes a round of
    [NeuralKalmanFilter.update_nodes] returns; it keeps the latent error
    [ez = z - Wr nonlin(basis) - Win nonlin(u)], the prediction
    [Wout nonlin(z)] and the observation error [ex = x - Wout nonlin(z)],
    and moves the latent estimate in place to
    [z - inf_lr * (ez - nonlin.deriv(z) * (Wout^T ex))]: the sign term of
    weight [0.0] adds nothing.  [basis] is [z] with [dynamic_inf] and
    [prev_z] without. *)
Theorem X11_update_nodes_round
    (m : heap) (o : NeuralKalmanFilter.t) (zl : loc)
    (Wrv Winv Woutv zv basis xv uv : tensor) (n k q b : nat) (inf_lr : R) :
  NeuralKalmanFilter.z o = Some zl -> m !! zl = Some zv ->
  m !! NeuralKalmanFilter.Wr o = Some Wrv ->
  m !! NeuralKalmanFilter.Win o = Some Winv ->
  m !! NeuralKalmanFilter.Wout o = Some Woutv ->
  NeuralKalmanFilter.x o = Some xv -> NeuralKalmanFilter.u o = Some uv ->
  (if NeuralKalmanFilter.dynamic_inf o then basis = zv
   else exists pl, NeuralKalmanFilter.prev_z o = Some pl /\ m !! pl = Some basis) ->
  is_shape (S n) (S n) Wrv = true -> is_shape (S n) (S k) Winv = true ->
  is_shape (S q) (S n) Woutv = true -> is_shape (S n) b zv = true ->
  is_shape (S n) b basis = true -> is_shape (S k) b uv = true ->
  is_shape (S q) b xv = true ->
  let nl := NeuralKalmanFilter.nonlin o in
  let ezv := NodeSpec.latent_error nl Wrv Winv zv basis uv in
  let pxv := mmul Woutv (activate nl zv) in
  let exv := NodeSpec.obs_error nl Woutv zv xv in
  NeuralKalmanFilter.update_nodes inf_lr (World m o)
  = (World (<[zl := zipT Rminus zv
                      (scale inf_lr (NodeSpec.delta_z nl Woutv zv ezv exv))]> m)
       (NeuralKalmanFilter.set_ex (Some exv)
          (NeuralKalmanFilter.set_pred_x (Some pxv)
             (NeuralKalmanFilter.set_ez (Some ezv) o))),
     Ok tt).
Proof.
  intros Hz Hzv HWr HWin HWout Hx Hu Hb SWr SWin SWout Sz Sb Su Sx.
  apply is_shape_spec in SWr, SWin, SWout, Sz, Sb, Su, Sx. cbv zeta.
  exact (nkf_round_Ok n k q b Wrv Winv Woutv zv basis xv uv SWr SWin SWout Sz Sb Su Sx
           m o zl inf_lr Hz Hzv HWr HWin HWout Hx Hu Hb).
Qed.

(** ** The iterative solver: the learning updates of a timestep *)

(** The last round of a loop. *)
Lemma repeat_n_last {S} n (c : action S unit) s s1 :
  repeat_n n c s = (s1, Ok tt) -> repeat_n (Datatypes.S n) c s = c s1.
Proof.
  revert s. induction n as [|n IH]; intros s H.
  - apply pair_Ok_inv in H as [<- _]. cbn [repeat_n]. rewrite bind_unfold.
    destruct (c s) as [s' [[]|e]]; reflexivity.
  - change (repeat_n (Datatypes.S n) c) with (c;; repeat_n n c) in H.
    apply bind_Ok_inv in H as (sa & [] & Hc & Hr).
    change (repeat_n (Datatypes.S (Datatypes.S n)) c)
      with (c;; repeat_n (Datatypes.S n) c).
    rewrite (bind_Ok _ _ _ _ _ Hc). apply IH, Hr.
Qed.

(** A loop over one more element. *)
Lemma for_each_last {S A} (body : A -> action S unit) xs x s s1 :
  for_each body xs s = (s1, Ok tt) -> for_each body (xs ++ [x]) s = body x s1.
Proof.
  revert s. induction xs as [|y xs IH]; intros s H.
  - apply pair_Ok_inv in H as [<- _]. cbn [app for_each]. rewrite bind_unfold.
    destruct (body x s) as [s' [[]|e]]; reflexivity.
  - cbn [app for_each] in *.
    apply bind_Ok_inv in H as (sa & [] & Hc & Hr).
    rewrite (bind_Ok _ _ _ _ _ Hc). apply IH, Hr.
Qed.

Section Learning.
Import NeuralKalmanFilter.

(** A timestep of [train] leads from one cut of the pass to the next. *)
Lemma train_upto_next inputs controls inf_iters inf_lr learn_lr i l w0 w :
  train_upto inputs controls inf_iters inf_lr learn_lr i l w0 = (w, Ok tt) ->
  train_upto inputs controls inf_iters inf_lr learn_lr i (S l) w0
  = train_step inputs controls inf_iters inf_lr learn_lr l w.
Proof.
  unfold train_upto, train_pass. intros H.
  apply bind_Ok_inv in H as (wa & [] & Hpasses & H).
  apply bind_Ok_inv in H as (wb & [] & Hinit & Hsteps).
  rewrite (bind_Ok _ _ _ _ _ Hpasses), (bind_Ok _ _ _ _ _ Hinit).
  rewrite seq_S. apply for_each_last, Hsteps.
Qed.

(** The slices of a timestep stay in [x] and [u] through the rounds of
    its inner loop. *)
Lemma train_step_upto_slices inputs controls inf_lr l k w wk :
  train_step_upto inputs controls inf_lr l k w = (wk, Ok tt) ->
  x (self wk) = Some (column l inputs) /\ u (self wk) = Some (column l controls).
Proof.
  unfold train_step_upto. intros H.
  apply bind_Ok_inv in H as (wa & [] & Hb & Hr).
  assert (Ha : x (self wa) = Some (column l inputs) /\
               u (self wa) = Some (column l controls)).
  { revert Hb. destruct w as [m o]. unfold begin_step.
    unfold get_self, set_self, load, alloc. unfold_action. cbn.
    destruct (z o) as [zl|]; cbn; [|intros E; destruct (pair_Raise_Ok _ _ _ _ E)].
    destruct (m !! zl); cbn; [|intros E; destruct (pair_Raise_Ok _ _ _ _ E)].
    intros E. apply pair_Ok_inv in E as [<- _]. split; reflexivity. }
  pose proof (repeat_n_inv
                (fun s => x (self s) = Some (column l inputs) /\
                          u (self s) = Some (column l controls))
                k (update_nodes inf_lr)) as Hinv.
  cbv beta in Hinv.
  assert (Hstep : forall s : world t,
             x (self s) = Some (column l inputs) /\
             u (self s) = Some (column l controls) ->
             x (self (update_nodes inf_lr s).1) = Some (column l inputs) /\
             u (self (update_nodes inf_lr s).1) = Some (column l controls)).
  { intros s [Hx Hu]. destruct (update_nodes_slices inf_lr s) as [-> ->]. auto. }
  specialize (Hinv Hstep wa Ha). rewrite Hr in Hinv. exact Hinv.
Qed.

(** The two updates on matrices of fitting shapes. *)
Lemma learn_run lr m o zl pl ezv exv zv pv Wrv Woutv n q :
  wf (World m o) ->
  ez o = Some ezv -> ex o = Some exv ->
  z o = Some zl -> m !! zl = Some zv ->
  prev_z o = Some pl -> m !! pl = Some pv ->
  m !! Wr o = Some Wrv -> m !! Wout o = Some Woutv ->
  shape (S n) 1 ezv -> shape (S q) 1 exv ->
  shape (S n) 1 zv -> shape (S n) 1 pv ->
  shape (S n) (S n) Wrv -> shape (S q) (S n) Woutv ->
  learn lr (World m o)
  = (World
       (<[Wout o := zipT Rplus Woutv
                      (scale lr (mmul exv (transpose (activate (nonlin o) zv))))]>
          (<[Wr o := zipT Rplus Wrv
                       (scale lr (mmul ezv (transpose (activate (nonlin o) pv))))]> m))
       o, Ok tt).
Proof.
  intros Hw Hez Hex Hz Hzv Hp Hpv HWr HWout Sez Sex Sz Sp SWr SWout.
  destruct Hw as (_ & _ & _ & N1 & N2 & N3 & W7 & W8). cbn in *.
  destruct (W7 zl Hz) as (_ & Nz1 & Nz2 & Nz3).
  destruct (W8 pl Hp) as (_ & Np1 & Np2 & Np3 & Np4).
  assert (St : forall M, shape (S n) 1 M ->
                 shape 1 (S n) (transpose (activate (nonlin o) M))).
  { intros M SM. apply shape_transpose, shape_tmap, SM. }
  assert (M1 : matmul ezv (transpose (activate (nonlin o) pv))
               = Ok (mmul ezv (transpose (activate (nonlin o) pv)))).
  { apply (matmul_Ok (S n) 1); [exact Sez | apply (St pv Sp)]. }
  assert (M2 : matmul exv (transpose (activate (nonlin o) zv))
               = Ok (mmul exv (transpose (activate (nonlin o) zv)))).
  { apply (matmul_Ok (S q) 1); [exact Sex | apply (St zv Sz)]. }
  assert (I1 : inplace Rplus Wrv
                 (scale lr (mmul ezv (transpose (activate (nonlin o) pv))))
               = Ok (zipT Rplus Wrv
                       (scale lr (mmul ezv (transpose (activate (nonlin o) pv)))))).
  { apply (inplace_Ok Rplus (S n) (S n)); [exact SWr|]. apply shape_scale.
    eapply shape_mmul; [exact Sez | apply (St pv Sp)]. }
  assert (I2 : inplace Rplus Woutv
                 (scale lr (mmul exv (transpose (activate (nonlin o) zv))))
               = Ok (zipT Rplus Woutv
                       (scale lr (mmul exv (transpose (activate (nonlin o) zv)))))).
  { apply (inplace_Ok Rplus (S q) (S n)); [exact SWout|]. apply shape_scale.
    eapply shape_mmul; [exact Sex | apply (St zv Sz)]. }
  unfold learn, update_transition, update_emission.
  unfold get_self, set_self, load, store. unfold_action. cbn.
  rewrite Hez. cbn. rewrite Hp. cbn. rewrite Hpv. cbn. rewrite M1. cbn.
  rewrite HWr. cbn. rewrite I1. cbn. rewrite Hex. cbn. rewrite Hz. cbn.
  rewrite (lookup_insert_ne _ (Wr o) zl) by auto. rewrite Hzv. cbn.
  rewrite M2. cbn.
  rewrite (lookup_insert_ne _ (Wr o) (Wout o)) by auto. rewrite HWout. cbn.
  rewrite I2. reflexivity.
Qed.

End Learning.

(** C4: in [train] with [inf_iters = S k], at timestep [l] of pass [i],
    which starts in the world [w], on tensors of fitting shapes.  Let [wk]
    be the world after the first [k] rounds of the inner loop, with the
    latent estimate [zv].  The last round computes the latent error
    [ez = z - Wr nonlin(basis) - Win nonlin(u)] and the observation error
    [ex = x - Wout nonlin(z)] at [zv], the estimate before its own update,
    where [basis] is [prev_z], or [z] with [dynamic_inf]; it keeps them in
    the object and moves the estimate to [z'], and the inner loop ends
    there, in [w1].  What follows is exactly two updates: the
    timestep returns, in a world that differs from [w1] in the tensors of
    [Wr] and [Wout] alone, where [Wr] has become
    [Wr + learn_lr * ez * nonlin(prev_z)^T] and [Wout] has become
    [Wout + learn_lr * ex * nonlin(z')^T]; the next timestep of the pass
    starts in that world. *)
Theorem C4_two_outer_product_updates
    (w0 w wk : world NeuralKalmanFilter.t) (inputs controls : tensor) (i l k : nat)
    (inf_lr learn_lr : R) (Wrv Winv Woutv zv pv : tensor) (n c q : nat) :
  NeuralKalmanFilter.wf w0 ->
  NeuralKalmanFilter.train_upto inputs controls (S k) inf_lr learn_lr i l w0
  = (w, Ok tt) ->
  NeuralKalmanFilter.train_step_upto inputs controls inf_lr l k w = (wk, Ok tt) ->
  NeuralKalmanFilter.Wr_val wk = Some Wrv ->
  NeuralKalmanFilter.Win_val wk = Some Winv ->
  NeuralKalmanFilter.Wout_val wk = Some Woutv ->
  NeuralKalmanFilter.z_val wk = Some zv ->
  NeuralKalmanFilter.prev_z_val wk = Some pv ->
  is_shape (S n) (S n) Wrv = true -> is_shape (S n) (S c) Winv = true ->
  is_shape (S q) (S n) Woutv = true ->
  is_shape (S n) 1 zv = true -> is_shape (S n) 1 pv = true ->
  is_shape (S q) 1 (column l inputs) = true ->
  is_shape (S c) 1 (column l controls) = true ->
  let nl := NeuralKalmanFilter.nonlin (self wk) in
  let basis := if NeuralKalmanFilter.dynamic_inf (self wk) then zv else pv in
  let ezv := NodeSpec.latent_error nl Wrv Winv zv basis (column l controls) in
  let exv := NodeSpec.obs_error nl Woutv zv (column l inputs) in
  let z' := zipT Rminus zv (scale inf_lr (NodeSpec.delta_z nl Woutv zv ezv exv)) in
  let Wr' := zipT Rplus Wrv (scale learn_lr (mmul ezv (transpose (activate nl pv)))) in
  let Wout' :=
    zipT Rplus Woutv (scale learn_lr (mmul exv (transpose (activate nl z')))) in
  exists w1 w',
    NeuralKalmanFilter.train_step_upto inputs controls inf_lr l (S k) w = (w1, Ok tt) /\
    NeuralKalmanFilter.ez (self w1) = Some ezv /\
    NeuralKalmanFilter.ex (self w1) = Some exv /\
    NeuralKalmanFilter.z_val w1 = Some z' /\
    NeuralKalmanFilter.prev_z_val w1 = Some pv /\
    NeuralKalmanFilter.Wr_val w1 = Some Wrv /\
    NeuralKalmanFilter.Wout_val w1 = Some Woutv /\
    NeuralKalmanFilter.train_step inputs controls (S k) inf_lr learn_lr l w
    = (w', Ok tt) /\
    NeuralKalmanFilter.train_upto inputs controls (S k) inf_lr learn_lr i (S l) w0
    = (w', Ok tt) /\
    self w' = self w1 /\
    mem w' = <[NeuralKalmanFilter.Wout (self w1) := Wout']>
               (<[NeuralKalmanFilter.Wr (self w1) := Wr']> (mem w1)) /\
    NeuralKalmanFilter.Wr_val w' = Some Wr' /\
    NeuralKalmanFilter.Wout_val w' = Some Wout' /\
    NeuralKalmanFilter.Win_val w' = Some Winv /\
    NeuralKalmanFilter.z_val w' = Some z' /\
    NeuralKalmanFilter.prev_z_val w' = Some pv.
Proof.
  intros Hw0 Hstart Hupto HWr HWin HWout Hzv Hpv SWr SWin SWout Sz Sp Sx Su.
  apply is_shape_spec in SWr, SWin, SWout, Sz, Sp, Sx, Su.
  assert (Hw : NeuralKalmanFilter.wf w).
  { apply (keeps_run _ _ _ _ _
             (train_upto_keeps_config inputs controls (S k) inf_lr learn_lr i l)
             Hw0 Hstart). }
  rewrite (train_upto_next _ _ _ _ _ _ _ _ _ Hstart).
  destruct (train_step_upto_slices _ _ _ _ _ _ _ Hupto) as [Hx Hu].
  assert (Hwk : NeuralKalmanFilter.wf wk).
  { apply (keeps_run _ _ _ _ _
             (train_step_upto_keeps_config inputs controls inf_lr l k) Hw Hupto). }
  destruct wk as [m o]. intros nl basis ezv exv z' Wr' Wout'.
  unfold NeuralKalmanFilter.Wr_val, NeuralKalmanFilter.Win_val,
    NeuralKalmanFilter.Wout_val, NeuralKalmanFilter.z_val,
    NeuralKalmanFilter.prev_z_val, deref in *.
  cbn [self mem] in *.
  destruct (NeuralKalmanFilter.z o) as [zl|] eqn:Hz; [|discriminate].
  destruct (NeuralKalmanFilter.prev_z o) as [pl|] eqn:Hp; [|discriminate].
  cbn in Hzv, Hpv.
  assert (Sb : shape (S n) 1 basis).
  { subst basis. destruct (NeuralKalmanFilter.dynamic_inf o); assumption. }
  assert (Hb : if NeuralKalmanFilter.dynamic_inf o then basis = zv
               else exists pl0, NeuralKalmanFilter.prev_z o = Some pl0 /\
                                m !! pl0 = Some basis).
  { subst basis. destruct (NeuralKalmanFilter.dynamic_inf o); [reflexivity|].
    exists pl. auto. }
  pose proof (nkf_round_Ok n c q 1 Wrv Winv Woutv zv basis (column l inputs)
                (column l controls) SWr SWin SWout Sz Sb Su Sx m o zl inf_lr
                Hz Hzv HWr HWin HWout Hx Hu Hb) as Hround.
  cbv zeta in Hround. fold nl in Hround. fold ezv in Hround. fold exv in Hround.
  fold z' in Hround.
  set (o1 := NeuralKalmanFilter.set_ex (Some exv)
               (NeuralKalmanFilter.set_pred_x
                  (Some (mmul Woutv (activate nl zv)))
                  (NeuralKalmanFilter.set_ez (Some ezv) o))) in *.
  set (m1 := <[zl := z']> m) in *.
  assert (Hw1 : NeuralKalmanFilter.wf (World m1 o1)).
  { pose proof (update_nodes_keeps inf_lr _ Hwk) as (Hwf & _).
    rewrite Hround in Hwf. exact Hwf. }
  pose proof Hwk as (_ & _ & _ & N1 & N2 & N3 & W7 & W8). cbn in N1, N2, N3, W7, W8.
  destruct (W7 zl Hz) as (_ & Nz1 & Nz2 & Nz3).
  destruct (W8 pl Hp) as (_ & Np1 & Np2 & Np3 & Np4).
  assert (Npz : zl <> pl) by congruence.
  assert (Sez : shape (S n) 1 ezv).
  { apply (shape_latent_error n c 1 Wrv Winv zv basis (column l controls)); assumption. }
  assert (Sex : shape (S q) 1 exv).
  { apply (shape_obs_error n q 1 Woutv zv (column l inputs)); assumption. }
  assert (Sz' : shape (S n) 1 z').
  { subst z'. apply shape_zipT; [exact Sz|]. apply shape_scale.
    apply (shape_delta_z n q 1 Woutv zv); assumption. }
  assert (Hpv1 : m1 !! pl = Some pv).
  { subst m1. rewrite lookup_insert_ne by auto. exact Hpv. }
  assert (HWr1 : m1 !! NeuralKalmanFilter.Wr o = Some Wrv).
  { subst m1. rewrite lookup_insert_ne by auto. exact HWr. }
  assert (HWout1 : m1 !! NeuralKalmanFilter.Wout o = Some Woutv).
  { subst m1. rewrite lookup_insert_ne by auto. exact HWout. }
  assert (HWin1 : m1 !! NeuralKalmanFilter.Win o = Some Winv).
  { subst m1. rewrite lookup_insert_ne by auto. exact HWin. }
  assert (Hz1 : m1 !! zl = Some z') by (subst m1; apply lookup_insert_eq).
  pose proof (learn_run learn_lr m1 o1 zl pl ezv exv z' pv Wrv Woutv n q Hw1
                eq_refl eq_refl Hz Hz1 Hp Hpv1 HWr1 HWout1 Sez Sex Sz' Sp SWr SWout)
    as Hlearn.
  change (NeuralKalmanFilter.nonlin o1) with nl in Hlearn.
  fold Wr' in Hlearn. fold Wout' in Hlearn.
  unfold NeuralKalmanFilter.train_step_upto in Hupto.
  apply bind_Ok_inv in Hupto as (wa & [] & Hbegin & Hrounds).
  assert (Hloop : NeuralKalmanFilter.train_step_upto inputs controls inf_lr l (S k) w
                  = (World m1 o1, Ok tt)).
  { unfold NeuralKalmanFilter.train_step_upto.
    rewrite (bind_Ok _ _ _ _ _ Hbegin), (repeat_n_last _ _ _ _ Hrounds).
    exact Hround. }
  assert (Hstep : NeuralKalmanFilter.train_step inputs controls (S k) inf_lr
                    learn_lr l w
                  = (World (<[NeuralKalmanFilter.Wout o1 := Wout']>
                              (<[NeuralKalmanFilter.Wr o1 := Wr']> m1)) o1, Ok tt)).
  { unfold NeuralKalmanFilter.train_step.
    rewrite (bind_Ok _ _ _ _ _ Hbegin), bind_unfold.
    rewrite (repeat_n_last _ _ _ _ Hrounds), Hround. exact Hlearn. }
  exists (World m1 o1). eexists.
  split; [exact Hloop|].
  split; [reflexivity|]. split; [reflexivity|].
  cbn [self mem]. change (NeuralKalmanFilter.z o1) with (NeuralKalmanFilter.z o).
  change (NeuralKalmanFilter.prev_z o1) with (NeuralKalmanFilter.prev_z o).
  change (NeuralKalmanFilter.Wr o1) with (NeuralKalmanFilter.Wr o) in *.
  change (NeuralKalmanFilter.Wout o1) with (NeuralKalmanFilter.Wout o) in *.
  change (NeuralKalmanFilter.Win o1) with (NeuralKalmanFilter.Win o).
  rewrite Hz, Hp. cbn [mbind option_bind].
  split; [exact Hz1|]. split; [exact Hpv1|]. split; [exact HWr1|].
  split; [exact HWout1|].
  split; [exact Hstep|]. split; [exact Hstep|].
  cbn [self mem].
  change (NeuralKalmanFilter.z o1) with (NeuralKalmanFilter.z o).
  change (NeuralKalmanFilter.prev_z o1) with (NeuralKalmanFilter.prev_z o).
  change (NeuralKalmanFilter.Win o1) with (NeuralKalmanFilter.Win o).
  rewrite Hz, Hp. cbn [mbind option_bind].
  split; [reflexivity|]. split; [reflexivity|].
  split. { rewrite lookup_insert_ne by auto. apply lookup_insert_eq. }
  split. { apply lookup_insert_eq. }
  split. { rewrite !lookup_insert_ne by auto. exact HWin1. }
  split. { rewrite !lookup_insert_ne by auto. exact Hz1. }
  rewrite !lookup_insert_ne by auto. exact Hpv1.
Qed.

(** ** Matrix algebra *)

Lemma nth_map_in {A B} (f : A -> B) (l : list A) i d d' :
  (i < length l)%nat -> nth i (map f l) d' = f (nth i l d).
Proof.
  revert i. induction l as [|a l IH]; intros [|i] Hi; simpl in *; try lia; auto.
  apply IH. lia.
Qed.

Lemma nth_zip_with {A} (f : A -> A -> A) d : forall (a b : list A) j,
  (j < length a)%nat -> (j < length b)%nat ->
  nth j (zip_with f a b) d = f (nth j a d) (nth j b d).
Proof.
  induction a as [|x a IH]; intros [|y b] [|j] Ha Hb; simpl in *; try lia; auto.
  apply IH; lia.
Qed.

Lemma shape_row r c M i : shape r c M -> (i < r)%nat -> length (nth i M []) = c.
Proof.
  intros [H1 H2] Hi. rewrite Forall_forall in H2.
  apply H2, list_elem_of_In, nth_In. lia.
Qed.

Lemma ent_zipT f r c A B i j :
  shape r c A -> shape r c B -> (i < r)%nat -> (j < c)%nat ->
  nth j (nth i (zipT f A B) []) 0
  = f (nth j (nth i A []) 0) (nth j (nth i B []) 0).
Proof.
  intros HA HB Hi Hj. unfold zipT.
  assert (Hrow : nth i (zip_with (zip_with f) A B) []
                 = zip_with f (nth i A []) (nth i B [])).
  { assert (LA : (i < length A)%nat) by (destruct HA; lia).
    assert (LB : (i < length B)%nat) by (destruct HB; lia).
    clear -LA LB. revert B i LA LB.
    induction A as [|a A IH]; intros [|b B] [|i] LA LB; simpl in *; try lia; auto.
    apply IH; lia. }
  rewrite Hrow. apply nth_zip_with.
  - rewrite (shape_row r c A i HA Hi). exact Hj.
  - rewrite (shape_row r c B i HB Hi). exact Hj.
Qed.

Lemma ent_tmap f r c M i j :
  shape r c M -> (i < r)%nat -> (j < c)%nat ->
  nth j (nth i (tmap f M) []) 0 = f (nth j (nth i M []) 0).
Proof.
  intros HM Hi Hj. unfold tmap.
  rewrite (nth_map_in (map f) M i [] []) by (destruct HM; lia).
  apply nth_map_in. rewrite (shape_row r c M i HM Hi). exact Hj.
Qed.

Lemma all_zero_entries r c M :
  shape r c M ->
  (forall i j, (i < r)%nat -> (j < c)%nat -> nth j (nth i M []) 0 = 0) ->
  Forall (Forall (fun v => v = 0)) M.
Proof.
  intros HM H. apply Forall_forall. intros row Hrow.
  apply list_elem_of_In, (In_nth _ _ []) in Hrow as (i & Hi & <-).
  apply Forall_forall. intros v Hv.
  apply list_elem_of_In, (In_nth _ _ 0) in Hv as (j & Hj & <-).
  destruct HM as [L F]. apply H; [lia|].
  rewrite <- (shape_row r c M i (conj L F)); [exact Hj | lia].
Qed.

Lemma zip_with_map_same {A} (f : R -> R -> R) (g h : A -> R) (l : list A) :
  zip_with f (map g l) (map h l) = map (fun a => f (g a) (h a)) l.
Proof. induction l as [|a l IH]; cbn [map zip_with]; [|rewrite IH]; reflexivity. Qed.

Lemma zipT_map_same {A} (f : R -> R -> R) (g h : A -> list R) (l : list A) :
  zipT f (map g l) (map h l) = map (fun a => zip_with f (g a) (h a)) l.
Proof.
  unfold zipT. induction l as [|a l IH]; cbn [map zip_with]; [|rewrite IH]; reflexivity.
Qed.

Lemma dot_plus_l a : forall b v,
  length a = length b -> dot (zip_with Rplus a b) v = dot a v + dot b v.
Proof.
  induction a as [|a1 a IH]; intros [|b1 b] [|v1 v] Hlen; simpl in Hlen;
    try discriminate; cbn [zip_with]; rewrite ?dot_nil_l, ?dot_nil_r; try lra.
  rewrite !dot_cons, IH by lia. ring.
Qed.

Lemma ncols_zipT f r c A B :
  shape (S r) c A -> shape (S r) c B -> ncols (zipT f A B) = c.
Proof. intros HA HB. apply (ncols_shape r). apply shape_zipT; assumption. Qed.

Lemma col_zipT f r c A B j :
  shape r c A -> shape r c B -> (j < c)%nat ->
  col j (zipT f A B) = zip_with f (col j A) (col j B).
Proof.
  revert A B. induction r as [|r IH]; intros A B HA HB Hj.
  - rewrite (shape_nil_inv _ _ HA). reflexivity.
  - apply shape_cons_inv in HA as (a & A' & -> & Ha & HA).
    apply shape_cons_inv in HB as (b & B' & -> & Hb & HB).
    unfold zipT, col. cbn [zip_with map]. f_equal.
    + apply nth_zip_with; lia.
    + apply (IH A' B' HA HB Hj).
Qed.

(** The product distributes over sums and differences. *)
Lemma mmul_plus_l r k A B C :
  shape r k A -> shape r k B ->
  mmul (zipT Rplus A B) C = zipT Rplus (mmul A C) (mmul B C).
Proof.
  revert A B. induction r as [|r IH]; intros A B HA HB.
  - rewrite (shape_nil_inv _ _ HA). reflexivity.
  - apply shape_cons_inv in HA as (a & A' & -> & Ha & HA).
    apply shape_cons_inv in HB as (b & B' & -> & Hb & HB).
    unfold zipT, mmul. cbn [zip_with map]. f_equal.
    + rewrite zip_with_map_same. apply map_ext. intros j.
      apply dot_plus_l. congruence.
    + apply (IH A' B' HA HB).
Qed.

Lemma mmul_minus_r k c A B C :
  shape (S k) c B -> shape (S k) c C ->
  mmul A (zipT Rminus B C) = zipT Rminus (mmul A B) (mmul A C).
Proof.
  intros HB HC. unfold mmul at 2 3. rewrite zipT_map_same.
  unfold mmul. rewrite (ncols_zipT Rminus k c B C HB HC).
  rewrite (ncols_shape _ _ _ HB), (ncols_shape _ _ _ HC).
  apply map_ext. intros a. rewrite zip_with_map_same.
  apply map_ext_in. intros j Hj. apply in_seq in Hj.
  rewrite (col_zipT Rminus (S k) c B C j HB HC) by lia.
  apply dot_minus_r. rewrite !length_col. destruct HB, HC. congruence.
Qed.

(** The product is associative. *)
Lemma col_mmul c B C j :
  ncols C = c -> (j < c)%nat -> col j (mmul B C) = map (fun b => dot b (col j C)) B.
Proof.
  intros Hc Hj. unfold col at 1, mmul. rewrite map_map. apply map_ext. intros b.
  rewrite Hc.
  rewrite (nth_map_in (fun j' => dot b (col j' C)) (seq 0 c) j 0%nat 0)
    by (rewrite length_seq; exact Hj).
  rewrite seq_nth by exact Hj. reflexivity.
Qed.

Lemma mmul_assoc r k l c A B C :
  shape r (S k) A -> shape (S k) (S l) B -> shape (S l) c C ->
  mmul A (mmul B C) = mmul (mmul A B) C.
Proof.
  intros HA HB HC.
  pose proof (shape_mmul _ _ _ _ B C HB HC) as HBC.
  unfold mmul at 1 3. rewrite (ncols_shape _ _ _ HBC), (ncols_shape _ _ _ HC).
  unfold mmul at 2. rewrite map_map, (ncols_shape _ _ _ HB).
  apply map_ext_Forall. destruct HA as [_ HA].
  eapply Forall_impl; [exact HA|]. intros a Ha. cbv beta.
  apply map_ext_in. intros j Hj. apply in_seq in Hj.
  rewrite (col_mmul c B C j (ncols_shape _ _ _ HC)) by lia.
  rewrite (map_ext (fun b => dot b (col j C)) (dot (col j C)))
    by (intros b0; apply dot_comm).
  apply (dot_adjoint (S l) (col j C) B a).
  - destruct HB. congruence.
  - apply HB.
  - rewrite length_col. apply HC.
Qed.

(** The identity matrix. *)
Lemma shape_eye n : shape n n (eye n).
Proof.
  unfold eye. split.
  - rewrite length_map, length_seq. reflexivity.
  - apply Forall_map, Forall_forall. intros i _. cbn.
    rewrite length_map, length_seq. reflexivity.
Qed.

Lemma dot_unit i : forall s (v : list R),
  dot (map (fun j => if (i =? j)%nat then 1 else 0) (seq s (length v))) v
  = if (s <=? i)%nat then nth (i - s) v 0 else 0.
Proof.
  intros s v. revert s. induction v as [|a v IH]; intros s; cbn [length seq map].
  - rewrite dot_nil_r. destruct (s <=? i)%nat; [destruct (i - s)%nat|]; reflexivity.
  - rewrite dot_cons, IH.
    destruct (Nat.eqb_spec i s) as [->|Hne].
    + rewrite Nat.leb_refl, Nat.sub_diag.
      replace (S s <=? s)%nat with false by (symmetry; apply Nat.leb_gt; lia).
      cbn. ring.
    + destruct (Nat.leb_spec s i) as [Hle|Hgt].
      * replace (S s <=? i)%nat with true by (symmetry; apply Nat.leb_le; lia).
        replace (i - s)%nat with (S (i - S s)) by lia. cbn [nth]. ring.
      * replace (S s <=? i)%nat with false by (symmetry; apply Nat.leb_gt; lia).
        ring.
Qed.

Lemma mmul_eye_l n c M : shape (S n) c M -> mmul (eye (S n)) M = M.
Proof.
  intros HM. unfold mmul, eye. rewrite map_map, (ncols_shape _ _ _ HM).
  assert (HMid : map (fun i => nth i M []) (seq 0 (S n)) = M).
  { replace (S n) with (length M) by (destruct HM; auto).
    rewrite (map_nth_rows (fun row => row) M). apply map_id. }
  etrans; [|exact HMid].
  apply map_ext_in. intros i Hi. apply in_seq in Hi.
  rewrite <- (map_nth_seq (nth i M [])).
  rewrite (shape_row (S n) c M i HM) by lia.
  apply map_ext_in. intros j Hj. apply in_seq in Hj.
  replace (S n) with (length (col j M)) by (rewrite length_col; destruct HM; auto).
  rewrite dot_unit. cbn [Nat.leb]. rewrite Nat.sub_0_r.
  apply nth_col. destruct HM; lia.
Qed.

(** ** The closed form is an equilibrium of the inner loop *)

Lemma outcome_bind_Ok {A B} (a : A) (k : A -> outcome B) : (Ok a ≫= k) = k a.
Proof. reflexivity. Qed.

Lemma activate_Linear M : activate Linear M = M.
Proof.
  unfold activate, tmap. induction M as [|row M IH]; [reflexivity|].
  cbn [map]. rewrite IH. f_equal. apply map_id.
Qed.

Ltac shapes :=
  repeat first [ eassumption | apply shape_zipT | apply shape_tmap
               | apply shape_scale | apply shape_transpose | apply shape_eye
               | eapply shape_mmul ].

Section Equilibrium.
Variables n k q b : nat.
Variables Wrv Winv Woutv zv pv xv uv : tensor.
Hypothesis shape_Wr : shape (S n) (S n) Wrv.
Hypothesis shape_Win : shape (S n) (S k) Winv.
Hypothesis shape_Wout : shape (S q) (S n) Woutv.
Hypothesis shape_p : shape (S n) b pv.
Hypothesis shape_u : shape (S k) b uv.
Hypothesis shape_x : shape (S q) b xv.
Hypothesis closed :
  CodingSpec.closed_form Wrv Winv Woutv (S n) xv uv pv = Ok zv.

Let Wt := transpose Woutv.
Let rhs := zipT Rplus (zipT Rplus (mmul Wt xv) (mmul Wrv pv)) (mmul Winv uv).

Lemma shape_Wt : shape (S n) (S q) Wt.
Proof. apply shape_transpose, shape_Wout. Qed.

Lemma shape_rhs : shape (S n) b rhs.
Proof. pose proof shape_Wt. unfold rhs. shapes. Qed.

(** The closed form solves [(I + Wout^T Wout) z = Wout^T x + Wr prev_z + Win u]. *)
Lemma closed_form_solves :
  shape (S n) b zv /\
  zipT Rplus zv (mmul Wt (mmul Woutv zv)) = rhs.
Proof.
  pose proof shape_Wt as SWt. pose proof shape_rhs as Srhs.
  assert (SWtW : shape (S n) (S n) (mmul Wt Woutv)) by shapes.
  assert (SG : shape (S n) (S n) (zipT Rplus (eye (S n)) (mmul Wt Woutv))) by shapes.
  revert closed. unfold CodingSpec.closed_form. fold Wt.
  rewrite (matmul_Ok (S n) (S q) Wt Woutv SWt) by apply shape_Wout.
  rewrite outcome_bind_Ok. unfold tadd.
  rewrite (elementwise_Ok Rplus (S n) (S n) _ _ (shape_eye (S n)) SWtW).
  rewrite outcome_bind_Ok.
  destruct (inv (zipT Rplus (eye (S n)) (mmul Wt Woutv))) as [Gi|e] eqn:Hinv;
    [|discriminate].
  rewrite outcome_bind_Ok.
  apply inv_Ok_inverse in Hinv as (_ & SGi & HGGi & _).
  replace (nrows (zipT Rplus (eye (S n)) (mmul Wt Woutv))) with (S n) in *
    by (destruct SG; auto).
  apply is_shape_spec in SGi.
  rewrite (matmul_Ok (S n) (S q) Wt xv SWt) by apply shape_x.
  rewrite outcome_bind_Ok.
  rewrite (matmul_Ok (S n) (S n) Wrv pv shape_Wr) by apply shape_p.
  rewrite outcome_bind_Ok.
  rewrite (elementwise_Ok Rplus (S n) b (mmul Wt xv) (mmul Wrv pv)) by shapes.
  rewrite outcome_bind_Ok.
  rewrite (matmul_Ok (S n) (S k) Winv uv shape_Win) by apply shape_u.
  rewrite outcome_bind_Ok.
  rewrite (elementwise_Ok Rplus (S n) b _ (mmul Winv uv)) by shapes.
  rewrite outcome_bind_Ok. fold rhs.
  rewrite (matmul_Ok (S n) (S n) Gi rhs SGi) by apply Srhs.
  intros [= <-].
  assert (Sz : shape (S n) b (mmul Gi rhs)) by shapes.
  split; [exact Sz|].
  assert (HG : mmul (zipT Rplus (eye (S n)) (mmul Wt Woutv)) (mmul Gi rhs) = rhs).
  { rewrite (mmul_assoc (S n) n n b _ Gi rhs SG SGi Srhs), HGGi.
    apply (mmul_eye_l n b rhs Srhs). }
  rewrite (mmul_plus_l (S n) (S n) _ _ _ (shape_eye (S n)) SWtW) in HG.
  rewrite (mmul_eye_l n b _ Sz) in HG.
  rewrite <- (mmul_assoc (S n) q n b Wt Woutv (mmul Gi rhs) SWt shape_Wout Sz) in HG.
  exact HG.
Qed.

Lemma closed_form_delta_zero :
  Forall (Forall (fun v => v = 0))
    (NodeSpec.delta_z Linear Woutv zv
       (NodeSpec.latent_error Linear Wrv Winv zv pv uv)
       (NodeSpec.obs_error Linear Woutv zv xv)).
Proof.
  destruct closed_form_solves as [Sz Hsol].
  pose proof shape_Wt as SWt.
  assert (SWz : shape (S q) b (mmul Woutv zv)) by shapes.
  unfold NodeSpec.delta_z, NodeSpec.latent_error, NodeSpec.obs_error.
  rewrite !activate_Linear. fold Wt.
  rewrite (mmul_minus_r q b Wt xv (mmul Woutv zv) shape_x SWz).
  apply (all_zero_entries (S n) b); [unfold deriv; shapes|].
  intros i j Hi Hj.
  apply (f_equal (fun M => nth j (nth i M []) 0)) in Hsol.
  unfold rhs in Hsol.
  rewrite !(ent_zipT _ (S n) b) in Hsol by (try lia; shapes).
  unfold deriv.
  rewrite !(ent_zipT _ (S n) b) by (try lia; shapes).
  rewrite (ent_tmap _ (S n) b) by (try lia; shapes).
  cbn [act']. lra.
Qed.

End Equilibrium.

(** X12: the closed form of the branch [inf_iters == 0] of [predict] is an
    equilibrium of the inner loop, as the comment in the source says: in
    the linear case without [dynamic_inf], when the latent estimate is
    [(I + Wout^T Wout)^-1 (Wout^T x + Wr prev_z + Win u)], a round of
    [update_nodes] finds [delta_z = 0] and leaves every tensor as it was,
    whatever [inf_lr] is. *)
Theorem X12_closed_form_is_a_fixed_point
    (m : heap) (o : NeuralKalmanFilter.t) (zl pl : loc)
    (Wrv Winv Woutv zv pv xv uv : tensor) (n k q b : nat) (inf_lr : R) :
  NeuralKalmanFilter.nonlin o = Linear ->
  NeuralKalmanFilter.dynamic_inf o = false ->
  NeuralKalmanFilter.latent_size o = S n ->
  NeuralKalmanFilter.z o = Some zl -> m !! zl = Some zv ->
  NeuralKalmanFilter.prev_z o = Some pl -> m !! pl = Some pv ->
  m !! NeuralKalmanFilter.Wr o = Some Wrv ->
  m !! NeuralKalmanFilter.Win o = Some Winv ->
  m !! NeuralKalmanFilter.Wout o = Some Woutv ->
  NeuralKalmanFilter.x o = Some xv -> NeuralKalmanFilter.u o = Some uv ->
  is_shape (S n) (S n) Wrv = true -> is_shape (S n) (S k) Winv = true ->
  is_shape (S q) (S n) Woutv = true -> is_shape (S n) b pv = true ->
  is_shape (S k) b uv = true -> is_shape (S q) b xv = true ->
  CodingSpec.closed_form Wrv Winv Woutv (NeuralKalmanFilter.latent_size o) xv uv pv
  = Ok zv ->
  exists o',
    NeuralKalmanFilter.update_nodes inf_lr (World m o) = (World m o', Ok tt) /\
    NeuralKalmanFilter.z o' = Some zl /\
    NeuralKalmanFilter.ez o' = Some (NodeSpec.latent_error Linear Wrv Winv zv pv uv) /\
    NeuralKalmanFilter.ex o' = Some (NodeSpec.obs_error Linear Woutv zv xv).
Proof.
  intros Hnl Hdyn Hn Hz Hzv Hpl Hpv HWr HWin HWout Hx Hu SWr SWin SWout Sp Su Sx Hcf.
  apply is_shape_spec in SWr, SWin, SWout, Sp, Su, Sx. rewrite Hn in Hcf.
  destruct (closed_form_solves n k q b Wrv Winv Woutv zv pv xv uv
              SWr SWin SWout Sp Su Sx Hcf) as [Sz _].
  pose proof (closed_form_delta_zero n k q b Wrv Winv Woutv zv pv xv uv
                SWr SWin SWout Sp Su Sx Hcf) as Hzero.
  pose proof (nkf_round_Ok n k q b Wrv Winv Woutv zv pv xv uv
                SWr SWin SWout Sz Sp Su Sx m o zl inf_lr
                Hz Hzv HWr HWin HWout Hx Hu) as Hround.
  rewrite Hdyn, Hnl in Hround. cbv zeta in Hround.
  rewrite Hround by eauto.
  assert (Sd : shape (S n) b
                 (NodeSpec.delta_z Linear Woutv zv
                    (NodeSpec.latent_error Linear Wrv Winv zv pv uv)
                    (NodeSpec.obs_error Linear Woutv zv xv))).
  { apply (shape_delta_z n q b Woutv zv SWout Sz Linear).
    - apply (shape_latent_error n k b Wrv Winv zv pv uv SWr SWin Sz Sp Su).
    - apply (shape_obs_error n q b Woutv zv xv SWout Sz Sx). }
  rewrite (zipT_minus_scale_zero (S n) b inf_lr zv _ Sz Sd Hzero).
  rewrite (insert_id m zl zv Hzv).
  eexists. split; [reflexivity|]. cbn. auto.
Qed.

(** ** The differentiable solver: the tensors a call writes *)

Section DifferentiableFrame.
Import TemporalPC.
Variable m0 : heap.
Variable o0 : t.
Variable x : loc.
Variable update_x : bool.

Lemma pc_update_nodes_frame u prev_z inf_lr w :
  pc_frame_z x update_x m0 o0 w ->
  pc_frame_z x update_x m0 o0 (update_nodes x u prev_z inf_lr update_x w).1.
Proof.
  destruct w as [m o]. intros ((E1 & E2 & E3 & D & Ag) & Z). cbn in *.
  assert (Hz : forall zl l, z o = Some zl -> is_Some (m0 !! l) -> zl <> l).
  { intros zl l Hzl Hl <-. rewrite (Z zl Hzl) in Hl. destruct Hl as [? [=]]. }
  apply pc_update_nodes_effect; unfold pc_frame_z, pc_frame; cbn.
  - split_and!; auto.
  - intros zl v Hzl. split_and!; auto.
    + intros l Hl. rewrite lookup_insert_is_Some'. auto.
    + intros l Hl Hx. rewrite lookup_insert_ne by eauto. auto.
  - intros zl v v' Hzl Hux. split_and!; auto.
    + intros l Hl. rewrite !lookup_insert_is_Some'. auto.
    + intros l Hl Hx. rewrite lookup_insert_ne by (apply not_eq_sym; auto).
      rewrite lookup_insert_ne by eauto. auto.
Qed.

Lemma pc_inference_frame_z inf_iters inf_lr u prev_z w :
  pc_frame x update_x m0 o0 w ->
  pc_frame x update_x m0 o0 (inference inf_iters inf_lr x u prev_z update_x w).1.
Proof.
  destruct w as [m o]. intros H. unfold inference. rewrite bind_unfold.
  apply (pc_init_z_effect u prev_z m o
           (fun r => pc_frame x update_x m0 o0
                       (match r with
                        | (s', Ok a) =>
                            repeat_n inf_iters
                              (update_nodes x u prev_z inf_lr update_x) s'
                        | (s', Raise e) => (s', Raise e)
                        end).1)).
  - intros e. exact H.
  - intros v.
    cut (pc_frame_z x update_x m0 o0
           (repeat_n inf_iters (update_nodes x u prev_z inf_lr update_x)
              (World (<[fresh (dom m) := v]> m) (set_z (Some (fresh (dom m))) o))).1);
      [intros [? _]; assumption|].
    apply repeat_n_inv; [intros s; apply pc_update_nodes_frame|].
    destruct H as (E1 & E2 & E3 & D & Ag). cbn in *.
    assert (Hf : forall l, is_Some (m0 !! l) -> fresh (dom m) <> l).
    { intros l Hl. apply not_eq_sym, fresh_ne, D, Hl. }
    unfold pc_frame_z, pc_frame. cbn. split_and!; auto.
    + intros l Hl. rewrite lookup_insert_is_Some'. auto.
    + intros l Hl Hx. rewrite lookup_insert_ne by auto. auto.
    + intros l [= <-]. destruct (m0 !! fresh (dom m)) eqn:E; [|reflexivity].
      exfalso. apply (Hf (fresh (dom m))); eauto.
Qed.

End DifferentiableFrame.

(** X13: [TemporalPC.inference] assigns no weight, and writes in place to
    the latent tensor that it makes and, with [update_x], to [x], and to
    nothing else.  Every tensor that has a storage of its own, apart from
    that of [x], has after the call the value it had, whether the call
    returns or raises: so [u], [prev_z], and the latent tensor of the
    previous call when the caller passes it as [prev_z].  A tensor of
    which [x] is a view shares the storage of [x], and the statement does
    not speak of it. *)
Theorem X13_inference_writes_z_and_x_only
    (w : world TemporalPC.t) (inf_iters : nat) (inf_lr : R) (x u prev_z : loc)
    (update_x : bool) (l : loc) :
  is_Some (mem w !! l) -> (update_x = true -> l <> x) ->
  let w' := (TemporalPC.inference inf_iters inf_lr x u prev_z update_x w).1 in
  TemporalPC.Win (self w') = TemporalPC.Win (self w) /\
  TemporalPC.Wr (self w') = TemporalPC.Wr (self w) /\
  TemporalPC.Wout (self w') = TemporalPC.Wout (self w) /\
  mem w' !! l = mem w !! l.
Proof.
  intros Hl Hx. cbv zeta.
  destruct (pc_inference_frame_z (mem w) (self w) x update_x inf_iters inf_lr u prev_z w)
    as (E1 & E2 & E3 & _ & Ag).
  { repeat split; auto. }
  split_and!; auto.
Qed.

(** ** The differentiable solver: the energy *)

Lemma sumR_squares_nonneg v : 0 <= sumR (map (fun a => a ^ 2) v).
Proof.
  induction v as [|a v IH]; cbn [map]; [cbn; lra|].
  rewrite sumR_cons. nra.
Qed.

Lemma tsum_tsquare_nonneg M : 0 <= tsum (tsquare M).
Proof.
  induction M as [|row M IH]; [cbn; lra|].
  unfold tsquare, tmap. cbn [map]. rewrite tsum_cons.
  pose proof (sumR_squares_nonneg row). unfold tsquare, tmap in IH. lra.
Qed.

(** X14: the energy that [TemporalPC.update_grads] returns is not
    negative, and neither is either of the two losses that it keeps in
    [hidden_loss] and [obs_loss], whose sum the energy is. *)
Theorem X14_energy_is_not_negative (w : world TemporalPC.t) (x u prev_z : loc) (E : R) :
  (TemporalPC.update_grads x u prev_z w).2 = Ok E ->
  0 <= E /\
  exists hl ol,
    TemporalPC.hidden_loss (self (TemporalPC.update_grads x u prev_z w).1) = Some hl /\
    TemporalPC.obs_loss (self (TemporalPC.update_grads x u prev_z w).1) = Some ol /\
    0 <= hl /\ 0 <= ol /\ E = hl + ol.
Proof.
  unfold TemporalPC.update_grads. rewrite bind_unfold.
  destruct (TemporalPC.update_errs x u prev_z w) as [w1 [[ez ex]|e]]; cbn;
    [|discriminate].
  intros [= <-].
  pose proof (tsum_tsquare_nonneg ez). pose proof (tsum_tsquare_nonneg ex).
  split; [lra|]. do 2 eexists. split_and!; try reflexivity; assumption.
Qed.


Section Rounds.
Import TemporalPC.
Variable o : t.
Variables b c h out : nat.
Variables xv uv pv : tensor.
Hypothesis shape_x : shape b (S out) xv.
Hypothesis shape_u : shape b (S c) uv.
Hypothesis shape_p : shape b (S h) pv.
Hypothesis shape_Win : shape (S h) (S c) (Win o).
Hypothesis shape_Wr : shape (S h) (S h) (Wr o).
Hypothesis shape_Wout : shape (S out) (S h) (Wout o).

Lemma tsum_tsquare_self_minus M : tsum (tsquare (zipT Rminus M M)) = 0.
Proof.
  induction M as [|row M IH]; [reflexivity|].
  change (tsquare (zipT Rminus (row :: M) (row :: M)))
    with (map (fun v => v ^ 2) (zip_with Rminus row row)
            :: tsquare (zipT Rminus M M)).
  rewrite tsum_cons, IH.
  assert (Hrow : sumR (map (fun v => v ^ 2) (zip_with Rminus row row)) = 0).
  { clear. induction row as [|a row IH]; [reflexivity|].
    cbn [zip_with map]. rewrite sumR_cons, IH. ring. }
  rewrite Hrow. ring.
Qed.

(** With no round of the inner loop the latent state is the prediction,
    and the energy is the observation loss alone. *)
Lemma pc_no_round_energy m x u prev_z inf_lr update_x :
  m !! x = Some xv -> m !! u = Some uv -> m !! prev_z = Some pv ->
  exists w',
    inference 0 inf_lr x u prev_z update_x (World m o) = (w', Ok tt) /\
    z_val w' = Some (pred_latent o uv pv) /\
    exists w'',
      update_grads x u prev_z w'
      = (w'', Ok (tsum (tsquare (err_x_at o (pred_latent o uv pv) xv)))) /\
      hidden_loss (self w'') = Some 0 /\
      obs_loss (self w'')
      = Some (tsum (tsquare (err_x_at o (pred_latent o uv pv) xv))).
Proof.
  intros Hx Hu Hp.
  pose proof (shape_pred_latent o b c h uv pv shape_u shape_p shape_Win shape_Wr) as SP.
  assert (Hf : forall l v, m !! l = Some v -> fresh (dom m) <> l).
  { intros l v Hl. apply not_eq_sym, fresh_ne. eauto. }
  unfold inference. cbn [repeat_n].
  rewrite (bind_Ok _ _ _ _ _
             (pc_init_z_Ok m o u prev_z uv pv b c h out Hu Hp shape_u shape_p
                shape_Win shape_Wr shape_Wout)).
  eexists. split; [reflexivity|].
  split; [unfold z_val, deref; cbn; apply lookup_insert_eq|].
  unfold update_grads.
  rewrite bind_unfold.
  rewrite (pc_update_errs_eq _ _ x u prev_z (fresh (dom m)) xv uv pv
             (pred_latent o uv pv)).
  2:{ rewrite lookup_insert_ne by eauto. exact Hx. }
  2:{ rewrite lookup_insert_ne by eauto. exact Hu. }
  2:{ rewrite lookup_insert_ne by eauto. exact Hp. }
  2:{ reflexivity. }
  2:{ apply lookup_insert_eq. }
  change (TemporalPC.errs_of (set_z (Some (fresh (dom m))) o))
    with (TemporalPC.errs_of o).
  rewrite (pc_errors_Ok o b c h out _ xv uv pv SP shape_x shape_u shape_p
             shape_Win shape_Wr shape_Wout).
  cbn. rewrite tsum_tsquare_self_minus, Rplus_0_l.
  eexists. split_and!; reflexivity.
Qed.

(** With [inf_lr = 0] a round changes nothing. *)
Lemma pc_zero_step_round m x u prev_z zl zv update_x :
  shape b (S h) zv ->
  z o = Some zl -> m !! zl = Some zv -> m !! x = Some xv ->
  m !! u = Some uv -> m !! prev_z = Some pv -> zl <> x ->
  update_nodes x u prev_z 0 update_x (World m o) = (World m o, Ok tt).
Proof.
  intros shape_z Hz Hzv Hx Hu Hp Hne.
  pose proof (shape_pred_latent o b c h uv pv shape_u shape_p shape_Win shape_Wr) as SP.
  rewrite (pc_update_nodes_Ok o b c h out zv xv uv pv shape_z shape_x shape_u shape_p
             shape_Win shape_Wr shape_Wout m x u prev_z zl 0 update_x
             Hz Hzv Hx Hu Hp Hne).
  rewrite (z_after_0 o b h out _ zv xv shape_z SP shape_x shape_Wout).
  rewrite (x_after_0 o b h out zv xv shape_z shape_x shape_Wout true).
  f_equal. f_equal.
  destruct update_x.
  - rewrite (insert_id m zl zv Hzv). apply insert_id, Hx.
  - apply insert_id, Hzv.
Qed.


End Rounds.

(** X15: called with [inf_iters = 0] on tensors of fitting shapes,
    [TemporalPC.inference] returns with the latent state at the prediction
    [Win nonlin(u) + Wr nonlin(prev_z)] of the forward pass; the latent
    error is then zero, and [update_grads] returns the observation loss
    alone and keeps 0 in [hidden_loss]. *)
Theorem X15_no_round_leaves_the_prediction
    (w : world TemporalPC.t) (x u prev_z : loc) (xv uv pv : tensor)
    (b c h out : nat) (inf_lr : R) (update_x : bool) :
  mem w !! x = Some xv -> mem w !! u = Some uv -> mem w !! prev_z = Some pv ->
  is_shape b (S out) xv = true -> is_shape b (S c) uv = true ->
  is_shape b (S h) pv = true ->
  is_shape (S h) (S c) (TemporalPC.Win (self w)) = true ->
  is_shape (S h) (S h) (TemporalPC.Wr (self w)) = true ->
  is_shape (S out) (S h) (TemporalPC.Wout (self w)) = true ->
  let P := pred_latent (self w) uv pv in
  exists w',
    TemporalPC.inference 0 inf_lr x u prev_z update_x w = (w', Ok tt) /\
    TemporalPC.z_val w' = Some P /\
    exists w'',
      TemporalPC.update_grads x u prev_z w'
      = (w'', Ok (tsum (tsquare (err_x_at (self w) P xv)))) /\
      TemporalPC.hidden_loss (self w'') = Some 0 /\
      TemporalPC.obs_loss (self w'')
      = Some (tsum (tsquare (err_x_at (self w) P xv))).
Proof.
  intros Hx Hu Hp Sx Su Sp SWin SWr SWout.
  apply is_shape_spec in Sx, Su, Sp, SWin, SWr, SWout.
  destruct w as [m o]. cbn in *.
  exact (pc_no_round_energy o b c h out xv uv pv Sx Su Sp SWin SWr SWout
           m x u prev_z inf_lr update_x Hx Hu Hp).
Qed.

(** X16: with [inf_lr = 0] every round of the inner loop of
    [TemporalPC.inference] leaves the latent state and [x] as they are: on
    tensors of fitting shapes the call gives what the call with no round
    gives, whatever [inf_iters] is. *)
Theorem X16_zero_step_size
    (w : world TemporalPC.t) (x u prev_z : loc) (xv uv pv : tensor)
    (b c h out : nat) (update_x : bool) (n : nat) :
  mem w !! x = Some xv -> mem w !! u = Some uv -> mem w !! prev_z = Some pv ->
  is_shape b (S out) xv = true -> is_shape b (S c) uv = true ->
  is_shape b (S h) pv = true ->
  is_shape (S h) (S c) (TemporalPC.Win (self w)) = true ->
  is_shape (S h) (S h) (TemporalPC.Wr (self w)) = true ->
  is_shape (S out) (S h) (TemporalPC.Wout (self w)) = true ->
  TemporalPC.inference n 0 x u prev_z update_x w
  = TemporalPC.inference 0 0 x u prev_z update_x w.
Proof.
  intros Hx Hu Hp Sx Su Sp SWin SWr SWout.
  apply is_shape_spec in Sx, Su, Sp, SWin, SWr, SWout.
  destruct w as [m o]. cbn in *.
  pose proof (shape_pred_latent o b c h uv pv Su Sp SWin SWr) as SP.
  assert (Hf : forall l v, m !! l = Some v -> fresh (dom m) <> l).
  { intros l v Hl. apply not_eq_sym, fresh_ne. eauto. }
  unfold TemporalPC.inference.
  rewrite !(bind_Ok _ _ _ _ _
              (pc_init_z_Ok m o u prev_z uv pv b c h out Hu Hp Su Sp SWin SWr SWout)).
  set (w1 := World _ _).
  assert (Hround : TemporalPC.update_nodes x u prev_z 0 update_x w1 = (w1, Ok tt)).
  { apply (pc_zero_step_round (TemporalPC.set_z (Some (fresh (dom m))) o)
             b c h out xv uv pv Sx Su Sp SWin SWr SWout _ x u prev_z
             (fresh (dom m)) (pred_latent o uv pv) update_x SP).
    - reflexivity.
    - apply lookup_insert_eq.
    - rewrite lookup_insert_ne by eauto. exact Hx.
    - rewrite lookup_insert_ne by eauto. exact Hu.
    - rewrite lookup_insert_ne by eauto. exact Hp.
    - eauto. }
  induction n as [|n IH]; [reflexivity|].
  cbn [repeat_n]. rewrite (bind_Ok _ _ _ _ _ Hround). exact IH.
Qed.

(** ** The differentiable solver: a round at rest *)

(** X17: a latent estimate at which [delta_z = ez - nonlin.deriv(z) * (ex Wout)]
    is zero is a fixed point of the round.  On tensors of fitting shapes,
    when every entry of [delta_z] is zero at the values the round starts
    from, a round of [TemporalPC.update_nodes] without [update_x] returns
    and changes nothing, whatever [inf_lr] is. *)
Theorem X17_rest_at_zero_gradient
    (w : world TemporalPC.t) (x u prev_z zl : loc) (xv uv pv zv : tensor)
    (b c h out : nat) :
  TemporalPC.z (self w) = Some zl -> mem w !! zl = Some zv ->
  mem w !! x = Some xv -> mem w !! u = Some uv -> mem w !! prev_z = Some pv ->
  zl <> x ->
  is_shape b (S h) zv = true -> is_shape b (S out) xv = true ->
  is_shape b (S c) uv = true -> is_shape b (S h) pv = true ->
  is_shape (S h) (S c) (TemporalPC.Win (self w)) = true ->
  is_shape (S h) (S h) (TemporalPC.Wr (self w)) = true ->
  is_shape (S out) (S h) (TemporalPC.Wout (self w)) = true ->
  Forall (Forall (fun v => v = 0))
    (direction (self w) (pred_latent (self w) uv pv) zv xv) ->
  forall inf_lr,
    TemporalPC.update_nodes x u prev_z inf_lr false w = (w, Ok tt).
Proof.
  intros Hz Hzv Hx Hu Hp N1 Sz Sx Su Sp SWin SWr SWout Hzero t.
  apply is_shape_spec in Sz, Sx, Su, Sp, SWin, SWr, SWout.
  destruct w as [m o]. cbn in *.
  pose proof (shape_pred_latent o b c h uv pv Su Sp SWin SWr) as SP.
  pose proof (shape_direction o b h out _ zv xv Sz SP Sx SWout) as Sg.
  rewrite (pc_update_nodes_Ok o b c h out zv xv uv pv Sz Sx Su Sp SWin SWr SWout
             m x u prev_z zl t false Hz Hzv Hx Hu Hp N1).
  unfold z_after.
  rewrite (zipT_minus_scale_zero b (S h) t zv _ Sz Sg Hzero).
  rewrite (insert_id m zl zv Hzv). reflexivity.
Qed.

(** ** The iterative solver: a call does not depend on the calls before *)

Section Alike.
Import NeuralKalmanFilter.

Ltac step_any :=
  match goal with
  | |- context [match ?o with Ok _ => _ | Raise _ => _ end] =>
      lazymatch o with
      | Ok _ => fail
      | Raise _ => fail
      | context [match _ with Ok _ => _ | Raise _ => _ end] => fail
      | context [match _ with Some _ => _ | None => _ end] => fail
      | context [if _ then _ else _] => fail
      | _ => destruct o eqn:?
      end
  | |- context [match ?o with Some _ => _ | None => _ end] =>
      lazymatch o with
      | Some _ => fail
      | None => fail
      | context [match _ with Ok _ => _ | Raise _ => _ end] => fail
      | context [match _ with Some _ => _ | None => _ end] => fail
      | context [if _ then _ else _] => fail
      | _ => destruct o eqn:?
      end
  | |- context [if ?b then _ else _] =>
      lazymatch b with
      | true => fail
      | false => fail
      | context [match _ with Ok _ => _ | Raise _ => _ end] => fail
      | context [match _ with Some _ => _ | None => _ end] => fail
      | context [if _ then _ else _] => fail
      | _ => destruct b eqn:?
      end
  end.

Ltac unfold_world :=
  unfold get_self, set_self, load, store, alloc; unfold_action.

(** The values that a well-formed object names. *)
Lemma alike_values m1 o1 m2 o2 :
  nkf_alike_step (World m1 o1) (World m2 o2) ->
  exists l1 l2 zv Wrv Winv Woutv,
    z o1 = Some l1 /\ z o2 = Some l2 /\ m1 !! l1 = Some zv /\ m2 !! l2 = Some zv /\
    m1 !! Wr o1 = Some Wrv /\ m2 !! Wr o2 = Some Wrv /\
    m1 !! Win o1 = Some Winv /\ m2 !! Win o2 = Some Winv /\
    m1 !! Wout o1 = Some Woutv /\ m2 !! Wout o2 = Some Woutv /\
    ((prev_z o1 = None /\ prev_z o2 = None) \/
     exists p1 p2 pv, prev_z o1 = Some p1 /\ prev_z o2 = Some p2 /\
                      m1 !! p1 = Some pv /\ m2 !! p2 = Some pv).
Proof.
  intros (((W1 & W2 & E1 & E2 & E3 & _) & Ez & [l1 Hl1] & [l2 Hl2]) & Ep & _).
  cbn in *.
  pose proof W1 as (A1 & A2 & A3 & _ & _ & _ & A7 & A8).
  pose proof W2 as (B1 & B2 & B3 & _ & _ & _ & B7 & B8). cbn in *.
  unfold Wr_val, Win_val, Wout_val, z_val, prev_z_val, deref in *. cbn in *.
  rewrite Hl1, Hl2 in Ez. cbn in Ez.
  destruct (A7 l1 Hl1) as ([zv Hzv] & _). rewrite Hzv in Ez.
  destruct A1 as [Wrv HWr]. destruct A2 as [Winv HWin]. destruct A3 as [Woutv HWout].
  rewrite HWr in E1. rewrite HWin in E2. rewrite HWout in E3.
  exists l1, l2, zv, Wrv, Winv, Woutv. split_and!; auto.
  destruct (prev_z o1) as [p1|] eqn:Hp1; destruct (prev_z o2) as [p2|] eqn:Hp2;
    cbn in Ep.
  - right. destruct (A8 p1 eq_refl) as ([pv Hpv] & _). rewrite Hpv in Ep.
    exists p1, p2, pv. auto.
  - destruct (A8 p1 eq_refl) as ([pv Hpv] & _). congruence.
  - destruct (B8 p2 eq_refl) as ([pv Hpv] & _). congruence.
  - left. auto.
Qed.


Lemma update_nodes_alike_values inf_lr m1 o1 m2 o2 :
  nkf_alike_step (World m1 o1) (World m2 o2) ->
  let r1 := update_nodes inf_lr (World m1 o1) in
  let r2 := update_nodes inf_lr (World m2 o2) in
  r1.2 = r2.2 /\ z_val r1.1 = z_val r2.1 /\
  x (self r1.1) = x (self r2.1) /\ u (self r1.1) = u (self r2.1).
Proof.
  intros H.
  destruct (alike_values _ _ _ _ H)
    as (l1 & l2 & zv & Wrv & Winv & Woutv & Hl1 & Hl2 & Hz1 & Hz2 & HWr1 & HWr2 &
        HWin1 & HWin2 & HWout1 & HWout2 & Hp).
  destruct H as (((_ & _ & _ & _ & _ & _ & Ed & En) & _) & _ & Ex & Eu). cbn in *.
  cbv zeta. unfold update_nodes. unfold_world. cbn.
  rewrite Hl1, Hl2. cbn. rewrite Hz1, Hz2. cbn. rewrite HWr1, HWr2. cbn.
  rewrite Ed, En, Ex, Eu.
  destruct Hp as [[Hp1 Hp2] | (p1 & p2 & pv & Hp1 & Hp2 & Hv1 & Hv2)];
    rewrite Hp1, Hp2.
  - destruct (dynamic_inf o2); cbn.
    + repeat (first [ rewrite HWin1 | rewrite HWin2 | rewrite HWout1 | rewrite HWout2
                    | step_any ]; cbn).
      all: unfold z_val, deref; cbn; rewrite ?Hl1, ?Hl2; cbn;
        rewrite ?lookup_insert_eq, ?Hz1, ?Hz2; split_and!; congruence.
    + unfold z_val, deref; cbn; rewrite ?Hl1, ?Hl2; cbn; rewrite ?Hz1, ?Hz2;
        split_and!; congruence.
  - destruct (dynamic_inf o2); cbn; rewrite ?Hv1, ?Hv2; cbn.
    all: repeat (first [ rewrite HWin1 | rewrite HWin2 | rewrite HWout1
                       | rewrite HWout2 | step_any ]; cbn).
    all: unfold z_val, deref; cbn; rewrite ?Hl1, ?Hl2; cbn;
      rewrite ?lookup_insert_eq, ?Hz1, ?Hz2; split_and!; congruence.
Qed.


(** Two runs that start alike stay alike and end in the same outcome. *)
Lemma bind_alike {S A B} (I J : S -> S -> Prop)
    (c : action S A) (k : A -> action S B) :
  (forall s1 s2, I s1 s2 -> (c s1).2 = (c s2).2 /\ J (c s1).1 (c s2).1) ->
  (forall a s1 s2, J s1 s2 -> (k a s1).2 = (k a s2).2 /\ J (k a s1).1 (k a s2).1) ->
  forall s1 s2, I s1 s2 ->
    ((c ≫= k) s1).2 = ((c ≫= k) s2).2 /\ J ((c ≫= k) s1).1 ((c ≫= k) s2).1.
Proof.
  intros Hc Hk s1 s2 Hs. rewrite !bind_unfold.
  destruct (Hc s1 s2 Hs) as [E HJ].
  destruct (c s1) as [t1 [a1|e1]], (c s2) as [t2 [a2|e2]]; cbn in *;
    try discriminate.
  - injection E as ->. apply Hk, HJ.
  - injection E as ->. split; [reflexivity | exact HJ].
Qed.

Lemma repeat_n_alike {S} (I : S -> S -> Prop) n (c : action S unit) :
  (forall s1 s2, I s1 s2 -> (c s1).2 = (c s2).2 /\ I (c s1).1 (c s2).1) ->
  forall s1 s2, I s1 s2 ->
    (repeat_n n c s1).2 = (repeat_n n c s2).2 /\
    I (repeat_n n c s1).1 (repeat_n n c s2).1.
Proof.
  intros Hc. induction n as [|n IH]; intros s1 s2 Hs; [split; [reflexivity|exact Hs]|].
  cbn [repeat_n]. apply (bind_alike I I); auto.
Qed.

Lemma fold_each_alike {S A B} (I : S -> S -> Prop) (body : B -> A -> action S B) xs :
  (forall b a s1 s2, I s1 s2 ->
     (body b a s1).2 = (body b a s2).2 /\ I (body b a s1).1 (body b a s2).1) ->
  forall b s1 s2, I s1 s2 ->
    (fold_each body b xs s1).2 = (fold_each body b xs s2).2 /\
    I (fold_each body b xs s1).1 (fold_each body b xs s2).1.
Proof.
  intros Hc. induction xs as [|x xs IH]; intros b s1 s2 Hs;
    [split; [reflexivity|exact Hs]|].
  cbn [fold_each]. apply (bind_alike I I); auto.
Qed.

(** What a round keeps in each world carries the likeness over. *)
Lemma alike_step_after (w1 w2 r1 r2 : world t) :
  nkf_alike_step w1 w2 ->
  (wf r1 /\ (is_Some (z (self w1)) -> is_Some (z (self r1))) /\
   same_weights w1 r1 /\ same_prev_z w1 r1) ->
  (wf r2 /\ (is_Some (z (self w2)) -> is_Some (z (self r2))) /\
   same_weights w2 r2 /\ same_prev_z w2 r2) ->
  z_val r1 = z_val r2 -> x (self r1) = x (self r2) -> u (self r1) = u (self r2) ->
  nkf_alike_step r1 r2.
Proof.
  intros (((W1 & W2 & E1 & E2 & E3 & E4 & E5 & E6) & Ez & S1 & S2) & Ep & _).
  intros (V1 & Z1 & ((C1 & C2 & C3 & C4 & C5 & C6) & A1 & A2 & A3) & (_ & _ & P1)).
  intros (V2 & Z2 & ((D1 & D2 & D3 & D4 & D5 & D6) & B1 & B2 & B3) & (_ & _ & P2)).
  intros Hz Hx Hu.
  unfold nkf_alike_step, nkf_alike_z, nkf_alike. split_and!; auto; congruence.
Qed.

Lemma update_nodes_alike inf_lr w1 w2 :
  nkf_alike_step w1 w2 ->
  (update_nodes inf_lr w1).2 = (update_nodes inf_lr w2).2 /\
  nkf_alike_step (update_nodes inf_lr w1).1 (update_nodes inf_lr w2).1.
Proof.
  intros H. destruct w1 as [m1 o1], w2 as [m2 o2].
  destruct (update_nodes_alike_values inf_lr _ _ _ _ H) as (E & Ez & Ex & Eu).
  split; [exact E|].
  pose proof H as (((W1 & W2 & _) & _) & _).
  apply (alike_step_after _ _ _ _ H); auto.
  - destruct (update_nodes_keeps inf_lr _ W1) as (? & ? & ? & ?). auto.
  - destruct (update_nodes_keeps inf_lr _ W2) as (? & ? & ? & ?). auto.
Qed.

Lemma project_latent_alike w1 w2 :
  nkf_alike_step w1 w2 ->
  (project_latent w1).2 = (project_latent w2).2 /\
  nkf_alike_step (project_latent w1).1 (project_latent w2).1.
Proof.
  intros H. rewrite !project_latent_pure. split; [|exact H].
  destruct w1 as [m1 o1], w2 as [m2 o2].
  destruct (alike_values _ _ _ _ H)
    as (l1 & l2 & zv & Wrv & Winv & Woutv & Hl1 & Hl2 & Hz1 & Hz2 & HWr1 & HWr2 &
        HWin1 & HWin2 & HWout1 & HWout2 & _).
  destruct H as (((_ & _ & _ & _ & _ & _ & Ed & En) & _) & _ & Ex & Eu). cbn in *.
  unfold project_latent. unfold_world. cbn.
  rewrite HWr1, HWr2. cbn. rewrite Hl1, Hl2. cbn. rewrite Hz1, Hz2. cbn.
  rewrite En, Eu.
  repeat (first [ rewrite HWin1 | rewrite HWin2 | step_any ]; cbn).
  all: reflexivity.
Qed.

Lemma equilibrium_alike_values m1 o1 m2 o2 :
  nkf_alike_step (World m1 o1) (World m2 o2) ->
  let r1 := equilibrium (World m1 o1) in
  let r2 := equilibrium (World m2 o2) in
  r1.2 = r2.2 /\ z_val r1.1 = z_val r2.1 /\
  x (self r1.1) = x (self r2.1) /\ u (self r1.1) = u (self r2.1).
Proof.
  intros H.
  destruct (alike_values _ _ _ _ H)
    as (l1 & l2 & zv & Wrv & Winv & Woutv & Hl1 & Hl2 & Hz1 & Hz2 & HWr1 & HWr2 &
        HWin1 & HWin2 & HWout1 & HWout2 & Hp).
  pose proof H as ((_ & Ezv & _) & _).
  destruct H as (((_ & _ & _ & _ & _ & El & Ed & En) & _) & _ & Ex & Eu). cbn in *.
  cbv zeta. unfold equilibrium. unfold_world. cbn.
  rewrite HWout1, HWout2. cbn. rewrite El, Ex, Eu.
  destruct Hp as [[Hp1 Hp2] | (p1 & p2 & pv & Hp1 & Hp2 & Hv1 & Hv2)].
  - repeat (first [ rewrite HWr1 | rewrite HWr2 | rewrite Hp1 | rewrite Hp2
                  | step_any ]; cbn).
    all: split_and!; congruence.
  - repeat (first [ rewrite HWr1 | rewrite HWr2 | rewrite Hp1 | rewrite Hp2
                  | rewrite Hv1 | rewrite Hv2
                  | rewrite HWin1 | rewrite HWin2 | step_any ]; cbn).
    all: unfold z_val, deref in *; cbn in *; rewrite ?lookup_insert_eq;
      split_and!; congruence.
Qed.

Lemma equilibrium_alike w1 w2 :
  nkf_alike_step w1 w2 ->
  (equilibrium w1).2 = (equilibrium w2).2 /\
  nkf_alike_step (equilibrium w1).1 (equilibrium w2).1.
Proof.
  intros H. destruct w1 as [m1 o1], w2 as [m2 o2].
  destruct (equilibrium_alike_values _ _ _ _ H) as (E & Ez & Ex & Eu).
  split; [exact E|].
  pose proof H as (((W1 & W2 & _) & _) & _).
  apply (alike_step_after _ _ _ _ H); auto.
  - destruct (equilibrium_keeps _ W1) as (? & ? & ? & ?). auto.
  - destruct (equilibrium_keeps _ W2) as (? & ? & ? & ?). auto.
Qed.

Lemma infer_alike inf_iters inf_lr w1 w2 :
  nkf_alike_step w1 w2 ->
  (infer inf_iters inf_lr w1).2 = (infer inf_iters inf_lr w2).2 /\
  nkf_alike_step (infer inf_iters inf_lr w1).1 (infer inf_iters inf_lr w2).1.
Proof.
  unfold infer. destruct (inf_iters =? 0)%nat.
  - apply equilibrium_alike.
  - apply (repeat_n_alike nkf_alike_step). intros s1 s2. apply update_nodes_alike.
Qed.

Lemma begin_step_alike inputs controls i w1 w2 :
  nkf_alike_z w1 w2 ->
  (begin_step inputs controls i w1).2 = (begin_step inputs controls i w2).2 /\
  nkf_alike_step (begin_step inputs controls i w1).1
    (begin_step inputs controls i w2).1.
Proof.
  intros ((W1 & W2 & E1 & E2 & E3 & E4 & E5 & E6) & Ez & S1 & S2).
  destruct (begin_step_prev_z inputs controls i w1 W1 S1)
    as (r1 & Hb1 & V1 & P1 & (_ & _ & Z1)).
  destruct (begin_step_prev_z inputs controls i w2 W2 S2)
    as (r2 & Hb2 & V2 & P2 & (_ & _ & Z2)).
  destruct (begin_step_keeps_weights inputs controls i w1 W1)
    as (_ & K1 & ((C1 & C2 & C3 & C4 & C5 & C6) & A1 & A2 & A3)).
  destruct (begin_step_keeps_weights inputs controls i w2 W2)
    as (_ & K2 & ((D1 & D2 & D3 & D4 & D5 & D6) & B1 & B2 & B3)).
  assert (Hx : x (self (begin_step inputs controls i w1).1)
               = x (self (begin_step inputs controls i w2).1)
               /\ u (self (begin_step inputs controls i w1).1)
               = u (self (begin_step inputs controls i w2).1)).
  { destruct w1 as [m1 o1], w2 as [m2 o2]. cbn in S1, S2.
    destruct S1 as [l1 Hl1], S2 as [l2 Hl2].
    destruct W1 as (_ & _ & _ & _ & _ & _ & T1 & _).
    destruct W2 as (_ & _ & _ & _ & _ & _ & T2 & _).
    destruct (T1 l1 Hl1) as ([v1 Hv1] & _). destruct (T2 l2 Hl2) as ([v2 Hv2] & _).
    cbn in Hv1, Hv2.
    rewrite (begin_step_Ok _ _ _ _ _ _ _ Hl1 Hv1).
    rewrite (begin_step_Ok _ _ _ _ _ _ _ Hl2 Hv2). cbn. auto. }
  rewrite Hb1, Hb2 in *. cbn in *. split; [reflexivity|].
  unfold nkf_alike_step, nkf_alike_z, nkf_alike.
  destruct Hx. split_and!; auto; congruence.
Qed.

Lemma read_z_alike {A} (f : tensor -> A) w1 w2 :
  nkf_alike_step w1 w2 ->
  let c := (o ← get_self; zl ← read (z o); zv ← load zl; mret (f zv))
           : action (world t) A in
  (c w1).2 = (c w2).2 /\ nkf_alike_step (c w1).1 (c w2).1.
Proof.
  intros H. destruct w1 as [m1 o1], w2 as [m2 o2].
  destruct (alike_values _ _ _ _ H)
    as (l1 & l2 & zv & Wrv & Winv & Woutv & Hl1 & Hl2 & Hz1 & Hz2 & _).
  cbv zeta. unfold_world. cbn. rewrite Hl1, Hl2. cbn. rewrite Hz1, Hz2. cbn.
  split; [reflexivity | exact H].
Qed.

Lemma alike_step_z w1 w2 : nkf_alike_step w1 w2 -> nkf_alike_z w1 w2.
Proof. intros [H _]. exact H. Qed.

Lemma predict_step_alike inputs controls inf_iters inf_lr acc l w1 w2 :
  nkf_alike_z w1 w2 ->
  (predict_step inputs controls inf_iters inf_lr acc l w1).2
  = (predict_step inputs controls inf_iters inf_lr acc l w2).2 /\
  nkf_alike_z (predict_step inputs controls inf_iters inf_lr acc l w1).1
    (predict_step inputs controls inf_iters inf_lr acc l w2).1.
Proof.
  intros H.
  cut ((predict_step inputs controls inf_iters inf_lr acc l w1).2
       = (predict_step inputs controls inf_iters inf_lr acc l w2).2 /\
       nkf_alike_step (predict_step inputs controls inf_iters inf_lr acc l w1).1
         (predict_step inputs controls inf_iters inf_lr acc l w2).1).
  { intros [E HJ]. split; [exact E | apply alike_step_z, HJ]. }
  revert w1 w2 H. unfold predict_step.
  apply (bind_alike nkf_alike_z nkf_alike_step);
    [intros s1 s2; apply begin_step_alike|]. intros _.
  apply (bind_alike nkf_alike_step nkf_alike_step);
    [intros s1 s2; apply project_latent_alike|]. intros zp.
  apply (bind_alike nkf_alike_step nkf_alike_step);
    [intros s1 s2; apply infer_alike|]. intros _.
  intros s1 s2. apply (read_z_alike (fun zv => (acc.1 ++ [zv], acc.2 ++ [zp]))).
Qed.

Lemma init_z_alike w1 w2 :
  nkf_alike w1 w2 ->
  (init_z w1).2 = (init_z w2).2 /\ nkf_alike_z (init_z w1).1 (init_z w2).1.
Proof.
  intros (W1 & W2 & E1 & E2 & E3 & E4 & E5 & E6).
  destruct (init_z_val w1 W1) as (V1 & Z1 & S1 & _ & R1).
  destruct (init_z_val w2 W2) as (V2 & Z2 & S2 & _ & R2).
  destruct (init_z_keeps w1 W1) as (_ & _ & ((C1 & C2 & C3 & C4 & C5 & C6) & A1 & A2 & A3)).
  destruct (init_z_keeps w2 W2) as (_ & _ & ((D1 & D2 & D3 & D4 & D5 & D6) & B1 & B2 & B3)).
  split; [congruence|].
  unfold nkf_alike_z, nkf_alike. split_and!; auto; congruence.
Qed.

Lemma alike_z_alike w1 w2 : nkf_alike_z w1 w2 -> nkf_alike w1 w2.
Proof. intros [H _]. exact H. Qed.

Lemma predict_upto_alike inputs controls inf_iters inf_lr l w1 w2 :
  nkf_alike w1 w2 ->
  (predict_upto inputs controls inf_iters inf_lr l w1).2
  = (predict_upto inputs controls inf_iters inf_lr l w2).2 /\
  nkf_alike_z (predict_upto inputs controls inf_iters inf_lr l w1).1
    (predict_upto inputs controls inf_iters inf_lr l w2).1.
Proof.
  revert w1 w2. unfold predict_upto.
  apply (bind_alike nkf_alike nkf_alike_z); [intros s1 s2; apply init_z_alike|].
  intros _ s1 s2. apply (fold_each_alike nkf_alike_z).
  intros b a t1 t2. apply predict_step_alike.
Qed.

Lemma predict_alike inputs controls inf_iters inf_lr w1 w2 :
  nkf_alike w1 w2 ->
  (predict inputs controls inf_iters inf_lr w1).2
  = (predict inputs controls inf_iters inf_lr w2).2.
Proof.
  intros H.
  cut ((predict inputs controls inf_iters inf_lr w1).2
       = (predict inputs controls inf_iters inf_lr w2).2 /\
       nkf_alike_z (predict inputs controls inf_iters inf_lr w1).1
         (predict inputs controls inf_iters inf_lr w2).1).
  { intros [E _]. exact E. }
  revert w1 w2 H. unfold predict.
  apply (bind_alike nkf_alike nkf_alike_z);
    [intros s1 s2; apply predict_upto_alike|]. intros acc.
  intros [m1 o1] [m2 o2] H. unfold_world. cbn.
  destruct (cat_cols acc.1) as [zs|e]; cbn; [|split; [reflexivity|exact H]].
  destruct (cat_cols acc.2) as [zp|e]; cbn; [|split; [reflexivity|exact H]].
  pose proof H as ((W1 & W2 & _ & _ & E3 & _ & _ & E6) & _). cbn in *.
  unfold Wout_val in E3. cbn in E3. rewrite E3, E6.
  destruct (m2 !! Wout o2) as [Wv|]; cbn; [|split; [reflexivity|exact H]].
  destruct (matmul Wv (activate (nonlin o2) zp)); cbn; split; auto.
Qed.

End Alike.

(** X18: a call of [predict] starts afresh.  On two well-formed objects
    whose weights have the same values and whose configuration is the
    same, it returns the same result or raises the same exception,
    whatever the latent estimate, the previous estimate, the slices and
    the errors that earlier calls have left in either of them. *)
Theorem X18_predict_starts_afresh
    (w1 w2 : world NeuralKalmanFilter.t) (inputs controls : tensor)
    (inf_iters : nat) (inf_lr : R) :
  nkf_alike w1 w2 ->
  (NeuralKalmanFilter.predict inputs controls inf_iters inf_lr w1).2
  = (NeuralKalmanFilter.predict inputs controls inf_iters inf_lr w2).2.
Proof. apply predict_alike. Qed.

(** X19: [predict] is repeatable.  After a call of [predict] on any data,
    whether it returned or raised, a call on [inputs] and [controls]
    returns what it would have returned without the earlier call. *)
Theorem X19_predict_is_repeatable
    (w : world NeuralKalmanFilter.t) (inputs controls seen seen_controls : tensor)
    (inf_iters earlier_iters : nat) (inf_lr earlier_lr : R) :
  NeuralKalmanFilter.wf w ->
  (NeuralKalmanFilter.predict inputs controls inf_iters inf_lr
     (NeuralKalmanFilter.predict seen seen_controls earlier_iters earlier_lr w).1).2
  = (NeuralKalmanFilter.predict inputs controls inf_iters inf_lr w).2.
Proof.
  intros Hw. apply predict_alike.
  destruct (predict_keeps_weights seen seen_controls earlier_iters earlier_lr w Hw)
    as (V & _ & ((C1 & C2 & C3 & C4 & C5 & C6) & A1 & A2 & A3)).
  unfold nkf_alike. split_and!; auto.
Qed.

(** ** The further properties on concrete objects *)

(** One timestep of the demonstration filter on the observation [v]. *)
Lemma kf_demo_one_step v :
  exists r, (KalmanFilter.inference [[v]] [[0]] kf_demo).2 = Ok r.
Proof.
  assert (Hrun : exists zs ps es zP,
             FilterSpec.run [[1]] [[0]] [[1]] [[0]] [[1]] (zeros 1 1, eye 1)
               (FilterSpec.timesteps [[v]] [[0]] (seq 0 1))
             = Ok ([zs], [ps], [es], zP)).
  { unfold FilterSpec.timesteps, FilterSpec.run, FilterSpec.timestep,
      FilterSpec.project, FilterSpec.correct, FilterSpec.gain, FilterSpec.innovation.
    cbn -[inv]. rewrite inv_1x1 by lra. cbn -[inv]. do 4 eexists. reflexivity. }
  destruct Hrun as (zs & ps & es & [z' P'] & Hrun).
  pose proof (run_upto_run [[v]] [[0]] 1 kf_demo) as H.
  change (KalmanFilter.A kf_demo) with [[1]] in H.
  change (KalmanFilter.B kf_demo) with [[0]] in H.
  change (KalmanFilter.C kf_demo) with [[1]] in H.
  change (KalmanFilter.Q kf_demo) with [[0]] in H.
  change (KalmanFilter.R' kf_demo) with [[1]] in H.
  change (KalmanFilter.latent_size kf_demo) with 1%nat in H.
  rewrite Hrun in H. destruct H as (s & Hs & _).
  unfold KalmanFilter.inference. change (ncols [[v]]) with 1%nat.
  rewrite (bind_Ok _ _ _ _ _ Hs).
  unfold KalmanFilter.collect. unfold_action. cbn. eexists. reflexivity.
Qed.

Lemma X2_witness :
  KalmanFilter.same_params kf_demo kf_used /\
  (KalmanFilter.inference two_steps two_controls kf_used).2
  = (KalmanFilter.inference two_steps two_controls kf_demo).2.
Proof.
  assert (H : KalmanFilter.same_params kf_demo kf_used) by (repeat split).
  split; [exact H|].
  exact (X2_inference_forgets_the_previous_call kf_demo kf_used two_steps
           two_controls H).
Defined.

Lemma X3_witness :
  ncols [[5]] = ncols [[1]] /\
  (exists r, (KalmanFilter.inference [[1]] [[0]] kf_demo).2 = Ok r) /\
  (exists r, (KalmanFilter.inference [[5]] [[0]] kf_demo).2 = Ok r) /\
  KalmanFilter.P (KalmanFilter.inference [[5]] [[0]] kf_demo).1
  = KalmanFilter.P (KalmanFilter.inference [[1]] [[0]] kf_demo).1.
Proof.
  destruct (kf_demo_one_step 1) as [r H]. destruct (kf_demo_one_step 5) as [r' H'].
  split_and!; [reflexivity | eauto | eauto |].
  exact (X3_covariance_ignores_the_data kf_demo [[1]] [[0]] [[5]] [[0]] r r'
           eq_refl H H').
Defined.

Lemma X4_witness :
  ncols no_steps = 0%nat /\
  KalmanFilter.inference no_steps no_steps kf_demo
  = (KalmanFilter.set_P (Some (eye 1)) (KalmanFilter.set_z (Some (zeros 1 1)) kf_demo),
     Raise RuntimeError).
Proof.
  split; [reflexivity|].
  exact (X4_inference_on_no_timestep kf_demo no_steps no_steps eq_refl).
Defined.

Lemma X5_witness :
  is_Some (mem nkf_demo !! 2%positive) /\
  mem (NeuralKalmanFilter.predict two_steps two_controls 3 1 nkf_demo).1 !! 2%positive
  = mem nkf_demo !! 2%positive.
Proof.
  assert (H : is_Some (mem nkf_demo !! 2%positive)) by (eexists; reflexivity).
  split; [exact H|].
  exact (X5_predict_changes_no_tensor nkf_demo two_steps two_controls 3 1 2%positive H).
Defined.

Lemma X6_witness :
  is_Some (mem nkf_demo !! 2%positive) /\
  2%positive <> NeuralKalmanFilter.Wr (self nkf_demo) /\
  2%positive <> NeuralKalmanFilter.Wout (self nkf_demo) /\
  let w' := (NeuralKalmanFilter.train two_steps two_controls 3 1 2 1 nkf_demo).1 in
  NeuralKalmanFilter.Wr (self w') = NeuralKalmanFilter.Wr (self nkf_demo) /\
  NeuralKalmanFilter.Win (self w') = NeuralKalmanFilter.Win (self nkf_demo) /\
  NeuralKalmanFilter.Wout (self w') = NeuralKalmanFilter.Wout (self nkf_demo) /\
  mem w' !! 2%positive = mem nkf_demo !! 2%positive.
Proof.
  assert (H : is_Some (mem nkf_demo !! 2%positive)) by (eexists; reflexivity).
  assert (N1 : 2%positive <> NeuralKalmanFilter.Wr (self nkf_demo)) by discriminate.
  assert (N2 : 2%positive <> NeuralKalmanFilter.Wout (self nkf_demo)) by discriminate.
  split_and!; [exact H | exact N1 | exact N2 |].
  exact (X6_train_changes_two_tensors nkf_demo two_steps two_controls 3 1 2 1
           2%positive H N1 N2).
Defined.

Lemma X7_witness :
  exists h' o,
    NeuralKalmanFilter.init [[1]] [[1]] [[1]] 1 false "linear" callers_store
    = (h', Ok o) /\
    is_Some (callers_store !! 7%positive) /\
    mem (NeuralKalmanFilter.train two_steps two_controls 3 1 2 1 (World h' o)).1
      !! 7%positive
    = callers_store !! 7%positive.
Proof.
  assert (Hinit : exists o,
             NeuralKalmanFilter.init [[1]] [[1]] [[1]] 1 false "linear" callers_store
             = ((NeuralKalmanFilter.init [[1]] [[1]] [[1]] 1 false "linear"
                   callers_store).1, Ok o))
    by (eexists; vm_compute; reflexivity).
  destruct Hinit as [o Hinit].
  assert (H : is_Some (callers_store !! 7%positive)) by (eexists; reflexivity).
  eexists. exists o. split_and!; [exact Hinit | exact H |].
  exact (X7_training_spares_the_callers_tensors callers_store _ o [[1]] [[1]] [[1]] 1
           false "linear" two_steps two_controls 3 1 2 1 7%positive Hinit H).
Defined.

Lemma X8_witness :
  NeuralKalmanFilter.ez (self nkf_demo) = None /\
  (1 <= 2)%nat /\ (1 <= ncols two_steps)%nat /\
  (NeuralKalmanFilter.train two_steps two_controls 0 1 2 1 nkf_demo).2
  = Raise TypeError.
Proof.
  assert (H1 : (1 <= 2)%nat) by lia.
  assert (H2 : (1 <= ncols two_steps)%nat) by (cbn; lia).
  split_and!; [reflexivity | exact H1 | exact H2 |].
  exact (X8_train_without_errors_raises nkf_demo two_steps two_controls 1 2 1
           eq_refl H1 H2).
Defined.

Lemma X9_witness :
  ncols no_steps = 0%nat /\
  (NeuralKalmanFilter.predict no_steps no_steps 3 1 nkf_demo).2 = Raise RuntimeError /\
  NeuralKalmanFilter.z_val (NeuralKalmanFilter.predict no_steps no_steps 3 1 nkf_demo).1
  = Some (zeros (NeuralKalmanFilter.latent_size (self nkf_demo)) 1) /\
  forall l, is_Some (mem nkf_demo !! l) ->
    mem (NeuralKalmanFilter.predict no_steps no_steps 3 1 nkf_demo).1 !! l
    = mem nkf_demo !! l.
Proof.
  split; [reflexivity|].
  exact (X9_predict_on_no_timestep nkf_demo no_steps no_steps 3 1 eq_refl).
Defined.

Lemma X10_witness :
  ncols no_steps = 0%nat /\
  (NeuralKalmanFilter.train no_steps no_steps 3 1 2 1 nkf_demo).2 = Ok tt /\
  forall l, is_Some (mem nkf_demo !! l) ->
    mem (NeuralKalmanFilter.train no_steps no_steps 3 1 2 1 nkf_demo).1 !! l
    = mem nkf_demo !! l.
Proof.
  split; [reflexivity|].
  exact (X10_train_on_no_timestep nkf_demo no_steps no_steps 3 1 2 1 eq_refl).
Defined.

Lemma X11_witness :
  let ezv := NodeSpec.latent_error Linear [[1]] [[1]] [[0]] [[0]] [[1]] in
  let pxv := mmul [[1]] (activate Linear [[0]]) in
  let exv := NodeSpec.obs_error Linear [[1]] [[0]] [[1]] in
  NeuralKalmanFilter.update_nodes 1 nkf_mid_step
  = (World (<[4%positive := zipT Rminus [[0]]
                              (scale 1 (NodeSpec.delta_z Linear [[1]] [[0]] ezv exv))]>
              (mem nkf_mid_step))
       (NeuralKalmanFilter.set_ex (Some exv)
          (NeuralKalmanFilter.set_pred_x (Some pxv)
             (NeuralKalmanFilter.set_ez (Some ezv) (self nkf_mid_step)))),
     Ok tt).
Proof.
  apply (X11_update_nodes_round (mem nkf_mid_step) (self nkf_mid_step) 4%positive
           [[1]] [[1]] [[1]] [[0]] [[0]] [[1]] [[1]] 0 0 0 1 1);
    try reflexivity.
  exists 5%positive. split; reflexivity.
Defined.

Lemma X12_witness :
  CodingSpec.closed_form [[1]] [[1]] [[1]] 1 [[1]] [[1]] [[0]] = Ok [[1]] /\
  exists o',
    NeuralKalmanFilter.update_nodes 1 nkf_at_rest = (World (mem nkf_at_rest) o', Ok tt) /\
    NeuralKalmanFilter.z o' = Some 4%positive /\
    NeuralKalmanFilter.ez o'
    = Some (NodeSpec.latent_error Linear [[1]] [[1]] [[1]] [[0]] [[1]]) /\
    NeuralKalmanFilter.ex o' = Some (NodeSpec.obs_error Linear [[1]] [[1]] [[1]]).
Proof.
  split; [exact closed_form_demo|].
  apply (X12_closed_form_is_a_fixed_point (mem nkf_at_rest) (self nkf_at_rest)
           4%positive 5%positive [[1]] [[1]] [[1]] [[1]] [[0]] [[1]] [[1]] 0 0 0 1 1);
    try reflexivity.
  exact closed_form_demo.
Defined.

Lemma X13_witness :
  is_Some (mem pc_demo !! at_u) /\ (true = true -> at_u <> at_x) /\
  let w' := (TemporalPC.inference 3 1 at_x at_u at_prev_z true pc_demo).1 in
  TemporalPC.Win (self w') = TemporalPC.Win (self pc_demo) /\
  TemporalPC.Wr (self w') = TemporalPC.Wr (self pc_demo) /\
  TemporalPC.Wout (self w') = TemporalPC.Wout (self pc_demo) /\
  mem w' !! at_u = mem pc_demo !! at_u.
Proof.
  assert (H : is_Some (mem pc_demo !! at_u)) by (eexists; reflexivity).
  assert (N : true = true -> at_u <> at_x) by (intros _; discriminate).
  split_and!; [exact H | exact N |].
  exact (X13_inference_writes_z_and_x_only pc_demo 3 1 at_x at_u at_prev_z true at_u
           H N).
Defined.

Lemma pc_demo_energy :
  (TemporalPC.update_grads at_x at_u at_prev_z pc_demo).2
  = Ok (energy_at (self pc_demo) (pred_latent (self pc_demo) [[1]] [[1]]) [[0]] [[1]]).
Proof.
  transitivity (TemporalPC.energy_of (self pc_demo) [[0]] [[1]] [[1]] [[1]]).
  - exact (pc_update_grads_energy (mem pc_demo) (self pc_demo) at_x at_u at_prev_z
             at_z [[1]] [[1]] [[1]] [[0]] eq_refl eq_refl eq_refl eq_refl eq_refl).
  - apply (pc_energy_Ok (self pc_demo) 1 0 0 0); apply is_shape_spec; reflexivity.
Qed.

Lemma X14_witness :
  let E := energy_at (self pc_demo) (pred_latent (self pc_demo) [[1]] [[1]])
             [[0]] [[1]] in
  (TemporalPC.update_grads at_x at_u at_prev_z pc_demo).2 = Ok E /\
  0 <= E /\
  exists hl ol,
    TemporalPC.hidden_loss
      (self (TemporalPC.update_grads at_x at_u at_prev_z pc_demo).1) = Some hl /\
    TemporalPC.obs_loss
      (self (TemporalPC.update_grads at_x at_u at_prev_z pc_demo).1) = Some ol /\
    0 <= hl /\ 0 <= ol /\ E = hl + ol.
Proof.
  cbv zeta. split; [exact pc_demo_energy|].
  exact (X14_energy_is_not_negative pc_demo at_x at_u at_prev_z _ pc_demo_energy).
Defined.

Lemma X15_witness :
  let P := pred_latent (self pc_demo) [[1]] [[1]] in
  exists w',
    TemporalPC.inference 0 1 at_x at_u at_prev_z false pc_demo = (w', Ok tt) /\
    TemporalPC.z_val w' = Some P /\
    exists w'',
      TemporalPC.update_grads at_x at_u at_prev_z w'
      = (w'', Ok (tsum (tsquare (err_x_at (self pc_demo) P [[1]])))) /\
      TemporalPC.hidden_loss (self w'') = Some 0 /\
      TemporalPC.obs_loss (self w'')
      = Some (tsum (tsquare (err_x_at (self pc_demo) P [[1]]))).
Proof.
  apply (X15_no_round_leaves_the_prediction pc_demo at_x at_u at_prev_z
           [[1]] [[1]] [[1]] 1 0 0 0 1 false); reflexivity.
Defined.

Lemma X16_witness :
  TemporalPC.inference 3 0 at_x at_u at_prev_z true pc_demo
  = TemporalPC.inference 0 0 at_x at_u at_prev_z true pc_demo.
Proof.
  apply (X16_zero_step_size pc_demo at_x at_u at_prev_z [[1]] [[1]] [[1]] 1 0 0 0
           true 3); reflexivity.
Defined.

Lemma X17_witness :
  Forall (Forall (fun v => v = 0))
    (direction (self pc_at_rest) (pred_latent (self pc_at_rest) [[1]] [[1]])
       [[1]] [[0]]) /\
  forall inf_lr,
    TemporalPC.update_nodes at_x at_u at_prev_z inf_lr false pc_at_rest
    = (pc_at_rest, Ok tt).
Proof.
  assert (H : Forall (Forall (fun v => v = 0))
                (direction (self pc_at_rest)
                   (pred_latent (self pc_at_rest) [[1]] [[1]]) [[1]] [[0]])).
  { repeat constructor. cbv. lra. }
  split; [exact H|].
  apply (X17_rest_at_zero_gradient pc_at_rest at_x at_u at_prev_z at_z
           [[0]] [[1]] [[1]] [[1]] 1 0 0 0);
    first [ reflexivity | discriminate | exact H ].
Defined.

Lemma X18_witness :
  nkf_alike nkf_at_rest nkf_demo /\
  (NeuralKalmanFilter.predict two_steps two_controls 3 1 nkf_at_rest).2
  = (NeuralKalmanFilter.predict two_steps two_controls 3 1 nkf_demo).2.
Proof.
  assert (H : nkf_alike nkf_at_rest nkf_demo).
  { unfold nkf_alike. split_and!; try reflexivity; solve_wf. }
  split; [exact H|].
  exact (X18_predict_starts_afresh nkf_at_rest nkf_demo two_steps two_controls 3 1 H).
Defined.

Lemma X19_witness :
  NeuralKalmanFilter.wf nkf_demo /\
  (NeuralKalmanFilter.predict two_steps two_controls 3 1
     (NeuralKalmanFilter.predict two_steps two_controls 5 1 nkf_demo).1).2
  = (NeuralKalmanFilter.predict two_steps two_controls 3 1 nkf_demo).2.
Proof.
  assert (H : NeuralKalmanFilter.wf nkf_demo) by solve_wf.
  split; [exact H|].
  exact (X19_predict_is_repeatable nkf_demo two_steps two_controls two_steps
           two_controls 3 5 1 1 H).
Defined.

(** *** The learning updates on the demonstration solver *)

(** C4 as it is stated fails for [train] with [inf_iters = 0]: no round
    computes an error.  On the solver that the constructor makes, which
    holds no error yet, the first timestep raises at the update of the
    transition weights, and neither weight has moved. *)
Lemma C4_no_round_no_update :
  let r := NeuralKalmanFilter.train [[1]] [[1]] 0 1 1 1 nkf_demo in
  ncols [[1]] = 1%nat /\
  NeuralKalmanFilter.ez (self nkf_demo) = None /\
  NeuralKalmanFilter.ex (self nkf_demo) = None /\
  r.2 = Raise TypeError /\
  NeuralKalmanFilter.Wr_val nkf_demo = Some [[1]] /\
  NeuralKalmanFilter.Wout_val nkf_demo = Some [[1]] /\
  NeuralKalmanFilter.Wr_val r.1 = Some [[1]] /\
  NeuralKalmanFilter.Wout_val r.1 = Some [[1]].
Proof. cbv zeta. split_and!; reflexivity. Qed.

(** Evaluates the left-hand side of an equation between tensors and leaves
    the arithmetic of its entries to [lra]. *)
Ltac reals :=
  match goal with
  | |- ?l = _ => let v := eval vm_compute in l in change l with v
  end;
  repeat f_equal; lra.

(** The second timestep of a pass with one round for each timestep, on
    the observations and controls [[1; 1]].  It starts with the estimate
    at [[2]] and [Wout] at [[3]], as the first timestep leaves them.  Its
    round computes [ez = 2 - 1 * 2 - 1 * 1] and [ex = 1 - 3 * 2] and moves
    the estimate to [[-12]]; then [Wr] becomes [1 + 1 * (-1) * 2] and
    [Wout] becomes [3 + 1 * (-5) * (-12)]. *)
Lemma C4_witness :
  let w := (NeuralKalmanFilter.train_upto [[1; 1]] [[1; 1]] 1 1 1 0 1 nkf_demo).1 in
  let wk := (NeuralKalmanFilter.train_step_upto [[1; 1]] [[1; 1]] 1 1 0 w).1 in
  NeuralKalmanFilter.wf nkf_demo /\
  NeuralKalmanFilter.train_upto [[1; 1]] [[1; 1]] 1 1 1 0 1 nkf_demo = (w, Ok tt) /\
  NeuralKalmanFilter.train_step_upto [[1; 1]] [[1; 1]] 1 1 0 w = (wk, Ok tt) /\
  NeuralKalmanFilter.Wr_val wk = Some [[1]] /\
  NeuralKalmanFilter.Win_val wk = Some [[1]] /\
  NeuralKalmanFilter.Wout_val wk = Some [[3]] /\
  NeuralKalmanFilter.z_val wk = Some [[2]] /\
  NeuralKalmanFilter.prev_z_val wk = Some [[2]] /\
  exists w1 w',
    NeuralKalmanFilter.train_step_upto [[1; 1]] [[1; 1]] 1 1 1 w = (w1, Ok tt) /\
    NeuralKalmanFilter.ez (self w1) = Some [[-1]] /\
    NeuralKalmanFilter.ex (self w1) = Some [[-5]] /\
    NeuralKalmanFilter.z_val w1 = Some [[-12]] /\
    NeuralKalmanFilter.train_upto [[1; 1]] [[1; 1]] 1 1 1 0 2 nkf_demo = (w', Ok tt) /\
    NeuralKalmanFilter.Wr_val w' = Some [[-1]] /\
    NeuralKalmanFilter.Wout_val w' = Some [[63]] /\
    NeuralKalmanFilter.Win_val w' = Some [[1]].
Proof.
  cbv zeta.
  set (w := (NeuralKalmanFilter.train_upto [[1; 1]] [[1; 1]] 1 1 1 0 1 nkf_demo).1).
  set (wk := (NeuralKalmanFilter.train_step_upto [[1; 1]] [[1; 1]] 1 1 0 w).1).
  assert (Hw : NeuralKalmanFilter.wf nkf_demo) by solve_wf.
  assert (H1 : NeuralKalmanFilter.train_upto [[1; 1]] [[1; 1]] 1 1 1 0 1 nkf_demo
               = (w, Ok tt)) by (vm_compute; reflexivity).
  assert (H2 : NeuralKalmanFilter.train_step_upto [[1; 1]] [[1; 1]] 1 1 0 w
               = (wk, Ok tt)) by (vm_compute; reflexivity).
  assert (V1 : NeuralKalmanFilter.Wr_val wk = Some [[1]]) by reals.
  assert (V2 : NeuralKalmanFilter.Win_val wk = Some [[1]]) by reals.
  assert (V3 : NeuralKalmanFilter.Wout_val wk = Some [[3]]) by reals.
  assert (V4 : NeuralKalmanFilter.z_val wk = Some [[2]]) by reals.
  assert (V5 : NeuralKalmanFilter.prev_z_val wk = Some [[2]]) by reals.
  split_and!; try assumption.
  destruct (C4_two_outer_product_updates nkf_demo w wk [[1; 1]] [[1; 1]] 0 1 0 1 1
              [[1]] [[1]] [[3]] [[2]] [[2]] 0 0 0 Hw H1 H2 V1 V2 V3 V4 V5
              eq_refl eq_refl eq_refl eq_refl eq_refl eq_refl eq_refl)
    as (w1 & w' & L1 & L2 & L3 & L4 & _ & _ & _ & _ & L9 & _ & _ & L12 & L13 & L14 & _).
  exists w1, w'.
  change (NeuralKalmanFilter.nonlin (self wk)) with Linear in *.
  change (NeuralKalmanFilter.dynamic_inf (self wk)) with false in *.
  cbv iota in *.
  change (column 1 [[1; 1]]) with [[1]] in *.
  assert (Eez : NodeSpec.latent_error Linear [[1]] [[1]] [[2]] [[2]] [[1]] = [[-1]])
    by reals.
  assert (Eex : NodeSpec.obs_error Linear [[3]] [[2]] [[1]] = [[-5]]) by reals.
  assert (Ez : zipT Rminus [[2]]
                 (scale 1 (NodeSpec.delta_z Linear [[3]] [[2]] [[-1]] [[-5]]))
               = [[-12]]) by reals.
  rewrite Eez, Eex in *. rewrite Ez in *.
  split_and!; try assumption.
  - rewrite L12. reals.
  - rewrite L13. reals.
Defined.

(** *** An inversion that raises *)

